(** * SimPEG.Regularization: a shallow embedding and its properties

    The development follows [SimPEG/Regularization.py].  Floating-point
    numbers are idealised as real numbers (no rounding, no nan, no inf);
    numpy arrays are lists of reals, scipy sparse matrices are modelled by
    their dense contents together with their declared column count.
    Python exceptions are values of an error type, and every constructor
    returns either the constructed object or the exception it raises. *)

From Stdlib Require Import Reals Lra Lia List Bool Arith ZArith.
Import ListNotations.
Open Scope R_scope.

Set Implicit Arguments.

(** ** Exceptions and the error monad *)

Inductive exn : Type :=
| AssertionError
| AttributeError
| TypeError
| IndexError
| ValueError.

Inductive result (A : Type) : Type :=
| Ok (a : A)
| Raise (e : exn).

Arguments Ok {A} a.
Arguments Raise {A} e.

Definition bind {A B : Type} (c : result A) (k : A -> result B) : result B :=
  match c with
  | Ok a => k a
  | Raise e => Raise e
  end.

Notation "'do' x <- c ; k" := (bind c (fun x => k))
  (at level 10, x name, c at level 99, k at level 200).

Definition assert_ (b : bool) : result unit :=
  if b then Ok tt else Raise AssertionError.

(** ** Dense vectors (numpy 1-D arrays of floats) *)

Definition vec := list R.

Definition Reqb (a b : R) : bool := if Req_dec_T a b then true else false.

Fixpoint dot (a b : vec) : R :=
  match a, b with
  | u :: a', w :: b' => u * w + dot a' b'
  | _, _ => 0
  end.

Fixpoint sumsq (a : vec) : R :=
  match a with
  | [] => 0
  | u :: a' => u * u + sumsq a'
  end.

Fixpoint vsum (a : vec) : R :=
  match a with
  | [] => 0
  | u :: a' => u + vsum a'
  end.

Fixpoint map2 (f : R -> R -> R) (a b : vec) : vec :=
  match a, b with
  | u :: a', w :: b' => f u w :: map2 f a' b'
  | _, _ => []
  end.

Definition vadd : vec -> vec -> vec := map2 Rplus.
Definition vscale (k : R) (a : vec) : vec := map (Rmult k) a.
Definition zeros (n : nat) : vec := repeat 0 n.
Definition ones (n : nat) : vec := repeat 1 n.

(** Element-wise binary operation of two 1-D arrays, with numpy's
    broadcasting of a length-one operand; other length mismatches raise. *)
Definition elementwise (f : R -> R -> R) (a b : vec) : result vec :=
  if Nat.eqb (length a) (length b) then Ok (map2 f a b)
  else match a, b with
       | [u], _ => Ok (map (f u) b)
       | _, [w] => Ok (map (fun u => f u w) a)
       | _, _ => Raise ValueError
       end.

(** ** Matrices (scipy sparse matrices, by their dense contents) *)

Record matrix : Type := { rows : list vec; ncols : nat }.

Definition nrows (M : matrix) : nat := length (rows M).

(** Every stored row has the declared width. *)
Definition wf_matrix (M : matrix) : Prop :=
  Forall (fun r => length r = ncols M) (rows M).

Definition matvec (M : matrix) (v : vec) : vec :=
  map (fun r => dot r v) (rows M).

(** Row vector times matrix, as a linear combination of the rows. *)
Fixpoint lincomb (r : vec) (rs : list vec) (n : nat) : vec :=
  match r, rs with
  | u :: r', row :: rs' => vadd (vscale u row) (lincomb r' rs' n)
  | _, _ => zeros n
  end.

Definition mmul (A B : matrix) : matrix :=
  {| rows := map (fun r => lincomb r (rows B) (ncols B)) (rows A);
     ncols := ncols B |}.

Definition transpose (M : matrix) : matrix :=
  {| rows := map (fun j => map (fun r => nth j r 0) (rows M))
                 (seq 0 (ncols M));
     ncols := nrows M |}.

(** [Utils.speye n]: the n-by-n identity. *)
Definition speye (n : nat) : matrix :=
  {| rows := map (fun i => map (fun j => if Nat.eqb i j then 1 else 0)
                               (seq 0 n))
                 (seq 0 n);
     ncols := n |}.

(** [Utils.sdiag v]: the diagonal matrix of a vector. *)
Definition sdiag (v : vec) : matrix :=
  {| rows := map (fun iu => map (fun j => if Nat.eqb (fst iu) j
                                          then snd iu else 0)
                                (seq 0 (length v)))
                 (combine (seq 0 (length v)) v);
     ncols := length v |}.

Fixpoint select {A : Type} (mask : list bool) (l : list A) : list A :=
  match mask, l with
  | b :: mask', u :: l' => if b then u :: select mask' l' else select mask' l'
  | _, _ => []
  end.

Definition count_true (mask : list bool) : nat :=
  length (filter (fun b => b) mask).

(** [mask.nonzero()[0]]: the positions of the [True] entries of a mask, its
    first entry having position [s]. *)
Fixpoint true_indices (s : nat) (mask : list bool) : list nat :=
  match mask with
  | [] => []
  | b :: mask' =>
      if b then s :: true_indices (S s) mask' else true_indices (S s) mask'
  end.

(** [M[:, mask]] on a sparse matrix: the boolean mask is turned into the
    positions of its [True] entries and those columns are taken, so the mask
    need not have one entry per column; a position that is not a column
    raises. *)
Definition select_cols (M : matrix) (mask : list bool) : result matrix :=
  let idx := true_indices 0 mask in
  if forallb (fun j => Nat.ltb j (ncols M)) idx
  then Ok {| rows := map (fun r => map (fun j => nth j r 0) idx) (rows M);
             ncols := length idx |}
  else Raise IndexError.

(** [M.sum(1)]: the vector of row sums. *)
Definition row_sums (M : matrix) : vec := map vsum (rows M).

(** Shape-checked products, as scipy performs them. *)
Definition mat_mul (A B : matrix) : result matrix :=
  if Nat.eqb (ncols A) (nrows B) then Ok (mmul A B) else Raise ValueError.

Definition mat_vec (A : matrix) (v : vec) : result vec :=
  if Nat.eqb (ncols A) (length v) then Ok (matvec A v) else Raise ValueError.

(** ** Linear operators: a matrix or the structural identity

    Modelled from the spec: [Utils.Identity] is ``a structural-identity-weight
    value usable as a multiplicative identity''; its transpose is itself. *)

Inductive linop : Type :=
| Identity
| Mat (M : matrix).

Definition op_T (A : linop) : linop :=
  match A with
  | Identity => Identity
  | Mat M => Mat (transpose M)
  end.

Definition op_mul (A B : linop) : result linop :=
  match A, B with
  | Identity, _ => Ok B
  | _, Identity => Ok A
  | Mat M, Mat N => do P <- mat_mul M N; Ok (Mat P)
  end.

Definition op_vec (A : linop) (v : vec) : result vec :=
  match A with
  | Identity => Ok v
  | Mat M => mat_vec M v
  end.

Definition wf_linop (A : linop) : Prop :=
  match A with
  | Identity => True
  | Mat M => wf_matrix M
  end.

(** Two operators denote the same map when they are the same matrix, or one
    is the structural identity and the other an identity matrix. *)
Definition op_equiv (A B : linop) : Prop :=
  match A, B with
  | Identity, Identity => True
  | Mat M, Mat N => M = N
  | Identity, Mat N => N = speye (ncols N)
  | Mat M, Identity => M = speye (ncols M)
  end.

(** ** Reference models: an array or the structural zero

    Modelled from the spec: [Utils.Zero] is ``a structural-zero value usable
    in arithmetic as an additive identity''. *)

Inductive mref_t : Type :=
| Zero
| Arr (v : vec).

(** [m - mref] *)
Definition sub_mref (m : vec) (mref : mref_t) : result vec :=
  match mref with
  | Zero => Ok m
  | Arr v => elementwise Rminus m v
  end.

(** ** Mappings

    Modelled from the spec: the mapping is ``an opaque differentiable map
    with [apply], [derivative] operations'' and a parameter count.  The
    count is [None] when the map was built without one. *)

Record Mapping : Type := {
  map_nP : option nat;
  map_apply : vec -> result vec;
  map_deriv : vec -> result linop
}.

(** Modelled from the spec: [Maps.IdentityMap(nP=n)], ``a default identity
    mapping sized to'' [n]. *)
Definition IdentityMap (n : option nat) : Mapping :=
  {| map_nP := n;
     map_apply := fun v => Ok v;
     map_deriv := fun _ => Ok (match n with
                               | Some k => Mat (speye k)
                               | None => Identity
                               end) |}.

(** ** The mesh (external collaborator)

    Modelled from the spec: the mesh interface provides ``cell count,
    per-dimension face counts, cell volumes, native face-averaging
    operators, native gradient/divergence operators, and a dimensionality''.
    The per-axis attributes ([nFx], [aveFx2CC], [cellGradx], [faceDivx],
    [_cellGradxStencil()] and their y and z siblings) are indexed by the
    axis. *)

Inductive orientation : Type := Ox | Oy | Oz.

Record Mesh : Type := {
  nC : nat;
  dim : nat;
  mesh_vol : vec;
  nF : orientation -> nat;
  mesh_aveF2CC : orientation -> matrix;
  cellGrad : orientation -> matrix;
  faceDiv : orientation -> matrix;
  cellGradStencil : orientation -> matrix
}.

(** ** The store of arrays that are mutated in place

    [RegularizationMesh.vol] hands out the cached array object itself, so
    the cache holds a reference into a store of arrays. *)

Definition ref := nat.
Definition Store := list vec.

Definition deref (st : Store) (r : ref) : vec := nth r st [].

Definition alloc (st : Store) (v : vec) : ref * Store :=
  (length st, st ++ [v]).

Fixpoint store_set (st : Store) (r : ref) (v : vec) : Store :=
  match st, r with
  | [], _ => []
  | _ :: st', O => v :: st'
  | u :: st', S r' => u :: store_set st' r' v
  end.

(** [a *= w] on the array stored at [r]: the product is written back into
    the same array object. *)
Definition imul (st : Store) (r : ref) (w : vec) : result Store :=
  let a := deref st r in
  if Nat.eqb (length a) (length w) then Ok (store_set st r (map2 Rmult a w))
  else match w with
       | [k] => Ok (store_set st r (map (fun u => u * k) a))
       | _ => Raise ValueError
       end.

(** ** class RegularizationMesh

    The adapter memoises its properties.  Only the array behind [vol] is
    ever written to after it is computed, so [vol] is modelled with its
    cache and the store; the other properties are functions of the mesh and
    the active set, evaluated where the code reads them. *)

Inductive indarr : Type :=
| BoolArr (mask : list bool)
| IntArr (idx : list Z).

Record RegularizationMesh : Type := {
  rm_mesh : Mesh;
  rm_indActive : option (list bool);
  rm_vol : option ref          (* the [_vol] cache *)
}.

Definition RegularizationMesh_init (mesh : Mesh) (indActive : option indarr)
  : result RegularizationMesh :=
  match indActive with
  | None => Ok {| rm_mesh := mesh; rm_indActive := None; rm_vol := None |}
  | Some (BoolArr mask) =>
      Ok {| rm_mesh := mesh; rm_indActive := Some mask; rm_vol := None |}
  | Some (IntArr _) => Raise AssertionError
  end.

Definition regmesh_nC (rm : RegularizationMesh) : nat :=
  match rm_indActive rm with
  | None => nC (rm_mesh rm)
  | Some mask => count_true mask
  end.

Definition regmesh_dim (rm : RegularizationMesh) : nat := dim (rm_mesh rm).

Definition mask_to_vec (mask : list bool) : vec :=
  map (fun b : bool => if b then 1 else 0) mask.

Definition Pac (rm : RegularizationMesh) : result matrix :=
  match rm_indActive rm with
  | None => Ok (speye (nC (rm_mesh rm)))
  | Some mask => select_cols (speye (nC (rm_mesh rm))) mask
  end.

(** [Pafx], [Pafy], [Pafz] *)
Definition Paf (o : orientation) (rm : RegularizationMesh) : result matrix :=
  match rm_indActive rm with
  | None => Ok (speye (nF (rm_mesh rm) o))
  | Some mask =>
      do t <- mat_vec (transpose (mesh_aveF2CC (rm_mesh rm) o))
                      (mask_to_vec mask);
      let indActive_F := map (fun u => Reqb u 1) t in
      select_cols (speye (nF (rm_mesh rm) o)) indActive_F
  end.

(** [aveFx2CC], [aveFy2CC], [aveFz2CC] *)
Definition aveF2CC (o : orientation) (rm : RegularizationMesh)
  : result matrix :=
  do P <- Pac rm;
  do t <- mat_mul (transpose P) (mesh_aveF2CC (rm_mesh rm) o);
  do F <- Paf o rm;
  mat_mul t F.

(** [aveCC2Fx], [aveCC2Fy], [aveCC2Fz] *)
Definition aveCC2F (o : orientation) (rm : RegularizationMesh)
  : result matrix :=
  do A <- aveF2CC o rm;
  let At := transpose A in
  mat_mul (sdiag (map (fun s => 1 / s) (row_sums At))) At.

(** [cellDiffx], [cellDiffy], [cellDiffz] *)
Definition cellDiff (o : orientation) (rm : RegularizationMesh)
  : result matrix :=
  do F <- Paf o rm;
  do t <- mat_mul (transpose F) (cellGrad (rm_mesh rm) o);
  do P <- Pac rm;
  mat_mul t P.

(** [faceDiffx], [faceDiffy], [faceDiffz] *)
Definition faceDiff (o : orientation) (rm : RegularizationMesh)
  : result matrix :=
  do P <- Pac rm;
  do t <- mat_mul (transpose P) (faceDiv (rm_mesh rm) o);
  do F <- Paf o rm;
  mat_mul t F.

(** The least dimensionality in which an axis exists. *)
Definition min_dim (o : orientation) : nat :=
  match o with Ox => 1 | Oy => 2 | Oz => 3 end.

(** [cellDiffxStencil], [cellDiffyStencil], [cellDiffzStencil]; the y and z
    properties return [None] below their dimensionality, the x property has
    no such test. *)
Definition cellDiffStencil (o : orientation) (rm : RegularizationMesh)
  : result (option matrix) :=
  let build :=
    do F <- Paf o rm;
    do t <- mat_mul (transpose F) (cellGradStencil (rm_mesh rm) o);
    do P <- Pac rm;
    do S <- mat_mul t P;
    Ok (Some S) in
  match o with
  | Ox => build
  | _ => if Nat.ltb (regmesh_dim rm) (min_dim o) then Ok None else build
  end.

(** [vol]: computed on first access, then the cached array is returned. *)
Definition vol (rm : RegularizationMesh) (st : Store)
  : result (ref * RegularizationMesh * Store) :=
  match rm_vol rm with
  | Some r => Ok (r, rm, st)
  | None =>
      do P <- Pac rm;
      do v <- mat_vec (transpose P) (mesh_vol (rm_mesh rm));
      let (r, st') := alloc st v in
      Ok (r, {| rm_mesh := rm_mesh rm; rm_indActive := rm_indActive rm;
                rm_vol := Some r |}, st')
  end.

(** ** Attributes and keyword arguments

    An object's attributes are looked up on the instance and then on its
    class.  [Attrs] holds the attributes that the classes of this module
    declare; a constructor receives the class-level values ([cls]) and the
    keyword arguments, and the base constructor writes the keyword arguments
    over the class-level values.  [norms] is declared by one class only
    ([Sparse]): [None] there means that the attribute does not exist. *)

Record Attrs : Type := {
  mapping : option Mapping;
  mref : mref_t;
  indActive : option indarr;
  cell_weights : option vec;
  mrefInSmooth : bool;
  alpha_s : R;
  alpha_x : R;
  alpha_y : R;
  alpha_z : R;
  eps_p : R;
  eps_q : R;
  model : option vec;
  gamma : R;
  norm : R;
  norms : option (list R);
  orientation_attr : option orientation
}.

Inductive kwarg : Type :=
| kw_W (w : linop)
| kw_mapping (mp : Mapping)
| kw_mref (v : mref_t)
| kw_indActive (a : indarr)
| kw_cell_weights (w : vec)
| kw_mrefInSmooth (b : bool)
| kw_alpha_s (a : R)
| kw_alpha_x (a : R)
| kw_alpha_y (a : R)
| kw_alpha_z (a : R)
| kw_eps_p (e : R)
| kw_eps_q (e : R)
| kw_model (m : vec)
| kw_gamma (g : R)
| kw_norm (p : R)
| kw_orientation (o : orientation).

Definition setattr (a : Attrs) (k : kwarg) : Attrs :=
  let mk mp mr ia cw mis als alx aly alz ep eq md ga nm ori :=
    {| mapping := mp; mref := mr; indActive := ia; cell_weights := cw;
       mrefInSmooth := mis; alpha_s := als; alpha_x := alx; alpha_y := aly;
       alpha_z := alz; eps_p := ep; eps_q := eq; model := md; gamma := ga;
       norm := nm; norms := norms a; orientation_attr := ori |} in
  let '{| mapping := mp; mref := mr; indActive := ia; cell_weights := cw;
          mrefInSmooth := mis; alpha_s := als; alpha_x := alx;
          alpha_y := aly; alpha_z := alz; eps_p := ep; eps_q := eq;
          model := md; gamma := ga; norm := nm; norms := _;
          orientation_attr := ori |} := a in
  match k with
  | kw_W _ => a
  | kw_mapping v => mk (Some v) mr ia cw mis als alx aly alz ep eq md ga nm ori
  | kw_mref v => mk mp v ia cw mis als alx aly alz ep eq md ga nm ori
  | kw_indActive v => mk mp mr (Some v) cw mis als alx aly alz ep eq md ga nm ori
  | kw_cell_weights v => mk mp mr ia (Some v) mis als alx aly alz ep eq md ga nm ori
  | kw_mrefInSmooth v => mk mp mr ia cw v als alx aly alz ep eq md ga nm ori
  | kw_alpha_s v => mk mp mr ia cw mis v alx aly alz ep eq md ga nm ori
  | kw_alpha_x v => mk mp mr ia cw mis als v aly alz ep eq md ga nm ori
  | kw_alpha_y v => mk mp mr ia cw mis als alx v alz ep eq md ga nm ori
  | kw_alpha_z v => mk mp mr ia cw mis als alx aly v ep eq md ga nm ori
  | kw_eps_p v => mk mp mr ia cw mis als alx aly alz v eq md ga nm ori
  | kw_eps_q v => mk mp mr ia cw mis als alx aly alz ep v md ga nm ori
  | kw_model v => mk mp mr ia cw mis als alx aly alz ep eq (Some v) ga nm ori
  | kw_gamma v => mk mp mr ia cw mis als alx aly alz ep eq md v nm ori
  | kw_norm v => mk mp mr ia cw mis als alx aly alz ep eq md ga v ori
  | kw_orientation v => mk mp mr ia cw mis als alx aly alz ep eq md ga nm (Some v)
  end.

(** Modelled from the spec: [Utils.setKwargs], which stores every keyword
    argument as an attribute of the instance. *)
Definition setKwargs (a : Attrs) (kw : list kwarg) : Attrs :=
  fold_left setattr kw a.

Fixpoint find_W (kw : list kwarg) : option linop :=
  match kw with
  | [] => None
  | kw_W w :: _ => Some w
  | _ :: kw' => find_W kw'
  end.

(** Modelled from the spec: the constructor of
    [ObjectiveFunction.L2ObjectiveFunction], which stores the keyword
    arguments and the weighting operator [W], ``default: identity''. *)
Definition L2ObjectiveFunction_init (cls : Attrs) (kw : list kwarg)
  : Attrs * linop :=
  (setKwargs cls kw,
   match find_W kw with Some w => w | None => Identity end).

(** The class-level attribute values written in the class bodies.  The
    argument is the class's [norm]. *)
Definition class_attrs (nrm : R) : Attrs :=
  {| mapping := None; mref := Zero; indActive := None; cell_weights := None;
     mrefInSmooth := false;
     alpha_s := 1; alpha_x := 1; alpha_y := 1; alpha_z := 1;
     eps_p := 1 / 10; eps_q := 1 / 10; model := None; gamma := 1;
     norm := nrm; norms := None; orientation_attr := None |}.

Definition BaseRegularization_cls : Attrs := class_attrs 2.
Definition Smallness_cls : Attrs := class_attrs 2.
Definition SimpleSmooth_cls : Attrs := class_attrs 2.
Definition Simple_cls : Attrs := class_attrs 2.
Definition Smooth_cls : Attrs := class_attrs 2.
Definition SparseSmallness_cls : Attrs := class_attrs 0.
Definition Sparse_x_cls : Attrs := class_attrs 2.
Definition Sparse_y_cls : Attrs := class_attrs 2.
Definition Sparse_z_cls : Attrs := class_attrs 2.

(** ** class BaseRegularization *)

Record Reg : Type := {
  reg_attrs : Attrs;
  reg_mesh : option Mesh;
  reg_regmesh : option RegularizationMesh;
  reg_nP : option nat;                  (* [_nP] *)
  reg_W : linop;
  reg_Wz : option linop                 (* set by [Sparse_z] only *)
}.

Definition set_W (obj : Reg) (w : linop) : Reg :=
  {| reg_attrs := reg_attrs obj; reg_mesh := reg_mesh obj;
     reg_regmesh := reg_regmesh obj; reg_nP := reg_nP obj;
     reg_W := w; reg_Wz := reg_Wz obj |}.

Definition set_Wz (obj : Reg) (w : linop) : Reg :=
  {| reg_attrs := reg_attrs obj; reg_mesh := reg_mesh obj;
     reg_regmesh := reg_regmesh obj; reg_nP := reg_nP obj;
     reg_W := reg_W obj; reg_Wz := Some w |}.

Definition set_attrs (obj : Reg) (a : Attrs) : Reg :=
  {| reg_attrs := a; reg_mesh := reg_mesh obj;
     reg_regmesh := reg_regmesh obj; reg_nP := reg_nP obj;
     reg_W := reg_W obj; reg_Wz := reg_Wz obj |}.

Definition set_regmesh (obj : Reg) (rm : RegularizationMesh) : Reg :=
  {| reg_attrs := reg_attrs obj; reg_mesh := reg_mesh obj;
     reg_regmesh := Some rm; reg_nP := reg_nP obj;
     reg_W := reg_W obj; reg_Wz := reg_Wz obj |}.

(** [a[i] = True] for one index of a fancy-index assignment: negative
    indices count from the end, indices outside [-n, n) raise. *)
Fixpoint set_nth_true (a : list bool) (i : nat) : list bool :=
  match a, i with
  | [], _ => []
  | _ :: a', O => true :: a'
  | b :: a', S i' => b :: set_nth_true a' i'
  end.

Definition normalize_index (n : nat) (i : Z) : result nat :=
  if (0 <=? i)%Z && (i <? Z.of_nat n)%Z then Ok (Z.to_nat i)
  else if (- Z.of_nat n <=? i)%Z && (i <? 0)%Z
       then Ok (Z.to_nat (i + Z.of_nat n))
       else Raise IndexError.

(** [a[tmp] = True] *)
Fixpoint assign_true (a : list bool) (tmp : list Z) : result (list bool) :=
  match tmp with
  | [] => Ok a
  | i :: tmp' =>
      do j <- normalize_index (length a) i;
      assign_true (set_nth_true a j) tmp'
  end.

(** [warnings(msg)]: the name [warnings] is bound to the module, and calling
    a module raises. *)
Definition call_warnings : result unit := Raise TypeError.

(** The two type assertions of the constructor ([mesh] is a mesh or [None],
    the mapping matches [mapPair]) hold by typing here. *)
Definition BaseRegularization_init (cls : Attrs) (mesh : option Mesh)
  (nP : option nat) (kw : list kwarg) : result Reg :=
  let (a0, W0) := L2ObjectiveFunction_init cls kw in
  (* ensure indActive are bools *)
  do a1 <-
    match indActive a0 with
    | None => Ok a0
    | Some ia =>
        do mask <-
          match ia with
          | BoolArr mask => Ok mask
          | IntArr tmp =>
              match mesh with
              | None => Raise AttributeError
              | Some ms => assign_true (repeat false (nC ms)) tmp
              end
          end;
        let a := setattr a0 (kw_indActive (BoolArr mask)) in
        match mapping a with
        | None =>
            Ok (setattr a (kw_mapping (IdentityMap (Some (count_true mask)))))
        | Some _ => Ok a
        end
    end;
  (* create regularization mesh if using *)
  do rm <-
    match mesh with
    | Some ms => do r <- RegularizationMesh_init ms (indActive a1); Ok (Some r)
    | None => Ok None
    end;
  (* set nP *)
  do np <-
    match mapping a1 with
    | Some mp =>
        do _ <- match nP with Some _ => call_warnings | None => Ok tt end;
        Ok (map_nP mp)
    | None =>
        match rm with
        | Some r =>
            do _ <- match nP with Some _ => call_warnings | None => Ok tt end;
            Ok (Some (regmesh_nC r))
        | None => Ok nP
        end
    end;
  (* set mappings *)
  let mp := match mapping a1 with
            | Some mp => mp
            | None => IdentityMap np
            end in
  Ok {| reg_attrs := setattr a1 (kw_mapping mp); reg_mesh := mesh;
        reg_regmesh := rm; reg_nP := np; reg_W := W0; reg_Wz := None |}.

Definition get_mapping (obj : Reg) : result Mapping :=
  match mapping (reg_attrs obj) with
  | Some mp => Ok mp
  | None => Raise AttributeError
  end.

Definition get_regmesh (obj : Reg) : result RegularizationMesh :=
  match reg_regmesh obj with
  | Some rm => Ok rm
  | None => Raise AttributeError
  end.

(** [_eval] *)
Definition BaseRegularization_eval (obj : Reg) (m : vec) : result R :=
  do d <- sub_mref m (mref (reg_attrs obj));
  do mp <- get_mapping obj;
  do u <- map_apply mp d;
  do r <- op_vec (reg_W obj) u;
  Ok (0.5 * dot r r).

(** [deriv] *)
Definition BaseRegularization_deriv (obj : Reg) (m : vec) : result vec :=
  do d <- sub_mref m (mref (reg_attrs obj));
  do mp <- get_mapping obj;
  do mD <- map_deriv mp d;
  do d' <- sub_mref m (mref (reg_attrs obj));
  do u <- map_apply mp d';
  do r <- op_vec (reg_W obj) u;
  do t <- op_vec (op_T (reg_W obj)) r;
  op_vec (op_T mD) t.

(** [deriv2]: the full Gauss-Newton Hessian when [v] is omitted, else its
    product with [v]. *)
Definition BaseRegularization_deriv2 (obj : Reg) (m : vec) (v : option vec)
  : result (linop + vec) :=
  do d <- sub_mref m (mref (reg_attrs obj));
  do mp <- get_mapping obj;
  do mD <- map_deriv mp d;
  match v with
  | None =>
      do a <- op_mul (op_T mD) (op_T (reg_W obj));
      do b <- op_mul a (reg_W obj);
      do H <- op_mul b mD;
      Ok (inl H)
  | Some v =>
      do t1 <- op_vec mD v;
      do t2 <- op_vec (reg_W obj) t1;
      do t3 <- op_vec (op_T (reg_W obj)) t2;
      do t4 <- op_vec (op_T mD) t3;
      Ok (inr t4)
  end.

(** [H @ v] for the value returned by [deriv2 m]. *)
Definition apply_hessian (H : linop + vec) (v : vec) : result (linop + vec) :=
  match H with
  | inl A => do u <- op_vec A v; Ok (inr u)
  | inr _ => Raise TypeError
  end.

(** ** class Smallness *)

(** The constructor passes its own [W=W] next to [**kwargs]: a [W] among
    the keyword arguments is a duplicate keyword, and the call raises. *)
Definition Smallness_init (cls : Attrs) (mesh : option Mesh)
  (kw : list kwarg) : result Reg :=
  let W := match cell_weights cls with
           | None => Identity
           | Some cw => Mat (sdiag cw)
           end in
  match find_W kw with
  | Some _ => Raise TypeError
  | None => BaseRegularization_init cls mesh None (kw_W W :: kw)
  end.

(** [x ** y] on floats, for a base where the power is a real number:
    [x ** 0 = 1], [x ** 2] is the square, [x ** 0.5] the square root. *)
Definition fpow (u p : R) : R :=
  if Req_dec_T p 0 then 1
  else if Req_dec_T p 2 then u * u
  else if Req_dec_T p 0.5 then sqrt u
  else if Rlt_dec 0 u then Rpower u p
  else 0.

(** [W = None] leaves the operator at its default.
    Modelled from the spec: ``weighting operator [W] (default: identity)''. *)
Definition linop_of_option (S : option matrix) : linop :=
  match S with
  | Some M => Mat M
  | None => Identity
  end.

(** ** class BaseSimpleSmooth and its three axes *)

Definition BaseSimpleSmooth_init (cls : Attrs) (mesh : Mesh)
  (o : orientation) (kw : list kwarg) : result Reg :=
  do obj <- BaseRegularization_init cls (Some mesh) None kw;
  do rm <- get_regmesh obj;
  do S <- cellDiffStencil o rm;
  let obj := set_W obj (linop_of_option S) in
  if mrefInSmooth (reg_attrs obj)
  then Ok obj
  else Ok (set_attrs obj (setattr (reg_attrs obj) (kw_mref Zero))).

Definition SimpleSmooth_x_init (cls : Attrs) (mesh : Mesh) (kw : list kwarg)
  : result Reg :=
  BaseSimpleSmooth_init cls mesh Ox kw.

Definition SimpleSmooth_y_init (cls : Attrs) (mesh : Mesh) (kw : list kwarg)
  : result Reg :=
  do _ <- assert_ (Nat.ltb 1 (dim mesh));
  BaseSimpleSmooth_init cls mesh Oy kw.

Definition SimpleSmooth_z_init (cls : Attrs) (mesh : Mesh) (kw : list kwarg)
  : result Reg :=
  do _ <- assert_ (Nat.ltb 2 (dim mesh));
  BaseSimpleSmooth_init cls mesh Oz kw.

(** ** Composite objectives

    Modelled from the spec: the composite of [ObjectiveFunction] ``holds an
    ordered list of (multiplier, term)'', built by scalar multiplication and
    addition of objectives, with
    [value(m) = sum of multiplier_i * term_i.value(m)].  It carries no other
    attribute. *)

Definition Combo : Type := list (R * Reg).

Definition scale_objective (a : R) (t : Reg) : Combo := [(a, t)].

Definition add_objective (c1 c2 : Combo) : Combo := c1 ++ c2.

Fixpoint Combo_eval (c : Combo) (m : vec) : result R :=
  match c with
  | [] => Ok 0
  | (a, t) :: c' =>
      do u <- BaseRegularization_eval t m;
      do w <- Combo_eval c' m;
      Ok (a * u + w)
  end.

(** ** class Simple

    The constructor rebinds its local name [self] to the composite; the
    instance under construction is the one initialised by the base
    constructor.  Both are returned here: the instance first, the final
    value of the local name second.  After the rebinding [self.alpha_y] and
    [self.alpha_z] are read from the composite, which has no such
    attribute. *)
Definition Simple_init_locals (cls : Attrs) (mesh : Mesh) (kw : list kwarg)
  : result (Reg * Combo) :=
  do inst <- BaseRegularization_init cls (Some mesh) None kw;
  do s <- Smallness_init Smallness_cls (Some mesh) kw;
  let cs := scale_objective (alpha_s (reg_attrs inst)) s in
  do sx <- SimpleSmooth_x_init SimpleSmooth_cls mesh kw;
  let self := add_objective cs (scale_objective (alpha_x (reg_attrs inst)) sx) in
  do self <- (if Nat.ltb 1 (dim mesh) then Raise AttributeError else Ok self);
  do self <- (if Nat.ltb 2 (dim mesh) then Raise AttributeError else Ok self);
  Ok (inst, self).

Definition Simple_init (cls : Attrs) (mesh : Mesh) (kw : list kwarg)
  : result Reg :=
  do p <- Simple_init_locals cls mesh kw;
  Ok (fst p).

(** ** class BaseSmooth and its three axes *)

Definition BaseSmooth_init (cls : Attrs) (mesh : Mesh) (o : orientation)
  (kw : list kwarg) (st : Store) : result (Reg * Store) :=
  do obj <- BaseRegularization_init cls (Some mesh) None kw;
  do rm <- get_regmesh obj;
  do ave <- aveCC2F o rm;
  do Ave_vol_st <-
    match cell_weights (reg_attrs obj) with
    | Some cw =>
        do t <- mat_vec ave cw;
        do c <- vol rm st;
        let '(r, rm', st') := c in
        do u <- elementwise Rmult t (deref st' r);
        Ok (u, rm', st')
    | None =>
        do c <- vol rm st;
        let '(r, rm', st') := c in
        do u <- mat_vec ave (deref st' r);
        Ok (u, rm', st')
    end;
  let '(Ave_vol, rm', st') := Ave_vol_st in
  let D := sdiag (map (fun u => fpow u 0.5) Ave_vol) in
  do G <- cellDiff o rm';
  do Wm <- mat_mul D G;
  let obj := set_W (set_regmesh obj rm') (Mat Wm) in
  if mrefInSmooth (reg_attrs obj)
  then Ok (obj, st')
  else Ok (set_attrs obj (setattr (reg_attrs obj) (kw_mref Zero)), st').

Definition Smooth_x_init (cls : Attrs) (mesh : Mesh) (kw : list kwarg)
  (st : Store) : result (Reg * Store) :=
  BaseSmooth_init cls mesh Ox kw st.

Definition Smooth_y_init (cls : Attrs) (mesh : Mesh) (kw : list kwarg)
  (st : Store) : result (Reg * Store) :=
  do _ <- assert_ (Nat.ltb 1 (dim mesh));
  BaseSmooth_init cls mesh Oy kw st.

Definition Smooth_z_init (cls : Attrs) (mesh : Mesh) (kw : list kwarg)
  (st : Store) : result (Reg * Store) :=
  do _ <- assert_ (Nat.ltb 2 (dim mesh));
  BaseSmooth_init cls mesh Oz kw st.

(** ** class BaseSmooth2 and the second-derivative terms *)

Definition BaseSmooth2_init (cls : Attrs) (mesh : Mesh) (o : orientation)
  (kw : list kwarg) (st : Store) : result (Reg * Store) :=
  do obj <- BaseRegularization_init cls (Some mesh) None kw;
  do rm <- get_regmesh obj;
  do c <- vol rm st;
  let '(r, rm', st1) := c in
  do st2 <-
    match cell_weights (reg_attrs obj) with
    | Some cw => imul st1 r cw
    | None => Ok st1
    end;
  let D := sdiag (map (fun u => fpow u 0.5) (deref st2 r)) in
  do F <- faceDiff o rm';
  do DF <- mat_mul D F;
  do G <- cellDiff o rm';
  do Wm <- mat_mul DF G;
  Ok (set_W (set_regmesh obj rm') (Mat Wm), st2).

Definition Smooth_xx_init (cls : Attrs) (mesh : Mesh) (kw : list kwarg)
  (st : Store) : result (Reg * Store) :=
  BaseSmooth2_init cls mesh Ox kw st.

(** [Smooth_yy] and [Smooth_zz] derive from [BaseRegularization], whose
    constructor receives [orientation] among the keyword arguments. *)
Definition Smooth_yy_init (cls : Attrs) (mesh : Mesh) (kw : list kwarg)
  (st : Store) : result (Reg * Store) :=
  do _ <- assert_ (Nat.ltb 1 (dim mesh));
  do obj <- BaseRegularization_init cls (Some mesh) None
              (kw_orientation Oy :: kw);
  Ok (obj, st).

Definition Smooth_zz_init (cls : Attrs) (mesh : Mesh) (kw : list kwarg)
  (st : Store) : result (Reg * Store) :=
  do _ <- assert_ (Nat.ltb 2 (dim mesh));
  do obj <- BaseRegularization_init cls (Some mesh) None
              (kw_orientation Oz :: kw);
  Ok (obj, st).

(** ** class BaseSparse *)

Definition BaseSparse_init (cls : Attrs) (mesh : Mesh) (kw : list kwarg)
  : result Reg :=
  do obj <- BaseRegularization_init cls (Some mesh) None kw;
  match cell_weights (reg_attrs obj) with
  | None =>
      do rm <- get_regmesh obj;
      Ok (set_attrs obj (setattr (reg_attrs obj)
                                 (kw_cell_weights (ones (regmesh_nC rm)))))
  | Some _ => Ok obj
  end.

(** [BaseSparse.R] *)
Definition BaseSparse_R (f_m : vec) (eps exponent : R) : vec :=
  let eta := fpow (fpow eps (1 - exponent / 2)) 0.5 in
  map (fun f => eta / fpow (fpow f 2 + fpow eps 2)
                           ((1 - exponent / 2) / 2)) f_m.

Definition get_cell_weights (obj : Reg) : result vec :=
  match cell_weights (reg_attrs obj) with
  | Some cw => Ok cw
  | None => Raise TypeError
  end.

(** ** class SparseSmallness

    With a model set, the constructor reads [self.norms] and [self.r];
    [norms] exists only when a class declares it, [r] is never assigned. *)
Definition SparseSmallness_init (cls : Attrs) (mesh : Mesh) (kw : list kwarg)
  : result Reg :=
  do obj <- BaseSparse_init cls mesh kw;
  do rm <- get_regmesh obj;
  do Rm <-
    match model (reg_attrs obj) with
    | None => Ok (speye (regmesh_nC rm))
    | Some mdl =>
        do mp <- get_mapping obj;
        do d <- sub_mref mdl (mref (reg_attrs obj));
        do f_m <- map_apply mp d;
        do p <- match norms (reg_attrs obj) with
                | None => Raise AttributeError
                | Some (p :: _) => Ok p
                | Some [] => Raise IndexError
                end;
        let r := BaseSparse_R f_m (eps_p (reg_attrs obj)) p in
        (* [Utils.sdiag(self.r)] *)
        Raise AttributeError
    end;
  do cw <- get_cell_weights obj;
  let D := sdiag (map (fun u => fpow u 0.5)
                      (vscale (gamma (reg_attrs obj)) cw)) in
  do Wm <- mat_mul D Rm;
  Ok (set_W obj (Mat Wm)).

(** ** classes Sparse_x, Sparse_y, Sparse_z

    The three constructors share their body up to the axis, the
    dimensionality assertion of y and z, and the attribute that receives
    the operator: [W] for x and y, [Wz] for z. *)

Definition get_stencil (o : orientation) (rm : RegularizationMesh)
  : result matrix :=
  do S <- cellDiffStencil o rm;
  match S with
  | Some M => Ok M
  | None => Raise AttributeError
  end.

Definition Sparse_axis_operator (obj : Reg) (o : orientation)
  : result matrix :=
  do rm <- get_regmesh obj;
  do Rm <-
    match model (reg_attrs obj) with
    | None => do S <- get_stencil o rm; Ok (speye (nrows S))
    | Some mdl =>
        do S <- get_stencil o rm;
        do mp <- get_mapping obj;
        do u <- map_apply mp mdl;
        do f_m <- mat_vec S u;
        let r := BaseSparse_R f_m (eps_q (reg_attrs obj))
                              (norm (reg_attrs obj)) in
        Ok (sdiag r)
    end;
  do ave <- aveCC2F o rm;
  do cw <- get_cell_weights obj;
  do t <- mat_vec ave cw;
  let D := sdiag (map (fun u => fpow u 0.5)
                      (vscale (gamma (reg_attrs obj)) t)) in
  do DR <- mat_mul D Rm;
  do S <- get_stencil o rm;
  mat_mul DR S.

Definition Sparse_x_init (cls : Attrs) (mesh : Mesh) (kw : list kwarg)
  : result Reg :=
  do obj <- BaseSparse_init cls mesh kw;
  do Wm <- Sparse_axis_operator obj Ox;
  Ok (set_W obj (Mat Wm)).

Definition Sparse_y_init (cls : Attrs) (mesh : Mesh) (kw : list kwarg)
  : result Reg :=
  do _ <- assert_ (Nat.ltb 1 (dim mesh));
  do obj <- BaseSparse_init cls mesh kw;
  do Wm <- Sparse_axis_operator obj Oy;
  Ok (set_W obj (Mat Wm)).

Definition Sparse_z_init (cls : Attrs) (mesh : Mesh) (kw : list kwarg)
  : result Reg :=
  do _ <- assert_ (Nat.ltb 2 (dim mesh));
  do obj <- BaseSparse_init cls mesh kw;
  do Wm <- Sparse_axis_operator obj Oz;
  Ok (set_Wz obj (Mat Wm)).

(** ** Concrete meshes

    Tensor meshes with unit cells, as the mesh package builds them: the
    face-to-cell average has weight 0.5 on each face of a cell, the
    divergence is the difference of the two faces of a cell, and the cell
    gradient (with its default Neumann boundary condition) is the
    difference across interior faces and zero on boundary faces. *)

Definition matrix_of (nr nc : nat) (f : nat -> nat -> R) : matrix :=
  {| rows := map (fun i => map (f i) (seq 0 nc)) (seq 0 nr); ncols := nc |}.

Definition empty_matrix : matrix := {| rows := []; ncols := 0 |}.

Definition av_entry (i j : nat) : R :=
  if Nat.eqb j i || Nat.eqb j (S i) then 0.5 else 0.

Definition div_entry (i j : nat) : R :=
  if Nat.eqb j i then -1 else if Nat.eqb j (S i) then 1 else 0.

Definition grad_entry (n i j : nat) : R :=
  if Nat.eqb i 0 || Nat.eqb i n then 0
  else if Nat.eqb (S j) i then -1 else if Nat.eqb j i then 1 else 0.

(** A 1-D tensor mesh of [n] unit cells. *)
Definition mesh1d (n : nat) : Mesh :=
  let only_x (M : matrix) (o : orientation) :=
    match o with Ox => M | _ => empty_matrix end in
  {| nC := n; dim := 1; mesh_vol := ones n;
     nF := fun o => match o with Ox => S n | _ => O end;
     mesh_aveF2CC := only_x (matrix_of n (S n) av_entry);
     cellGrad := only_x (matrix_of (S n) n (grad_entry n));
     faceDiv := only_x (matrix_of n (S n) div_entry);
     cellGradStencil := only_x (matrix_of (S n) n (grad_entry n)) |}.

(** A 3-D tensor mesh of 1 x 1 x 2 unit cells: two cells stacked along z,
    four x-faces, four y-faces and three z-faces. *)
Definition mesh3d_1x1x2 : Mesh :=
  let per_cell (a b : R) : matrix :=
    {| rows := [[a; b; 0; 0]; [0; 0; a; b]]; ncols := 4 |} in
  let zero42 : matrix :=
    {| rows := [[0; 0]; [0; 0]; [0; 0]; [0; 0]]; ncols := 2 |} in
  let gradz : matrix :=
    {| rows := [[0; 0]; [-1; 1]; [0; 0]]; ncols := 2 |} in
  {| nC := 2; dim := 3; mesh_vol := [1; 1];
     nF := fun o => match o with Oz => 3%nat | _ => 4%nat end;
     mesh_aveF2CC := fun o =>
       match o with
       | Oz => {| rows := [[0.5; 0.5; 0]; [0; 0.5; 0.5]]; ncols := 3 |}
       | _ => per_cell 0.5 0.5
       end;
     cellGrad := fun o => match o with Oz => gradz | _ => zero42 end;
     faceDiv := fun o =>
       match o with
       | Oz => {| rows := [[-1; 1; 0]; [0; -1; 1]]; ncols := 3 |}
       | _ => per_cell (-1) 1
       end;
     cellGradStencil := fun o => match o with Oz => gradz | _ => zero42 end |}.

(** ** The value of a penalty term, in the words of the specification

    [value(m) = 0.5 * r.r] where [r = W . mapping.apply(m - m_ref)], over
    plain matrices and vectors: the structural zero stands for the zero
    vector and the structural identity for the identity matrix. *)

Definition mref_dense (n : nat) (mr : mref_t) : vec :=
  match mr with
  | Zero => zeros n
  | Arr v => v
  end.

Definition W_dense (k : nat) (W : linop) : matrix :=
  match W with
  | Identity => speye k
  | Mat M => M
  end.

Definition spec_value (Wm : matrix) (apply : vec -> vec) (m_ref m : vec) : R :=
  0.5 * sumsq (matvec Wm (apply (map2 Rminus m m_ref))).

(** ** Well-formed active sets and the derived parameter count *)

(** An index that numpy accepts for an array of [n] entries. *)
Definition index_in_range (n : nat) (i : Z) : Prop :=
  (- Z.of_nat n <= i < Z.of_nat n)%Z.

(** The active set is absent, a boolean mask, or an integer array of valid
    cell indices of a given mesh. *)
Definition indActive_ok (mesh : option Mesh) (a : Attrs) : Prop :=
  match indActive a with
  | None => True
  | Some (BoolArr _) => True
  | Some (IntArr idx) =>
      exists ms, mesh = Some ms /\ Forall (index_in_range (nC ms)) idx
  end.

(** The parameter count in the order of the code: the mapping's count (an
    identity mapping sized to the active cells stands in for a missing
    mapping when a mask is given), else the mesh's, else the explicit one. *)
Definition derived_nP (a : Attrs) (mesh : option Mesh) (nP : option nat)
  : option nat :=
  match mapping a with
  | Some mp => map_nP mp
  | None =>
      match indActive a with
      | Some (BoolArr mask) => Some (count_true mask)
      | _ => match mesh with
             | Some ms => Some (nC ms)
             | None => nP
             end
      end
  end.

(** ** The weighting operators of the sparse terms, in the words of the
    specification

    [W = diag(sqrt(gamma * cellWeights)) . diag(R)] for smallness and
    [W = diag(sqrt(gamma * faceAvgWeight)) . diag(R) . cellDiffStencil] for
    an axis, where [R] is the vector of reweighting factors; before any
    model is set [R] is the vector of ones. *)

Definition spec_sparse_smallness_W (gamma : R) (cellWeights Rw : vec)
  : matrix :=
  mmul (sdiag (map sqrt (vscale gamma cellWeights))) (sdiag Rw).

Definition spec_sparse_axis_W (gamma : R) (faceAvgWeight Rw : vec)
  (stencil : matrix) : matrix :=
  mmul (mmul (sdiag (map sqrt (vscale gamma faceAvgWeight))) (sdiag Rw))
       stencil.

(** ** Well-shaped meshes and masks

    The shapes that the mesh package gives its operators along an axis:
    averages and divergence map faces to cells, gradients map cells to
    faces, and there is one volume per cell. *)

Definition mesh_shapes_ok (mesh : Mesh) (o : orientation) : Prop :=
  length (mesh_vol mesh) = nC mesh
  /\ nrows (mesh_aveF2CC mesh o) = nC mesh
  /\ ncols (mesh_aveF2CC mesh o) = nF mesh o
  /\ nrows (cellGrad mesh o) = nF mesh o
  /\ ncols (cellGrad mesh o) = nC mesh
  /\ nrows (faceDiv mesh o) = nC mesh
  /\ ncols (faceDiv mesh o) = nF mesh o
  /\ nrows (cellGradStencil mesh o) = nF mesh o
  /\ ncols (cellGradStencil mesh o) = nC mesh.

(** The mask of an adapter, when there is one, has one entry per cell. *)
Definition mask_ok (rm : RegularizationMesh) : Prop :=
  match rm_indActive rm with
  | None => True
  | Some mask => length mask = nC (rm_mesh rm)
  end.

(** The mask of active faces along an axis, as [Pafx] computes it. *)
Definition active_faces (o : orientation) (rm : RegularizationMesh)
  : option (list bool) :=
  match rm_indActive rm with
  | None => None
  | Some mask =>
      Some (map (fun u => Reqb u 1)
                (matvec (transpose (mesh_aveF2CC (rm_mesh rm) o))
                        (mask_to_vec mask)))
  end.

(** The number of active faces along an axis. *)
Definition regmesh_nF (o : orientation) (rm : RegularizationMesh) : nat :=
  match active_faces o rm with
  | None => nF (rm_mesh rm) o
  | Some faces => count_true faces
  end.

(** The boolean mask among the attributes, if any, and the adapter that
    the base constructor creates for it. *)
Definition bool_mask (a : Attrs) : option (list bool) :=
  match indActive a with
  | Some (BoolArr mask) => Some mask
  | _ => None
  end.

Definition fresh_adapter (mesh : Mesh) (a : Attrs) : RegularizationMesh :=
  {| rm_mesh := mesh; rm_indActive := bool_mask a; rm_vol := None |}.

(** No active set, or a boolean mask with one entry per mesh cell. *)
Definition active_set_ok (mesh : Mesh) (a : Attrs) : Prop :=
  match indActive a with
  | None => True
  | Some (BoolArr mask) => length mask = nC mesh
  | Some (IntArr _) => False
  end.

(** The attributes that the base constructor passes on unchanged. *)
Definition keeps_settings (a b : Attrs) : Prop :=
  mref b = mref a
  /\ mrefInSmooth b = mrefInSmooth a
  /\ cell_weights b = cell_weights a
  /\ model b = model a
  /\ gamma b = gamma a
  /\ eps_p b = eps_p a
  /\ eps_q b = eps_q a
  /\ norm b = norm a
  /\ norms b = norms a.

(** The mapping of a term built on a mesh: the one given, else the
    identity mapping sized to the active cells. *)
Definition mapping_on_mesh (mesh : Mesh) (a : Attrs) : Mapping :=
  match mapping a with
  | Some mp => mp
  | None => IdentityMap (Some (regmesh_nC (fresh_adapter mesh a)))
  end.

(** The volumes of the active cells: [mesh.vol[indActive]], or [mesh.vol]
    without a mask. *)
Definition reduced_vol (rm : RegularizationMesh) : vec :=
  match rm_indActive rm with
  | None => mesh_vol (rm_mesh rm)
  | Some mask => select mask (mesh_vol (rm_mesh rm))
  end.

(** The adapter once [vol] is cached at a reference. *)
Definition with_vol (rm : RegularizationMesh) (r : ref) : RegularizationMesh :=
  {| rm_mesh := rm_mesh rm; rm_indActive := rm_indActive rm;
     rm_vol := Some r |}.

(** * Properties *)

(** ** Vectors and matrices *)

Section LinearAlgebra.

Lemma dot_sumsq (r : vec) : dot r r = sumsq r.
Proof. induction r as [|u r IH]; simpl; [reflexivity | now rewrite IH]. Qed.

Lemma map2_minus_zeros (m : vec) : map2 Rminus m (zeros (length m)) = m.
Proof.
  induction m as [|u m IH]; simpl; [reflexivity|].
  unfold zeros in IH. rewrite IH. f_equal. lra.
Qed.

Lemma dot_zeros (n : nat) (v : vec) : dot (zeros n) v = 0.
Proof.
  revert v. induction n as [|n IH]; intros [|w v]; simpl; try reflexivity.
  unfold zeros in IH. rewrite IH. lra.
Qed.

Lemma dot_vscale (k : R) (a v : vec) : dot (vscale k a) v = k * dot a v.
Proof.
  revert v. induction a as [|u a IH]; intros [|w v]; simpl; try lra.
  unfold vscale in IH. rewrite IH. lra.
Qed.

Lemma dot_vadd (a b v : vec) :
  length a = length b -> dot (vadd a b) v = dot a v + dot b v.
Proof.
  revert b v. induction a as [|u a IH]; intros [|w b] v Hlen;
    simpl in *; try discriminate; [lra|].
  destruct v as [|t v]; simpl; [lra|].
  unfold vadd in IH. rewrite IH by lia. lra.
Qed.

Lemma length_map2 (f : R -> R -> R) (a b : vec) :
  length a = length b -> length (map2 f a b) = length a.
Proof.
  revert b. induction a as [|u a IH]; intros [|w b] H; simpl in *;
    try discriminate; [reflexivity|]. now rewrite IH by lia.
Qed.

Lemma length_zeros (n : nat) : length (zeros n) = n.
Proof. apply repeat_length. Qed.

Lemma length_lincomb (r : vec) (rs : list vec) (n : nat) :
  Forall (fun row => length row = n) rs -> length (lincomb r rs n) = n.
Proof.
  intros Hwf. revert r. induction Hwf as [|row rs Hrow _ IH]; intros [|u r];
    simpl; try apply length_zeros.
  unfold vadd. rewrite length_map2; unfold vscale; rewrite length_map;
    [assumption | now rewrite IH].
Qed.

Lemma dot_lincomb (r : vec) (rs : list vec) (n : nat) (v : vec) :
  Forall (fun row => length row = n) rs ->
  dot (lincomb r rs n) v = dot r (map (fun row => dot row v) rs).
Proof.
  intros Hwf. revert r. induction Hwf as [|row rs Hrow Hrs IH]; intros [|u r];
    simpl; try apply dot_zeros.
  rewrite dot_vadd, dot_vscale, IH; [reflexivity|].
  unfold vscale. now rewrite length_map, length_lincomb.
Qed.

(** The product of matrices acts as the composition of their actions. *)
Lemma matvec_mmul (A B : matrix) (v : vec) :
  wf_matrix B -> matvec (mmul A B) v = matvec A (matvec B v).
Proof.
  intros HB. unfold matvec, mmul. simpl. rewrite map_map.
  apply map_ext. intros r. now apply dot_lincomb.
Qed.

Lemma wf_transpose (M : matrix) : wf_matrix (transpose M).
Proof.
  unfold wf_matrix, transpose. simpl. apply Forall_forall.
  intros r Hr. apply in_map_iff in Hr. destruct Hr as [j [<- _]].
  now rewrite length_map.
Qed.

Lemma nrows_transpose (M : matrix) : nrows (transpose M) = ncols M.
Proof. unfold nrows, transpose. simpl. now rewrite length_map, length_seq. Qed.

Lemma nrows_mmul (A B : matrix) : nrows (mmul A B) = nrows A.
Proof. unfold nrows, mmul. simpl. now rewrite length_map. Qed.

Lemma length_matvec (M : matrix) (v : vec) : length (matvec M v) = nrows M.
Proof. unfold matvec, nrows. now rewrite length_map. Qed.

Lemma dot_indicator (i s : nat) (v : vec) :
  dot (map (fun j => if Nat.eqb i j then 1 else 0) (seq s (length v))) v
  = if (s <=? i)%nat then nth (i - s) v 0 else 0.
Proof.
  revert s. induction v as [|w v IH]; intros s; simpl.
  - destruct (s <=? i)%nat, (i - s)%nat; reflexivity.
  - rewrite IH.
    destruct (Nat.eqb_spec i s) as [->|Hne].
    + rewrite Nat.sub_diag, Nat.leb_refl.
      replace (S s <=? s)%nat with false by (symmetry; apply Nat.leb_gt; lia).
      lra.
    + destruct (Nat.leb_spec s i) as [Hle|Hgt].
      * replace (S s <=? i)%nat with true by (symmetry; apply Nat.leb_le; lia).
        replace (i - s)%nat with (S (i - S s)) by lia. lra.
      * replace (S s <=? i)%nat with false by (symmetry; apply Nat.leb_gt; lia).
        lra.
Qed.

Lemma map_nth_seq (v : vec) : map (fun i => nth i v 0) (seq 0 (length v)) = v.
Proof.
  induction v as [|w v IH]; simpl; [reflexivity|].
  rewrite <- seq_shift, map_map. simpl. now rewrite IH.
Qed.

(** The identity matrix acts as the identity on vectors of its size. *)
Lemma matvec_speye (v : vec) : matvec (speye (length v)) v = v.
Proof.
  unfold matvec, speye. simpl. rewrite map_map.
  transitivity (map (fun i => nth i v 0) (seq 0 (length v)));
    [|apply map_nth_seq].
  apply map_ext. intros i. rewrite dot_indicator. simpl.
  now rewrite Nat.sub_0_r.
Qed.

End LinearAlgebra.

(** ** The base class: value and Hessian *)

Section Evaluation.

Variable obj : Reg.

Lemma get_mapping_Some (mp : Mapping) :
  mapping (reg_attrs obj) = Some mp -> get_mapping obj = Ok mp.
Proof. unfold get_mapping. now intros ->. Qed.

Lemma sub_mref_dense (m : vec) :
  match mref (reg_attrs obj) with
  | Zero => True
  | Arr v => length v = length m
  end ->
  sub_mref m (mref (reg_attrs obj))
  = Ok (map2 Rminus m (mref_dense (length m) (mref (reg_attrs obj)))).
Proof.
  destruct (mref (reg_attrs obj)) as [|v]; simpl; intros H.
  - now rewrite map2_minus_zeros.
  - unfold elementwise. now rewrite H, Nat.eqb_refl.
Qed.

Lemma op_vec_dense (u : vec) :
  match reg_W obj with
  | Identity => True
  | Mat M => ncols M = length u
  end ->
  op_vec (reg_W obj) u = Ok (matvec (W_dense (length u) (reg_W obj)) u).
Proof.
  destruct (reg_W obj) as [|M]; simpl; intros H.
  - now rewrite matvec_speye.
  - unfold mat_vec. now rewrite H, Nat.eqb_refl.
Qed.

End Evaluation.

(** Claim C1.  For a penalty term with weighting operator [W], mapping and
    reference model, [value(m)] is [0.5 * r.r] with
    [r = W . mapping.apply(m - m_ref)]: the code's [_eval], which works with
    the structural zero and the structural identity, returns the value that
    the specification's formula gives on the dense reference vector and the
    dense operator, whenever the shapes agree.  In particular a [Smallness]
    term on a 1-D mesh of five cells, with unit cell weights (passed as a
    keyword argument, or set on the class) and no reference model, has
    value 27.5 at [m = [1;2;3;4;5]]. *)
Theorem eval_is_half_squared_residual :
  (forall (obj : Reg) (mp : Mapping) (f : vec -> vec) (m : vec),
      mapping (reg_attrs obj) = Some mp ->
      (forall u, map_apply mp u = Ok (f u)) ->
      match mref (reg_attrs obj) with
      | Zero => True
      | Arr v => length v = length m
      end ->
      let m_ref := mref_dense (length m) (mref (reg_attrs obj)) in
      let k := length (f (map2 Rminus m m_ref)) in
      match reg_W obj with
      | Identity => True
      | Mat M => ncols M = k
      end ->
      BaseRegularization_eval obj m
      = Ok (spec_value (W_dense k (reg_W obj)) f m_ref m))
  /\ (exists obj,
        Smallness_init Smallness_cls (Some (mesh1d 5))
                       [kw_cell_weights (ones 5)] = Ok obj
        /\ reg_nP obj = Some 5%nat
        /\ BaseRegularization_eval obj [1; 2; 3; 4; 5] = Ok 27.5)
  /\ (exists obj,
        Smallness_init (setattr Smallness_cls (kw_cell_weights (ones 5)))
                       (Some (mesh1d 5)) [] = Ok obj
        /\ reg_nP obj = Some 5%nat
        /\ reg_W obj = Mat (sdiag (ones 5))
        /\ BaseRegularization_eval obj [1; 2; 3; 4; 5] = Ok 27.5).
Proof.
  split.
  - intros obj mp f m Hmp Hf Hmref m_ref k HW.
    unfold BaseRegularization_eval.
    rewrite sub_mref_dense by assumption. simpl.
    rewrite (get_mapping_Some _ Hmp). simpl.
    rewrite Hf. simpl.
    rewrite op_vec_dense by assumption. simpl.
    unfold spec_value. now rewrite dot_sumsq.
  - split.
    + eexists. split; [reflexivity|]. split; [reflexivity|].
      cbn. f_equal. lra.
    + eexists. split; [reflexivity|]. split; [reflexivity|].
      split; [reflexivity|]. cbn. f_equal. lra.
Qed.

(** The general statement of C1 at a term with a diagonal weighting matrix,
    an array reference model and the identity mapping. *)
Lemma eval_is_half_squared_residual_witness :
  exists obj,
    Smallness_init (setattr Smallness_cls (kw_cell_weights [2; 3])) None
                   [kw_mref (Arr [1; 1])] = Ok obj
    /\ BaseRegularization_eval obj [4; 5]
       = Ok (spec_value (sdiag [2; 3]) (fun u => u) [1; 1] [4; 5]).
Proof.
  eexists. split; [cbn; reflexivity|].
  match goal with
  | |- BaseRegularization_eval ?o ?m = _ =>
      exact (proj1 eval_is_half_squared_residual o (IdentityMap None)
                   (fun u => u) m eq_refl (fun _ => eq_refl)
                   eq_refl eq_refl)
  end.
Defined.

Section Hessian.

Lemma ncols_speye (n : nat) : ncols (speye n) = n.
Proof. reflexivity. Qed.

Lemma nrows_speye (n : nat) : nrows (speye n) = n.
Proof. unfold nrows, speye. simpl. now rewrite length_map, length_seq. Qed.

Lemma nrows_sdiag (v : vec) : nrows (sdiag v) = length v.
Proof.
  unfold nrows, sdiag. simpl.
  rewrite length_map, length_combine, length_seq. apply Nat.min_id.
Qed.

Lemma ncols_transpose (M : matrix) : ncols (transpose M) = nrows M.
Proof. reflexivity. Qed.

Lemma ncols_mmul (A B : matrix) : ncols (mmul A B) = ncols B.
Proof. reflexivity. Qed.

(** [H @ v] against the nested products, for matrices [D] (the derivative
    of the mapping) and [Wm] (the weighting operator). *)
Lemma hessian_chain (D Wm : matrix) (v : vec) :
  wf_matrix D -> wf_matrix Wm ->
  matvec (mmul (mmul (mmul (transpose D) (transpose Wm)) Wm) D) v
  = matvec (transpose D) (matvec (transpose Wm) (matvec Wm (matvec D v))).
Proof.
  intros HD HW.
  rewrite matvec_mmul by assumption.
  rewrite matvec_mmul by assumption.
  now rewrite matvec_mmul by apply wf_transpose.
Qed.

End Hessian.

(** Normalise the shapes that occur in the tests of the checked products,
    then decide the next test. *)
Ltac shape_norm :=
  repeat (progress (cbn [bind op_T op_mul op_vec apply_hessian];
                    unfold mat_mul, mat_vec));
  rewrite ?length_matvec, ?nrows_mmul, ?ncols_mmul, ?nrows_transpose,
    ?ncols_transpose;
  cbn [bind].

Ltac shape_step :=
  shape_norm;
  match goal with
  | |- context [Nat.eqb ?a ?b] => destruct (Nat.eqb_spec a b)
  end.

(** Claim C2.  For every penalty term, model [m] and vector [v], applying
    the full Gauss-Newton Hessian returned by [deriv2(m)] to [v] gives the
    result of [deriv2(m, v)]: the same vector when the shapes agree, and the
    same exception when they do not.  The operators are matrices whose rows
    have their declared width. *)
Theorem deriv2_matrix_agrees_with_product :
  forall (obj : Reg) (m v : vec),
    wf_linop (reg_W obj) ->
    (forall mp d D,
        mapping (reg_attrs obj) = Some mp ->
        map_deriv mp d = Ok D -> wf_linop D) ->
    (do H <- BaseRegularization_deriv2 obj m None; apply_hessian H v)
    = BaseRegularization_deriv2 obj m (Some v).
Proof.
  intros obj m v HW Hderiv.
  unfold BaseRegularization_deriv2.
  destruct (sub_mref m (mref (reg_attrs obj))) as [d|e]; [simpl|reflexivity].
  unfold get_mapping.
  destruct (mapping (reg_attrs obj)) as [mp|] eqn:Hmp; [simpl|reflexivity].
  destruct (map_deriv mp d) as [mD|e] eqn:HmD; [simpl|reflexivity].
  specialize (Hderiv mp d mD eq_refl HmD).
  destruct mD as [|D], (reg_W obj) as [|Wm];
    cbn [wf_linop] in *;
    repeat shape_step; shape_norm; try reflexivity; try congruence.
  - now rewrite matvec_mmul.
  - now rewrite matvec_mmul.
  - now rewrite hessian_chain.
Qed.

(** C2 on a term with a 2-by-2 weighting matrix and the identity mapping:
    both forms return the same vector. *)
Lemma deriv2_matrix_agrees_with_product_witness :
  exists obj u,
    BaseRegularization_init BaseRegularization_cls None (Some 2%nat)
      [kw_W (Mat {| rows := [[1; 2]; [0; 3]]; ncols := 2 |})] = Ok obj
    /\ BaseRegularization_deriv2 obj [1; 1] (Some [1; -1]) = Ok (inr u)
    /\ (do H <- BaseRegularization_deriv2 obj [1; 1] None;
        apply_hessian H [1; -1]) = Ok (inr u).
Proof.
  eexists. eexists. split; [cbn; reflexivity|].
  split; [cbn; reflexivity|].
  match goal with
  | |- (do H <- BaseRegularization_deriv2 ?o ?m None; apply_hessian H ?v) = _ =>
      rewrite (deriv2_matrix_agrees_with_product o m v)
  end.
  - cbn. reflexivity.
  - simpl. repeat constructor.
  - intros mp d D Hmp. injection Hmp as <-. simpl. intros HD.
    injection HD as <-. repeat constructor.
Defined.

(** ** The base constructor *)

Section BaseConstructor.

Lemma setattr_W (a : Attrs) (w : linop) : setattr a (kw_W w) = a.
Proof. now destruct a. Qed.

Lemma setKwargs_W (cls : Attrs) (w : linop) (kw : list kwarg) :
  setKwargs cls (kw_W w :: kw) = setKwargs cls kw.
Proof. unfold setKwargs. simpl. now rewrite setattr_W. Qed.

Lemma length_set_nth_true (a : list bool) (k : nat) :
  length (set_nth_true a k) = length a.
Proof.
  revert k. induction a as [|b a IH]; intros [|k]; simpl; auto.
Qed.

Lemma nth_set_nth_true (a : list bool) (k j : nat) :
  (k < length a)%nat ->
  nth j (set_nth_true a k) false = true
  <-> (j = k \/ nth j a false = true).
Proof.
  revert k j. induction a as [|b a IH]; intros k j Hk; simpl in *; [lia|].
  destruct k as [|k], j as [|j]; simpl.
  - tauto.
  - split; [tauto | intros [H|H]; [discriminate | assumption]].
  - split; [tauto | intros [H|H]; [discriminate | assumption]].
  - rewrite IH by lia. split; intros [H|H]; auto; left; lia.
Qed.

Lemma normalize_index_ok (n : nat) (i : Z) :
  index_in_range n i ->
  exists k, normalize_index n i = Ok k /\ (k < n)%nat
            /\ (Z.of_nat k = i \/ (Z.of_nat k - Z.of_nat n)%Z = i).
Proof.
  unfold index_in_range, normalize_index. intros [Hlo Hhi].
  destruct (Z.leb_spec 0 i) as [Hpos|Hneg]; simpl.
  - destruct (Z.ltb_spec i (Z.of_nat n)) as [_|Hge]; [|lia].
    exists (Z.to_nat i). split; [reflexivity|]. split; lia.
  - destruct (Z.leb_spec (- Z.of_nat n) i) as [_|Hlt]; [|lia].
    destruct (Z.ltb_spec i 0) as [_|Hge]; [|lia]. simpl.
    exists (Z.to_nat (i + Z.of_nat n)). split; [reflexivity|]. split; lia.
Qed.

(** The fancy-index assignment succeeds on valid indices, keeps the length,
    and sets exactly the listed positions, an index [i - n] naming the
    position [i]. *)
Lemma assign_true_ok (idx : list Z) :
  forall a : list bool,
    Forall (index_in_range (length a)) idx ->
    exists mask,
      assign_true a idx = Ok mask
      /\ length mask = length a
      /\ forall j, (j < length a)%nat ->
           (nth j mask false = true
            <-> (nth j a false = true
                 \/ In (Z.of_nat j) idx
                 \/ In (Z.of_nat j - Z.of_nat (length a))%Z idx)).
Proof.
  induction idx as [|i idx IH]; intros a Hall; simpl.
  - exists a. split; [reflexivity|]. split; [reflexivity|].
    intros j _. tauto.
  - inversion Hall as [|? ? Hi Hrest]; subst.
    destruct (normalize_index_ok Hi) as [k [-> [Hk Hki]]]. simpl.
    destruct (IH (set_nth_true a k)) as [mask [Hrun [Hlen Hspec]]].
    { now rewrite length_set_nth_true. }
    exists mask. split; [assumption|].
    rewrite length_set_nth_true in *. split; [assumption|].
    intros j Hj. rewrite (Hspec j Hj), nth_set_nth_true by assumption.
    split.
    + intros [[->|H]|[H|H]]; auto.
      destruct Hki as [<-|<-]; auto.
    + intros [H|[[->|H]|[->|H]]]; auto.
      * destruct Hki as [Hki|Hki]; [|lia].
        left; left. lia.
      * destruct Hki as [Hki|Hki]; [lia|].
        left; left. lia.
Qed.

End BaseConstructor.

Section BaseConstructorResults.

Variables (cls : Attrs) (kw : list kwarg).

(** Without an explicit [nP] the base constructor succeeds on every
    well-formed active set and stores the operator it was given. *)
Lemma BaseRegularization_init_succeeds (mesh : option Mesh) :
  indActive_ok mesh (setKwargs cls kw) ->
  exists obj,
    BaseRegularization_init cls mesh None kw = Ok obj
    /\ reg_W obj = match find_W kw with Some w => w | None => Identity end.
Proof.
  unfold indActive_ok, BaseRegularization_init, L2ObjectiveFunction_init.
  generalize (setKwargs cls kw) as a0. intros a0 Hok.
  destruct a0 as [mp mr ia cw mis als alx aly alz ep eq md ga nm nms ori].
  simpl in *.
  destruct ia as [[mask|idx]|]; simpl.
  - destruct mp, mesh; simpl; eexists; split; reflexivity.
  - destruct Hok as [ms [-> Hall]].
    destruct (@assign_true_ok idx (repeat false (nC ms)))
      as [mask [-> _]]; [now rewrite repeat_length|]. simpl.
    destruct mp; simpl; eexists; split; reflexivity.
  - destruct mp, mesh; simpl; eexists; split; reflexivity.
Qed.

End BaseConstructorResults.

(** The ranks of [nP] when no conflicting [nP] is passed: construction
    succeeds and [nP] is the mapping's parameter count if there is a mapping
    (given, or the identity mapping substituted for an active-cell mask),
    else the adapter's active-cell count if there is a mesh, else the
    explicitly passed [nP]. *)
Lemma nP_precedence :
  forall (cls : Attrs) (mesh : option Mesh) (nP : option nat)
         (kw : list kwarg),
    let a0 := setKwargs cls kw in
    match indActive a0 with Some (IntArr _) => False | _ => True end ->
    nP = None \/ (mapping a0 = None /\ indActive a0 = None /\ mesh = None) ->
    exists obj,
      BaseRegularization_init cls mesh nP kw = Ok obj
      /\ reg_nP obj = derived_nP a0 mesh nP.
Proof.
  intros cls mesh nP kw a0.
  unfold BaseRegularization_init, L2ObjectiveFunction_init, derived_nP.
  fold a0. clearbody a0.
  destruct a0 as [mp mr ia cw mis als alx aly alz ep eq md ga nm nms ori].
  simpl. intros Hind Hnp.
  destruct ia as [[mask|idx]|]; [| contradiction |];
    destruct mp, mesh, nP; simpl;
    try (eexists; split; reflexivity);
    destruct Hnp as [Hnp|[H1 [H2 H3]]]; discriminate.
Qed.

(** The three ranks of [nP_precedence]: a mapping with seven parameters on
    a three-cell mesh gives 7; the mesh alone gives 3; an explicit 5 with
    neither gives 5. *)
Lemma nP_precedence_examples :
  (exists obj,
      BaseRegularization_init BaseRegularization_cls (Some (mesh1d 3)) None
        [kw_mapping (IdentityMap (Some 7%nat))] = Ok obj
      /\ reg_nP obj = Some 7%nat)
  /\ (exists obj,
         BaseRegularization_init BaseRegularization_cls (Some (mesh1d 3))
           None [] = Ok obj
         /\ reg_nP obj = Some 3%nat)
  /\ (exists obj,
         BaseRegularization_init BaseRegularization_cls None (Some 5%nat) []
         = Ok obj
         /\ reg_nP obj = Some 5%nat).
Proof.
  split; [|split].
  - exact (@nP_precedence BaseRegularization_cls (Some (mesh1d 3)) None
             [kw_mapping (IdentityMap (Some 7%nat))] I (or_introl eq_refl)).
  - exact (@nP_precedence BaseRegularization_cls (Some (mesh1d 3)) None
             [] I (or_introl eq_refl)).
  - exact (@nP_precedence BaseRegularization_cls None (Some 5%nat) [] I
             (or_intror (conj eq_refl (conj eq_refl eq_refl)))).
Qed.

(** Claim C5.  The claim has a conflicting explicit [nP] surface a
    non-fatal warning, construction succeeding with the derived value.  The
    constructor does attempt the warning, but [warnings] is the module and
    calling it raises: with the mapping alone construction succeeds with the
    mapping's count 7, and with [nP = 5] next to that mapping, or next to a
    three-cell mesh, it raises [TypeError]. *)
Theorem conflicting_nP_raises_instead_of_warning :
  (exists obj,
      BaseRegularization_init BaseRegularization_cls None None
        [kw_mapping (IdentityMap (Some 7%nat))] = Ok obj
      /\ reg_nP obj = Some 7%nat)
  /\ BaseRegularization_init BaseRegularization_cls None (Some 5%nat)
       [kw_mapping (IdentityMap (Some 7%nat))] = Raise TypeError
  /\ (exists obj,
         BaseRegularization_init BaseRegularization_cls (Some (mesh1d 3))
           None [] = Ok obj
         /\ reg_nP obj = Some 3%nat)
  /\ BaseRegularization_init BaseRegularization_cls (Some (mesh1d 3))
       (Some 5%nat) [] = Raise TypeError.
Proof.
  split; [eexists; split; reflexivity|].
  split; [reflexivity|].
  split; [eexists; split; reflexivity|].
  reflexivity.
Qed.

(** What the base constructor does to the cell weights: nothing. *)
Lemma BaseRegularization_init_cell_weights (cls : Attrs)
  (mesh : option Mesh) (nP : option nat) (kw : list kwarg) (obj : Reg) :
  BaseRegularization_init cls mesh nP kw = Ok obj ->
  cell_weights (reg_attrs obj) = cell_weights (setKwargs cls kw).
Proof.
  unfold BaseRegularization_init, L2ObjectiveFunction_init.
  generalize (setKwargs cls kw) as a0. intros a0.
  destruct a0 as [mp mr ia cw mis als alx aly alz ep eq md ga nm nms ori].
  simpl.
  destruct ia as [[mask|idx]|]; simpl.
  - destruct mp, mesh, nP; simpl; intros H; try discriminate;
      injection H as <-; reflexivity.
  - destruct mesh as [ms|]; simpl; [|discriminate].
    destruct (assign_true (repeat false (nC ms)) idx); simpl; [|discriminate].
    destruct mp, nP; simpl; intros H; try discriminate;
      injection H as <-; reflexivity.
  - destruct mp, mesh, nP; simpl; intros H; try discriminate;
      injection H as <-; reflexivity.
Qed.

(** Claim C6, amended.  The claim has [W = diag(sqrt(cellWeights))]; the
    code takes no square root.  What holds: a [Smallness] term whose cell
    weights are those of its class (the keyword arguments carry no other
    weights, and no [W]) has [W = diag(cell_weights)], the diagonal matrix
    of the weights themselves, and [W] is the identity when there are no
    weights. *)
Theorem Smallness_W_is_diag_of_cell_weights :
  forall (cls : Attrs) (mesh : option Mesh) (kw : list kwarg),
    indActive_ok mesh (setKwargs cls kw) ->
    find_W kw = None ->
    cell_weights (setKwargs cls kw) = cell_weights cls ->
    exists obj,
      Smallness_init cls mesh kw = Ok obj
      /\ cell_weights (reg_attrs obj) = cell_weights cls
      /\ reg_W obj = match cell_weights (reg_attrs obj) with
                     | Some cw => Mat (sdiag cw)
                     | None => Identity
                     end.
Proof.
  intros cls mesh kw Hok HnoW Hcw. unfold Smallness_init. rewrite HnoW.
  destruct (@BaseRegularization_init_succeeds cls
              (kw_W match cell_weights cls with
                    | Some cw => Mat (sdiag cw)
                    | None => Identity
                    end :: kw) mesh) as [obj [Hrun HW]].
  - now rewrite setKwargs_W.
  - exists obj. split; [exact Hrun|].
    apply BaseRegularization_init_cell_weights in Hrun.
    rewrite setKwargs_W, Hcw in Hrun.
    split; [exact Hrun|]. rewrite Hrun. exact HW.
Qed.

Lemma Smallness_W_is_diag_of_cell_weights_witness :
  (exists obj,
      Smallness_init (setattr Smallness_cls (kw_cell_weights [4; 9]))
                     (Some (mesh1d 2)) [] = Ok obj
      /\ reg_W obj = Mat (sdiag [4; 9]))
  /\ (exists obj,
         Smallness_init Smallness_cls (Some (mesh1d 2)) [] = Ok obj
         /\ reg_W obj = Identity).
Proof.
  split.
  - destruct (@Smallness_W_is_diag_of_cell_weights
                (setattr Smallness_cls (kw_cell_weights [4; 9]))
                (Some (mesh1d 2)) [] I eq_refl eq_refl)
      as [obj [Hrun [Hcw HW]]].
    exists obj. split; [exact Hrun|]. rewrite HW, Hcw. reflexivity.
  - destruct (@Smallness_W_is_diag_of_cell_weights Smallness_cls
                (Some (mesh1d 2)) [] I eq_refl eq_refl)
      as [obj [Hrun [Hcw HW]]].
    exists obj. split; [exact Hrun|]. rewrite HW, Hcw. reflexivity.
Defined.

(** Claim C6 as stated fails: with cell weights [[4]] the operator is
    [diag [4]], not [diag [sqrt 4]]. *)
Lemma Smallness_W_is_not_diag_of_sqrt :
  exists obj,
    Smallness_init (setattr Smallness_cls (kw_cell_weights [4])) None []
    = Ok obj
    /\ reg_W obj = Mat (sdiag [4])
    /\ reg_W obj <> Mat (sdiag (map sqrt [4])).
Proof.
  eexists. split; [reflexivity|]. split; [reflexivity|].
  cbn. intros H. injection H as H.
  assert (Hs : sqrt 4 = 2).
  { replace 4 with (2 * 2) by lra. apply sqrt_square. lra. }
  rewrite Hs in H. lra.
Qed.

(** Cell weights passed as a keyword argument reach the instance only after
    the constructor has chosen [W]: the operator is then the identity. *)
Lemma Smallness_W_keyword_weights :
  exists obj,
    Smallness_init Smallness_cls None [kw_cell_weights [4]] = Ok obj
    /\ cell_weights (reg_attrs obj) = Some [4]
    /\ reg_W obj = Identity.
Proof. eexists. repeat split. Qed.

(** Claim C10.  An integer index array given as the active set does not
    make construction fail: the base constructor turns it into a boolean
    mask as long as the mesh has cells, true exactly at the listed cells (a
    negative index counting from the end, as numpy reads it), and when no
    mapping was given it installs an identity mapping sized to the number
    of active cells.  The indices are valid cell indices of the mesh and no
    explicit [nP] is passed. *)
Theorem integer_indActive_becomes_mask :
  forall (cls : Attrs) (ms : Mesh) (kw : list kwarg) (idx : list Z),
    indActive (setKwargs cls kw) = Some (IntArr idx) ->
    Forall (index_in_range (nC ms)) idx ->
    exists obj mask,
      BaseRegularization_init cls (Some ms) None kw = Ok obj
      /\ indActive (reg_attrs obj) = Some (BoolArr mask)
      /\ (exists rm, reg_regmesh obj = Some rm
                     /\ rm_indActive rm = Some mask)
      /\ length mask = nC ms
      /\ (forall j, (j < nC ms)%nat ->
            (nth j mask false = true
             <-> (In (Z.of_nat j) idx
                  \/ In (Z.of_nat j - Z.of_nat (nC ms))%Z idx)))
      /\ (mapping (setKwargs cls kw) = None ->
          mapping (reg_attrs obj)
          = Some (IdentityMap (Some (count_true mask)))
          /\ reg_nP obj = Some (count_true mask)).
Proof.
  intros cls ms kw idx.
  unfold BaseRegularization_init, L2ObjectiveFunction_init.
  generalize (setKwargs cls kw) as a0. intros a0 Hia Hall.
  destruct a0 as [mp mr ia cw mis als alx aly alz ep eq md ga nm nms ori].
  simpl in *. subst ia. simpl.
  destruct (@assign_true_ok idx (repeat false (nC ms)))
    as [mask [-> [Hlen Hspec]]]; [now rewrite repeat_length|].
  rewrite repeat_length in Hlen, Hspec. simpl.
  assert (Hmask : forall j, (j < nC ms)%nat ->
            (nth j mask false = true
             <-> (In (Z.of_nat j) idx
                  \/ In (Z.of_nat j - Z.of_nat (nC ms))%Z idx))).
  { intros j Hj. rewrite (Hspec j Hj), nth_repeat. intuition discriminate. }
  destruct mp as [mp|]; simpl; eexists; exists mask;
    (split; [reflexivity|]); (split; [reflexivity|]);
    (split; [eexists; split; reflexivity|]);
    (split; [assumption|]); (split; [assumption|]).
  - discriminate.
  - intros _. split; reflexivity.
Qed.

(** C10 on a four-cell mesh with the cells 0, 3 and -3 (that is, 1). *)
Lemma integer_indActive_becomes_mask_witness :
  exists obj mask,
    BaseRegularization_init BaseRegularization_cls (Some (mesh1d 4)) None
      [kw_indActive (IntArr [0; 3; -3]%Z)] = Ok obj
    /\ indActive (reg_attrs obj) = Some (BoolArr mask)
    /\ (forall j, (j < 4)%nat ->
          (nth j mask false = true
           <-> (In (Z.of_nat j) [0; 3; -3]%Z
                \/ In (Z.of_nat j - 4)%Z [0; 3; -3]%Z)))
    /\ mapping (reg_attrs obj) = Some (IdentityMap (Some (count_true mask))).
Proof.
  assert (Hrange : Forall (index_in_range (nC (mesh1d 4))) [0; 3; -3]%Z).
  { repeat constructor; unfold index_in_range; simpl; lia. }
  destruct (@integer_indActive_becomes_mask BaseRegularization_cls
              (mesh1d 4) [kw_indActive (IntArr [0; 3; -3]%Z)] _
              eq_refl Hrange)
    as [obj [mask [Hrun [Hia [_ [_ [Hmask Hmap]]]]]]].
  exists obj, mask. repeat split; try assumption.
  - apply Hmask. assumption.
  - apply Hmask. assumption.
  - apply Hmap. reflexivity.
Defined.

(** The mask of the example above, computed. *)
Lemma integer_indActive_example :
  exists obj,
    BaseRegularization_init BaseRegularization_cls (Some (mesh1d 4)) None
      [kw_indActive (IntArr [0; 3; -3]%Z)] = Ok obj
    /\ indActive (reg_attrs obj) = Some (BoolArr [true; true; false; true])
    /\ reg_nP obj = Some 3%nat.
Proof. eexists. repeat split. Qed.

(** An index outside the mesh makes the conversion raise. *)
Lemma integer_indActive_out_of_range :
  BaseRegularization_init BaseRegularization_cls (Some (mesh1d 4)) None
    [kw_indActive (IntArr [4]%Z)] = Raise IndexError.
Proof. reflexivity. Qed.

(** ** Dimensionality *)

(** Claim C8.  Every y-axis term fails at construction with the assertion
    on the dimensionality when the mesh has one dimension, and every z-axis
    term fails likewise when the mesh has at most two. *)
Theorem axis_terms_need_dimension :
  forall (cls : Attrs) (mesh : Mesh) (kw : list kwarg) (st : Store),
    ((dim mesh <= 1)%nat ->
     SimpleSmooth_y_init cls mesh kw = Raise AssertionError
     /\ Smooth_y_init cls mesh kw st = Raise AssertionError
     /\ Smooth_yy_init cls mesh kw st = Raise AssertionError
     /\ Sparse_y_init cls mesh kw = Raise AssertionError)
    /\ ((dim mesh <= 2)%nat ->
        SimpleSmooth_z_init cls mesh kw = Raise AssertionError
        /\ Smooth_z_init cls mesh kw st = Raise AssertionError
        /\ Smooth_zz_init cls mesh kw st = Raise AssertionError
        /\ Sparse_z_init cls mesh kw = Raise AssertionError).
Proof.
  intros cls mesh kw st. split; intros Hdim.
  - assert (E : (1 <? dim mesh)%nat = false) by (apply Nat.ltb_ge; lia).
    unfold SimpleSmooth_y_init, Smooth_y_init, Smooth_yy_init, Sparse_y_init.
    rewrite E. repeat split.
  - assert (E : (2 <? dim mesh)%nat = false) by (apply Nat.ltb_ge; lia).
    unfold SimpleSmooth_z_init, Smooth_z_init, Smooth_zz_init, Sparse_z_init.
    rewrite E. repeat split.
Qed.

(** C8 on the 1-D mesh of three cells. *)
Lemma axis_terms_need_dimension_witness :
  (SimpleSmooth_y_init SimpleSmooth_cls (mesh1d 3) [] = Raise AssertionError
   /\ Smooth_y_init SimpleSmooth_cls (mesh1d 3) [] [] = Raise AssertionError
   /\ Smooth_yy_init SimpleSmooth_cls (mesh1d 3) [] [] = Raise AssertionError
   /\ Sparse_y_init SimpleSmooth_cls (mesh1d 3) [] = Raise AssertionError)
  /\ (SimpleSmooth_z_init SimpleSmooth_cls (mesh1d 3) []
      = Raise AssertionError
      /\ Smooth_z_init SimpleSmooth_cls (mesh1d 3) [] []
         = Raise AssertionError
      /\ Smooth_zz_init SimpleSmooth_cls (mesh1d 3) [] []
         = Raise AssertionError
      /\ Sparse_z_init SimpleSmooth_cls (mesh1d 3) []
         = Raise AssertionError).
Proof.
  destruct (@axis_terms_need_dimension SimpleSmooth_cls (mesh1d 3) [] [])
    as [Hy Hz].
  split; [apply Hy | apply Hz]; simpl; lia.
Defined.

(** ** The composite of class Simple *)

(** The instance that [Simple] returns is the one its base constructor
    initialised: the composite stays in the local name. *)
Lemma Simple_init_is_base_init (cls : Attrs) (mesh : Mesh) (kw : list kwarg)
  (inst : Reg) :
  Simple_init cls mesh kw = Ok inst ->
  BaseRegularization_init cls (Some mesh) None kw = Ok inst.
Proof.
  unfold Simple_init, Simple_init_locals.
  destruct (BaseRegularization_init cls (Some mesh) None kw) as [i|e];
    simpl; [|discriminate].
  destruct (Smallness_init Smallness_cls (Some mesh) kw); simpl;
    [|discriminate].
  destruct (SimpleSmooth_x_init SimpleSmooth_cls mesh kw); simpl;
    [|discriminate].
  destruct (1 <? dim mesh)%nat; simpl; [discriminate|].
  destruct (2 <? dim mesh)%nat; simpl; [discriminate|].
  intros H. now injection H as <-.
Qed.

(** Claim C3 fails on the code.  On the 1-D mesh of two unit cells with the
    default multipliers [alpha_s = alpha_x = 1] and [m = [1; 2]], the
    smallness term has value 2.5 and the x-smoothness term 0.5, so the
    weighted sum is 3 (the value of the composite held by the local name);
    the constructed [Simple] object has value 2.5. *)
Theorem Simple_value_is_not_weighted_sum :
  exists inst self s sx,
    Simple_init_locals Simple_cls (mesh1d 2) [] = Ok (inst, self)
    /\ Simple_init Simple_cls (mesh1d 2) [] = Ok inst
    /\ Smallness_init Smallness_cls (Some (mesh1d 2)) [] = Ok s
    /\ SimpleSmooth_x_init SimpleSmooth_cls (mesh1d 2) [] = Ok sx
    /\ alpha_s (reg_attrs inst) = 1 /\ alpha_x (reg_attrs inst) = 1
    /\ BaseRegularization_eval s [1; 2] = Ok 2.5
    /\ BaseRegularization_eval sx [1; 2] = Ok 0.5
    /\ Combo_eval self [1; 2] = Ok 3
    /\ BaseRegularization_eval inst [1; 2] = Ok 2.5
    /\ 2.5 <> 1 * 2.5 + 1 * 0.5.
Proof.
  do 4 eexists.
  split; [cbn; reflexivity|]. split; [cbn; reflexivity|].
  split; [cbn; reflexivity|]. split; [cbn; reflexivity|].
  split; [reflexivity|]. split; [reflexivity|].
  split; [cbn; f_equal; lra|]. split; [cbn; f_equal; lra|].
  split; [cbn; f_equal; lra|]. split; [cbn; f_equal; lra|].
  lra.
Qed.

(** With a multiplier passed to the constructor the gap is plain already
    on the smallness part: [alpha_s = 2] leaves the value at 2.5. *)
Lemma Simple_ignores_alpha_s :
  exists inst,
    Simple_init Simple_cls (mesh1d 2) [kw_alpha_s 2] = Ok inst
    /\ alpha_s (reg_attrs inst) = 2
    /\ BaseRegularization_eval inst [1; 2] = Ok 2.5.
Proof.
  eexists. split; [cbn; reflexivity|]. split; [reflexivity|].
  cbn. f_equal. lra.
Qed.

(** On a mesh of two or three dimensions the constructor reads [alpha_y]
    from the composite and fails. *)
Lemma Simple_init_3d :
  Simple_init Simple_cls mesh3d_1x1x2 [] = Raise AttributeError.
Proof. reflexivity. Qed.

(** ** The cached volume of the adapter *)

(** Claim C9 fails on the code.  On the 1-D mesh of two unit cells the
    adapter's reduced volume is first cached as [[1; 1]]; constructing
    [Smooth_xx] with cell weights [[2; 3]] multiplies the cached array in
    place, and a later read of [vol] on the term's adapter returns
    [[2; 3]]. *)
Theorem Smooth_xx_overwrites_cached_vol :
  exists obj st rm r st0,
    (do rm0 <- RegularizationMesh_init (mesh1d 2) None; vol rm0 [])
    = Ok (r, rm, st0)
    /\ deref st0 r = [1; 1]
    /\ Smooth_xx_init Smooth_cls (mesh1d 2) [kw_cell_weights [2; 3]] []
       = Ok (obj, st)
    /\ reg_regmesh obj = Some rm
    /\ vol rm st = Ok (r, rm, st)
    /\ deref st r = [2; 3].
Proof.
  do 5 eexists.
  split; [cbn; reflexivity|].
  split; [cbn; repeat (f_equal; try lra)|].
  split; [cbn -[fpow]; reflexivity|].
  split; [reflexivity|].
  split; [reflexivity|].
  cbn. repeat (f_equal; try lra).
Qed.

(** The first-derivative term reads the cached volume without writing to
    it. *)
Lemma Smooth_x_keeps_cached_vol :
  exists obj st rm r,
    Smooth_x_init Smooth_cls (mesh1d 2) [] [] = Ok (obj, st)
    /\ reg_regmesh obj = Some rm
    /\ vol rm st = Ok (r, rm, st)
    /\ deref st r = [1; 1].
Proof.
  do 4 eexists.
  split; [cbn -[fpow Rdiv]; reflexivity|].
  split; [reflexivity|].
  split; [reflexivity|].
  cbn. repeat (f_equal; try lra).
Qed.

(** ** Sparse terms *)

Section SparseTerms.

Variables (cls : Attrs) (kw : list kwarg).

(** What the base constructor leaves untouched. *)
Lemma BaseRegularization_init_keeps (mesh : option Mesh) (nP : option nat)
  (obj : Reg) :
  BaseRegularization_init cls mesh nP kw = Ok obj ->
  model (reg_attrs obj) = model (setKwargs cls kw)
  /\ cell_weights (reg_attrs obj) = cell_weights (setKwargs cls kw)
  /\ reg_W obj = match find_W kw with Some w => w | None => Identity end
  /\ reg_Wz obj = None.
Proof.
  unfold BaseRegularization_init, L2ObjectiveFunction_init.
  generalize (setKwargs cls kw) as a0. intros a0.
  destruct a0 as [mp mr ia cw mis als alx aly alz ep eq md ga nm nms ori].
  simpl.
  destruct ia as [[mask|idx]|]; simpl.
  - destruct mp, mesh, nP; simpl; intros H; try discriminate;
      injection H as <-; repeat split.
  - destruct mesh as [ms|]; simpl; [|discriminate].
    destruct (assign_true (repeat false (nC ms)) idx); simpl; [|discriminate].
    destruct mp, nP; simpl; intros H; try discriminate;
      injection H as <-; repeat split.
  - destruct mp, mesh, nP; simpl; intros H; try discriminate;
      injection H as <-; repeat split.
Qed.

Lemma BaseSparse_init_keeps (mesh : Mesh) (obj : Reg) :
  BaseSparse_init cls mesh kw = Ok obj ->
  model (reg_attrs obj) = model (setKwargs cls kw)
  /\ reg_W obj = match find_W kw with Some w => w | None => Identity end
  /\ reg_Wz obj = None.
Proof.
  unfold BaseSparse_init.
  destruct (BaseRegularization_init cls (Some mesh) None kw) as [o|e] eqn:E;
    simpl; [|discriminate].
  destruct (BaseRegularization_init_keeps _ _ E) as [Hm [_ [HW HWz]]].
  destruct (cell_weights (reg_attrs o)) eqn:Ecw.
  - intros H. injection H as <-. repeat split; assumption.
  - unfold get_regmesh. destruct (reg_regmesh o); simpl; [|discriminate].
    intros H. injection H as <-. simpl.
    destruct (reg_attrs o). simpl in *. repeat split; assumption.
Qed.

(** With a model set, [SparseSmallness] never returns an object: every path
    through the branch ends in a missing attribute (or fails earlier). *)
Lemma SparseSmallness_init_with_model_fails (mesh : Mesh) (mdl : vec) :
  model (setKwargs cls kw) = Some mdl ->
  forall obj, SparseSmallness_init cls mesh kw <> Ok obj.
Proof.
  intros Hmodel obj. unfold SparseSmallness_init.
  destruct (BaseSparse_init cls mesh kw) as [o|e] eqn:E; simpl;
    [|discriminate].
  destruct (BaseSparse_init_keeps _ E) as [Hm _].
  rewrite Hmodel in Hm.
  destruct (get_regmesh o); simpl; [|discriminate].
  rewrite Hm.
  destruct (get_mapping o) as [mp|]; simpl; [|discriminate].
  destruct (sub_mref mdl (mref (reg_attrs o))) as [d|]; simpl;
    [|discriminate].
  destruct (map_apply mp d); simpl; [|discriminate].
  destruct (norms (reg_attrs o)) as [[|p ps]|]; simpl; discriminate.
Qed.

(** [Sparse_z] leaves [W] as the base constructor set it and stores its
    operator in [Wz]. *)
Lemma Sparse_z_init_leaves_W (mesh : Mesh) (obj : Reg) :
  Sparse_z_init cls mesh kw = Ok obj ->
  reg_W obj = match find_W kw with Some w => w | None => Identity end
  /\ model (reg_attrs obj) = model (setKwargs cls kw)
  /\ exists Wm, Sparse_axis_operator obj Oz = Ok Wm
                /\ reg_Wz obj = Some (Mat Wm).
Proof.
  unfold Sparse_z_init.
  destruct (assert_ (2 <? dim mesh)%nat); simpl; [|discriminate].
  destruct (BaseSparse_init cls mesh kw) as [o|e] eqn:E; simpl;
    [|discriminate].
  destruct (BaseSparse_init_keeps _ E) as [Hm [HW _]].
  destruct (Sparse_axis_operator o Oz) as [Wm|e] eqn:EW; simpl;
    [|discriminate].
  intros H. injection H as <-. simpl. split; [assumption|].
  split; [assumption|].
  exists Wm. split; [|reflexivity].
  unfold Sparse_axis_operator in *. simpl. exact EW.
Qed.

(** [Sparse_x] and [Sparse_y] store the same operator in [W]. *)
Lemma Sparse_x_init_sets_W (mesh : Mesh) (obj : Reg) :
  Sparse_x_init cls mesh kw = Ok obj ->
  model (reg_attrs obj) = model (setKwargs cls kw)
  /\ exists Wm, Sparse_axis_operator obj Ox = Ok Wm /\ reg_W obj = Mat Wm.
Proof.
  unfold Sparse_x_init.
  destruct (BaseSparse_init cls mesh kw) as [o|e] eqn:E; simpl;
    [|discriminate].
  destruct (BaseSparse_init_keeps _ E) as [Hm _].
  destruct (Sparse_axis_operator o Ox) as [Wm|e] eqn:EW; simpl;
    [|discriminate].
  intros H. injection H as <-. split; [assumption|].
  exists Wm. split; [|reflexivity].
  unfold Sparse_axis_operator in *. simpl. exact EW.
Qed.

Lemma Sparse_y_init_sets_W (mesh : Mesh) (obj : Reg) :
  Sparse_y_init cls mesh kw = Ok obj ->
  model (reg_attrs obj) = model (setKwargs cls kw)
  /\ exists Wm, Sparse_axis_operator obj Oy = Ok Wm /\ reg_W obj = Mat Wm.
Proof.
  unfold Sparse_y_init.
  destruct (assert_ (1 <? dim mesh)%nat); simpl; [|discriminate].
  destruct (BaseSparse_init cls mesh kw) as [o|e] eqn:E; simpl;
    [|discriminate].
  destruct (BaseSparse_init_keeps _ E) as [Hm _].
  destruct (Sparse_axis_operator o Oy) as [Wm|e] eqn:EW; simpl;
    [|discriminate].
  intros H. injection H as <-. split; [assumption|].
  exists Wm. split; [|reflexivity].
  unfold Sparse_axis_operator in *. simpl. exact EW.
Qed.

End SparseTerms.

(** ** The reweighting function and the operators of the sparse terms *)

Section Reweighting.

Lemma fpow_zero (u : R) : fpow u 0 = 1.
Proof. unfold fpow. destruct (Req_dec_T 0 0); [reflexivity | lra]. Qed.

Lemma fpow_two (u : R) : fpow u 2 = u * u.
Proof.
  unfold fpow. destruct (Req_dec_T 2 0); [lra|].
  destruct (Req_dec_T 2 2); [reflexivity | lra].
Qed.

Lemma fpow_half (u : R) : fpow u 0.5 = sqrt u.
Proof.
  unfold fpow. destruct (Req_dec_T 0.5 0); [lra|].
  destruct (Req_dec_T 0.5 2); [lra|].
  destruct (Req_dec_T 0.5 0.5); [reflexivity | lra].
Qed.

Lemma map_fpow_half (v : vec) : map (fun u => fpow u 0.5) v = map sqrt v.
Proof. apply map_ext. intros u. apply fpow_half. Qed.

(** With [norm = 2] every reweighting factor is 1: ordinary least
    squares. *)
Lemma BaseSparse_R_norm_2 (f_m : vec) (eps : R) :
  BaseSparse_R f_m eps 2 = ones (length f_m).
Proof.
  unfold BaseSparse_R, ones.
  replace (1 - 2 / 2) with 0 by lra. replace (0 / 2) with 0 by lra.
  rewrite fpow_zero, fpow_half, sqrt_1.
  induction f_m as [|f f_m IH]; simpl; [reflexivity|].
  rewrite IH, fpow_zero. f_equal. lra.
Qed.

Lemma combine_seq_ones (s n : nat) :
  combine (seq s n) (ones n) = map (fun i => (i, 1)) (seq s n).
Proof.
  revert s. induction n as [|n IH]; intros s; simpl; [reflexivity|].
  unfold ones in IH. now rewrite IH.
Qed.

(** The diagonal matrix of ones is the identity matrix. *)
Lemma sdiag_ones (n : nat) : sdiag (ones n) = speye n.
Proof.
  unfold sdiag, speye, ones. rewrite repeat_length.
  f_equal. fold (ones n). rewrite combine_seq_ones, map_map. reflexivity.
Qed.

(** The operator that the axis constructors compute is the formula of the
    specification, with the reweighting factors of the current model, or
    ones when there is none. *)
Lemma Sparse_axis_operator_formula (obj : Reg) (o : orientation)
  (Wm : matrix) :
  Sparse_axis_operator obj o = Ok Wm ->
  exists rm S ave cw,
    reg_regmesh obj = Some rm
    /\ cellDiffStencil o rm = Ok (Some S)
    /\ aveCC2F o rm = Ok ave
    /\ cell_weights (reg_attrs obj) = Some cw
    /\ match model (reg_attrs obj) with
       | None =>
           Wm = spec_sparse_axis_W (gamma (reg_attrs obj)) (matvec ave cw)
                                   (ones (nrows S)) S
       | Some mdl =>
           exists mp u,
             mapping (reg_attrs obj) = Some mp
             /\ map_apply mp mdl = Ok u
             /\ Wm = spec_sparse_axis_W
                       (gamma (reg_attrs obj)) (matvec ave cw)
                       (BaseSparse_R (matvec S u) (eps_q (reg_attrs obj))
                                     (norm (reg_attrs obj))) S
       end.
Proof.
  unfold Sparse_axis_operator, get_regmesh, get_stencil, get_cell_weights,
    get_mapping, spec_sparse_axis_W.
  destruct (reg_regmesh obj) as [rm|]; simpl; [|discriminate].
  destruct (cellDiffStencil o rm) as [[S|]|] eqn:ES; simpl;
    try (destruct (model (reg_attrs obj)); discriminate).
  destruct (model (reg_attrs obj)) as [mdl|]; simpl.
  - destruct (mapping (reg_attrs obj)) as [mp|]; simpl; [|discriminate].
    destruct (map_apply mp mdl) as [u|] eqn:Eu; simpl; [|discriminate].
    unfold mat_vec at 1.
    destruct (ncols S =? length u)%nat; simpl; [|discriminate].
    destruct (aveCC2F o rm) as [ave|] eqn:Eave; simpl; [|discriminate].
    destruct (cell_weights (reg_attrs obj)) as [cw|] eqn:Ecw; simpl;
      [|discriminate].
    unfold mat_vec, mat_mul.
    destruct (ncols ave =? length cw)%nat; simpl; [|discriminate].
    match goal with |- context [Nat.eqb ?a ?b] => destruct (Nat.eqb a b) end;
      simpl; [|discriminate].
    match goal with |- context [Nat.eqb ?a ?b] => destruct (Nat.eqb a b) end;
      simpl; [|discriminate].
    intros H. injection H as <-.
    exists rm, S, ave, cw. do 4 (split; [first [reflexivity | assumption]|]).
    exists mp, u. split; [reflexivity|]. split; [assumption|].
    now rewrite map_fpow_half.
  - destruct (aveCC2F o rm) as [ave|] eqn:Eave; simpl; [|discriminate].
    destruct (cell_weights (reg_attrs obj)) as [cw|] eqn:Ecw; simpl;
      [|discriminate].
    unfold mat_vec, mat_mul.
    destruct (ncols ave =? length cw)%nat; simpl; [|discriminate].
    match goal with |- context [Nat.eqb ?a ?b] => destruct (Nat.eqb a b) end;
      simpl; [|discriminate].
    match goal with |- context [Nat.eqb ?a ?b] => destruct (Nat.eqb a b) end;
      simpl; [|discriminate].
    intros H. injection H as <-.
    exists rm, S, ave, cw. do 4 (split; [first [reflexivity | assumption]|]).
    now rewrite map_fpow_half, sdiag_ones.
Qed.

End Reweighting.

(** ** Sparse terms with and without a current model *)

Section SparseOperators.

Variables (cls : Attrs) (mesh : Mesh) (kw : list kwarg).

(** Before a model is set, the smallness term has the operator of the
    specification with unit reweighting factors. *)
Lemma SparseSmallness_W_without_model (obj : Reg) :
  SparseSmallness_init cls mesh kw = Ok obj ->
  model (setKwargs cls kw) = None ->
  exists rm cw,
    reg_regmesh obj = Some rm
    /\ cell_weights (reg_attrs obj) = Some cw
    /\ reg_W obj = Mat (spec_sparse_smallness_W (gamma (reg_attrs obj)) cw
                                                (ones (regmesh_nC rm))).
Proof.
  unfold SparseSmallness_init, get_regmesh, get_cell_weights,
    spec_sparse_smallness_W.
  destruct (BaseSparse_init cls mesh kw) as [o|e] eqn:E; simpl;
    [|discriminate].
  destruct (@BaseSparse_init_keeps _ _ _ _ E) as [Hm _].
  intros H Hnone. rewrite Hnone in Hm. rewrite Hm in H.
  destruct (reg_regmesh o) as [rm|] eqn:Erm; simpl in H; [|discriminate].
  destruct (cell_weights (reg_attrs o)) as [cw|] eqn:Ecw; simpl in H;
    [|discriminate].
  unfold mat_mul in H.
  match type of H with context [Nat.eqb ?a ?b] => destruct (Nat.eqb a b) end;
    simpl in H; [|discriminate].
  injection H as <-. exists rm, cw. simpl.
  split; [assumption|]. split; [assumption|].
  now rewrite map_fpow_half, sdiag_ones.
Qed.

(** Before a model is set, the x and y terms have the operator of the
    specification with unit reweighting factors. *)
Lemma Sparse_x_W_without_model (obj : Reg) :
  Sparse_x_init cls mesh kw = Ok obj ->
  model (setKwargs cls kw) = None ->
  exists rm S ave cw,
    reg_regmesh obj = Some rm
    /\ cellDiffStencil Ox rm = Ok (Some S)
    /\ aveCC2F Ox rm = Ok ave
    /\ cell_weights (reg_attrs obj) = Some cw
    /\ reg_W obj = Mat (spec_sparse_axis_W (gamma (reg_attrs obj))
                                           (matvec ave cw)
                                           (ones (nrows S)) S).
Proof.
  intros Hrun Hnone.
  destruct (@Sparse_x_init_sets_W _ _ _ _ Hrun) as [Hm [Wm [Hop HW]]].
  destruct (@Sparse_axis_operator_formula _ _ _ Hop)
    as [rm [S [ave [cw [H1 [H2 [H3 [H4 H5]]]]]]]].
  rewrite Hm, Hnone in H5. subst Wm.
  exists rm, S, ave, cw. repeat (split; [assumption|]). assumption.
Qed.

Lemma Sparse_y_W_without_model (obj : Reg) :
  Sparse_y_init cls mesh kw = Ok obj ->
  model (setKwargs cls kw) = None ->
  exists rm S ave cw,
    reg_regmesh obj = Some rm
    /\ cellDiffStencil Oy rm = Ok (Some S)
    /\ aveCC2F Oy rm = Ok ave
    /\ cell_weights (reg_attrs obj) = Some cw
    /\ reg_W obj = Mat (spec_sparse_axis_W (gamma (reg_attrs obj))
                                           (matvec ave cw)
                                           (ones (nrows S)) S).
Proof.
  intros Hrun Hnone.
  destruct (@Sparse_y_init_sets_W _ _ _ _ Hrun) as [Hm [Wm [Hop HW]]].
  destruct (@Sparse_axis_operator_formula _ _ _ Hop)
    as [rm [S [ave [cw [H1 [H2 [H3 [H4 H5]]]]]]]].
  rewrite Hm, Hnone in H5. subst Wm.
  exists rm, S, ave, cw. repeat (split; [assumption|]). assumption.
Qed.

(** With a model set, the x term has the operator of the specification. *)
Lemma Sparse_x_W_with_model (obj : Reg) (mdl : vec) :
  Sparse_x_init cls mesh kw = Ok obj ->
  model (setKwargs cls kw) = Some mdl ->
  exists rm S ave cw mp u,
    reg_regmesh obj = Some rm
    /\ cellDiffStencil Ox rm = Ok (Some S)
    /\ aveCC2F Ox rm = Ok ave
    /\ cell_weights (reg_attrs obj) = Some cw
    /\ mapping (reg_attrs obj) = Some mp
    /\ map_apply mp mdl = Ok u
    /\ reg_W obj
       = Mat (spec_sparse_axis_W
                (gamma (reg_attrs obj)) (matvec ave cw)
                (BaseSparse_R (matvec S u) (eps_q (reg_attrs obj))
                              (norm (reg_attrs obj))) S).
Proof.
  intros Hrun Hsome.
  destruct (@Sparse_x_init_sets_W _ _ _ _ Hrun) as [Hm [Wm [Hop HW]]].
  destruct (@Sparse_axis_operator_formula _ _ _ Hop)
    as [rm [S [ave [cw [H1 [H2 [H3 [H4 H5]]]]]]]].
  rewrite Hm, Hsome in H5. destruct H5 as [mp [u [H5 [H6 H7]]]]. subst Wm.
  exists rm, S, ave, cw, mp, u. repeat (split; [assumption|]). assumption.
Qed.

End SparseOperators.

(** Claim C4 fails on the code.  With a current model set, [SparseSmallness]
    raises at construction (it reads attributes that do not exist), and
    [Sparse_z] stores the operator of the specification in [Wz] and leaves
    [W] at the identity: on the mesh of 1 x 1 x 2 cells that operator has
    three rows and two columns, and [W] is not it. *)
Theorem sparse_terms_with_model_miss_W :
  SparseSmallness_init SparseSmallness_cls (mesh1d 2) [kw_model [1; 2]]
  = Raise AttributeError
  /\ exists obj Wm,
       Sparse_z_init Sparse_z_cls mesh3d_1x1x2 [kw_model [1; 3]] = Ok obj
       /\ model (reg_attrs obj) = Some [1; 3]
       /\ Sparse_axis_operator obj Oz = Ok Wm
       /\ reg_Wz obj = Some (Mat Wm)
       /\ nrows Wm = 3%nat /\ ncols Wm = 2%nat
       /\ reg_W obj = Identity
       /\ ~ op_equiv (reg_W obj) (Mat Wm).
Proof.
  split; [reflexivity|].
  do 2 eexists.
  split; [cbn -[fpow BaseSparse_R]; reflexivity|].
  split; [reflexivity|].
  split; [cbn -[fpow BaseSparse_R]; reflexivity|].
  split; [reflexivity|].
  split; [reflexivity|]. split; [reflexivity|].
  split; [reflexivity|].
  cbn -[fpow BaseSparse_R]. intros H.
  apply (f_equal nrows) in H. discriminate H.
Qed.

(** The x term on the 1-D mesh of two cells, with a model set: the
    constructor succeeds and [W] is the operator of the specification. *)
Lemma Sparse_x_with_model_example :
  exists obj rm S ave,
    Sparse_x_init Sparse_x_cls (mesh1d 2) [kw_model [1; 2]] = Ok obj
    /\ reg_regmesh obj = Some rm
    /\ cellDiffStencil Ox rm = Ok (Some S)
    /\ aveCC2F Ox rm = Ok ave
    /\ reg_W obj
       = Mat (spec_sparse_axis_W 1 (matvec ave (ones 2))
                (BaseSparse_R (matvec S [1; 2]) (1 / 10) 2) S).
Proof.
  destruct (Sparse_x_init Sparse_x_cls (mesh1d 2) [kw_model [1; 2]])
    as [obj|e] eqn:Hrun; [|cbn -[fpow BaseSparse_R] in Hrun; discriminate].
  assert (Hattrs : gamma (reg_attrs obj) = 1
                   /\ eps_q (reg_attrs obj) = 1 / 10
                   /\ norm (reg_attrs obj) = 2
                   /\ cell_weights (reg_attrs obj) = Some (ones 2)
                   /\ mapping (reg_attrs obj)
                      = Some (IdentityMap (Some 2%nat))).
  { cbn -[fpow BaseSparse_R] in Hrun. injection Hrun as <-. repeat split. }
  destruct Hattrs as [Hg [He [Hn [Hc Hmp]]]].
  destruct (@Sparse_x_W_with_model _ _ _ _ [1; 2] Hrun eq_refl)
    as [rm [S [ave [cw [mp [u [H1 [H2 [H3 [H4 [H5 [H6 H7]]]]]]]]]]]].
  rewrite Hg, He, Hn in H7.
  rewrite Hc in H4. injection H4 as <-.
  rewrite Hmp in H5. injection H5 as <-.
  simpl in H6. injection H6 as <-.
  exists obj, rm, S, ave. repeat (split; [first [reflexivity|assumption]|]).
  assumption.
Qed.

(** Claim C7 fails on the code for the z term.  Before any model is set,
    [Sparse_z] on the mesh of 1 x 1 x 2 cells computes the pure-L2 operator
    (unit reweighting factors) but stores it in [Wz]; the term's [W] stays
    the identity and is not that operator. *)
Theorem Sparse_z_without_model_keeps_default_W :
  exists obj rm S ave,
    Sparse_z_init Sparse_z_cls mesh3d_1x1x2 [] = Ok obj
    /\ model (reg_attrs obj) = None
    /\ reg_regmesh obj = Some rm
    /\ cellDiffStencil Oz rm = Ok (Some S)
    /\ aveCC2F Oz rm = Ok ave
    /\ reg_Wz obj
       = Some (Mat (spec_sparse_axis_W 1 (matvec ave (ones 2))
                                       (ones (nrows S)) S))
    /\ nrows S = 3%nat
    /\ reg_W obj = Identity
    /\ ~ op_equiv (reg_W obj)
                  (Mat (spec_sparse_axis_W 1 (matvec ave (ones 2))
                                           (ones (nrows S)) S)).
Proof.
  destruct (Sparse_z_init Sparse_z_cls mesh3d_1x1x2 []) as [obj|e] eqn:Hrun;
    [|cbn -[fpow] in Hrun; discriminate].
  destruct (@Sparse_z_init_leaves_W _ _ _ _ Hrun) as [HW [Hm [Wm [Hop HWz]]]].
  destruct (@Sparse_axis_operator_formula _ _ _ Hop)
    as [rm [S [ave [cw [H1 [H2 [H3 [H4 H5]]]]]]]].
  rewrite Hm in H5. simpl in H5, HW, Hm. subst Wm.
  assert (Hcw : cw = ones 2 /\ gamma (reg_attrs obj) = 1
                /\ nrows S = 3%nat /\ ncols S = 2%nat
                /\ nrows ave = 3%nat).
  { cbn -[fpow] in Hrun. injection Hrun as <-.
    cbn in H1. injection H1 as <-.
    cbn in H4. injection H4 as <-.
    cbn in H2. injection H2 as <-.
    cbn -[Rdiv] in H3. injection H3 as <-.
    repeat split. }
  destruct Hcw as [-> [Hg [HS [HcS Have]]]]. rewrite Hg in HWz.
  exists obj, rm, S, ave.
  repeat (split; [first [reflexivity | assumption]|]).
  rewrite HW. simpl. intros H.
  apply (f_equal nrows) in H.
  rewrite nrows_speye in H. unfold spec_sparse_axis_W in H.
  cbn [ncols mmul] in H.
  rewrite !nrows_mmul, nrows_sdiag in H.
  unfold vscale in H. rewrite !length_map, length_matvec in H.
  rewrite Have, HcS in H. discriminate H.
Qed.

(** * Further properties of the module *)

(** ** More linear algebra: bilinearity, adjoints, identities *)

Section Bilinear.

Lemma dot_comm (a b : vec) : dot a b = dot b a.
Proof.
  revert b. induction a as [|u a IH]; intros [|w b]; simpl; try reflexivity.
  rewrite IH. lra.
Qed.

Lemma sumsq_nonneg (r : vec) : 0 <= sumsq r.
Proof.
  induction r as [|u r IH]; simpl; [lra|].
  pose proof (Rle_0_sqr u) as Hu. unfold Rsqr in Hu. lra.
Qed.

Lemma dot_vadd_r (v a b : vec) :
  length a = length b -> dot v (vadd a b) = dot v a + dot v b.
Proof.
  intros H. rewrite dot_comm, dot_vadd by assumption.
  now rewrite (dot_comm a), (dot_comm b).
Qed.

Lemma matvec_vadd (M : matrix) (a b : vec) :
  length a = length b ->
  matvec M (vadd a b) = vadd (matvec M a) (matvec M b).
Proof.
  intros H. unfold matvec. induction (rows M) as [|r rs IH]; simpl;
    [reflexivity|].
  now rewrite IH, dot_vadd_r.
Qed.

Lemma map_const_zeros {A : Type} (l : list A) :
  map (fun _ => 0) l = zeros (length l).
Proof. induction l as [|x l IH]; simpl; [reflexivity | now rewrite IH]. Qed.

Lemma map_plus_vadd {A : Type} (f g : A -> R) (l : list A) :
  map (fun x => f x + g x) l = vadd (map f l) (map g l).
Proof. induction l as [|x l IH]; simpl; [reflexivity | now rewrite IH]. Qed.

Lemma vscale_nth_seq (k : R) (row : vec) :
  map (fun j => k * nth j row 0) (seq 0 (length row)) = vscale k row.
Proof.
  unfold vscale.
  rewrite <- (map_map (fun j => nth j row 0) (Rmult k)).
  now rewrite map_nth_seq.
Qed.

(** The transpose acts on a vector as the linear combination of the rows. *)
Lemma matvec_transpose (A : matrix) (y : vec) :
  wf_matrix A ->
  matvec (transpose A) y = lincomb y (rows A) (ncols A).
Proof.
  unfold wf_matrix, matvec, transpose. simpl. rewrite map_map.
  generalize (ncols A) as n. intros n Hwf. revert y.
  induction Hwf as [|row rs Hrow Hrs IH]; intros y.
  - destruct y; simpl; rewrite map_const_zeros, length_seq; reflexivity.
  - destruct y as [|k y]; simpl.
    + rewrite map_const_zeros, length_seq. reflexivity.
    + rewrite <- IH.
      rewrite (map_plus_vadd (fun j => nth j row 0 * k)
                             (fun j => dot (map (fun r => nth j r 0) rs) y)).
      f_equal. rewrite <- Hrow, <- vscale_nth_seq.
      apply map_ext. intros j. lra.
Qed.

(** The transpose is the adjoint for the dot product. *)
Lemma dot_adjoint (A : matrix) (y v : vec) :
  wf_matrix A ->
  dot (matvec (transpose A) y) v = dot y (matvec A v).
Proof.
  intros Hwf. rewrite matvec_transpose by assumption.
  now apply dot_lincomb.
Qed.

Lemma wf_speye (n : nat) : wf_matrix (speye n).
Proof.
  unfold wf_matrix, speye. simpl. apply Forall_forall.
  intros r Hr. apply in_map_iff in Hr. destruct Hr as [i [<- _]].
  now rewrite length_map, length_seq.
Qed.

Lemma nth_indicator (i j n : nat) :
  (j < n)%nat ->
  nth j (map (fun k => if Nat.eqb i k then 1 else 0) (seq 0 n)) 0
  = if Nat.eqb i j then 1 else 0.
Proof.
  intros Hj.
  rewrite (nth_indep _ 0 ((fun k => if Nat.eqb i k then 1 else 0) O))
    by now rewrite length_map, length_seq.
  now rewrite (map_nth (fun k => if Nat.eqb i k then 1 else 0)), seq_nth.
Qed.

Lemma transpose_speye (n : nat) : transpose (speye n) = speye n.
Proof.
  unfold transpose, speye, nrows. simpl. rewrite length_map, length_seq.
  f_equal. apply map_ext_in. intros j Hj. apply in_seq in Hj.
  rewrite map_map. apply map_ext_in. intros i Hi.
  rewrite nth_indicator by lia. now rewrite Nat.eqb_sym.
Qed.

(** A row vector times the identity matrix is the vector. *)
Lemma lincomb_speye (r : vec) :
  lincomb r (rows (speye (length r))) (length r) = r.
Proof.
  rewrite <- (ncols_speye (length r)) at 2.
  rewrite <- matvec_transpose by apply wf_speye.
  rewrite transpose_speye. apply matvec_speye.
Qed.

Lemma mmul_speye_r (A : matrix) :
  wf_matrix A -> mmul A (speye (ncols A)) = A.
Proof.
  destruct A as [rs n]. unfold wf_matrix, mmul. simpl. intros Hwf.
  f_equal. induction Hwf as [|row rs Hrow Hrs IH]; simpl; [reflexivity|].
  rewrite IH. f_equal. rewrite <- Hrow. apply lincomb_speye.
Qed.

Lemma map_nth_seq_rows (rs : list vec) :
  map (fun i => nth i rs []) (seq 0 (length rs)) = rs.
Proof.
  induction rs as [|r rs IH]; simpl; [reflexivity|].
  rewrite <- seq_shift, map_map. simpl. now rewrite IH.
Qed.

(** The [i]-th unit row vector picks the [i]-th row of a matrix. *)
Lemma lincomb_indicator (rs : list vec) (n i : nat) :
  Forall (fun r => length r = n) rs ->
  (i < length rs)%nat ->
  lincomb (map (fun j => if Nat.eqb i j then 1 else 0) (seq 0 (length rs)))
          rs n
  = nth i rs [].
Proof.
  intros Hwf Hi.
  assert (Hrow : length (nth i rs []) = n).
  { rewrite Forall_forall in Hwf. apply Hwf. now apply nth_In. }
  pose (A := {| rows := rs; ncols := n |}).
  change (lincomb (map (fun j => if Nat.eqb i j then 1 else 0)
                       (seq 0 (length rs))) (rows A) (ncols A)
          = nth i rs []).
  rewrite <- matvec_transpose by exact Hwf.
  unfold matvec, transpose, A. simpl. rewrite map_map.
  transitivity (map (fun j => nth j (nth i rs []) 0) (seq 0 n));
    [|rewrite <- Hrow; apply map_nth_seq].
  apply map_ext. intros j.
  rewrite dot_comm.
  replace (length rs) with (length (map (fun r : vec => nth j r 0) rs))
    by apply length_map.
  rewrite dot_indicator. simpl. rewrite Nat.sub_0_r.
  rewrite (nth_indep _ 0 ((fun r : vec => nth j r 0) []));
    [|rewrite length_map; exact Hi].
  now rewrite (map_nth (fun r : vec => nth j r 0)).
Qed.

Lemma mmul_speye_l (A : matrix) :
  wf_matrix A -> mmul (speye (nrows A)) A = A.
Proof.
  intros Hwf. destruct A as [rs n]. unfold mmul, nrows, speye. simpl.
  f_equal. rewrite map_map.
  transitivity (map (fun i => nth i rs []) (seq 0 (length rs)));
    [|apply map_nth_seq_rows].
  apply map_ext_in. intros i Hi. apply in_seq in Hi.
  apply lincomb_indicator; [exact Hwf | lia].
Qed.

End Bilinear.

(** ** Value, gradient and Hessian under the identity mapping *)

Section IdentityMapped.

Variables (obj : Reg) (n : option nat) (m : vec).

Hypothesis Hmapping : mapping (reg_attrs obj) = Some (IdentityMap n).
Hypothesis Hsize : match n with None => True | Some k => k = length m end.
Hypothesis Hmref : match mref (reg_attrs obj) with
                   | Zero => True
                   | Arr v => length v = length m
                   end.
Hypothesis HW : match reg_W obj with
                | Identity => True
                | Mat M => ncols M = length m /\ wf_matrix M
                end.

Let d : vec := map2 Rminus m (mref_dense (length m) (mref (reg_attrs obj))).
Let Wd : matrix := W_dense (length m) (reg_W obj).

Lemma length_d : length d = length m.
Proof.
  unfold d, mref_dense.
  destruct (mref (reg_attrs obj)) as [|v].
  - now rewrite length_map2 by now rewrite length_zeros.
  - now rewrite length_map2 by now rewrite Hmref.
Qed.

Lemma wf_Wd : wf_matrix Wd.
Proof.
  unfold Wd, W_dense. destruct (reg_W obj) as [|M];
    [apply wf_speye | apply HW].
Qed.

Lemma ncols_Wd : ncols Wd = length m.
Proof.
  unfold Wd, W_dense. destruct (reg_W obj) as [|M]; [reflexivity | apply HW].
Qed.

(** Applying the operator of the term, and its transpose. *)
Lemma op_vec_W (u : vec) :
  length u = length m -> op_vec (reg_W obj) u = Ok (matvec Wd u).
Proof.
  intros Hu. unfold Wd, W_dense. destruct (reg_W obj) as [|M]; simpl.
  - now rewrite <- Hu, matvec_speye.
  - unfold mat_vec. destruct HW as [-> _]. now rewrite Hu, Nat.eqb_refl.
Qed.

Lemma op_vec_WT (u : vec) :
  length u = nrows Wd ->
  op_vec (op_T (reg_W obj)) u = Ok (matvec (transpose Wd) u).
Proof.
  unfold Wd, W_dense. destruct (reg_W obj) as [|M]; simpl; intros Hu.
  - rewrite nrows_speye in Hu.
    now rewrite transpose_speye, <- Hu, matvec_speye.
  - unfold mat_vec. now rewrite ncols_transpose, Hu, Nat.eqb_refl.
Qed.

(** Applying the derivative of the identity mapping, and its transpose. *)
Lemma op_vec_mD (u : vec) :
  length u = length m ->
  op_vec (match n with Some k => Mat (speye k) | None => Identity end) u
  = Ok u.
Proof.
  intros Hu. destruct n as [k|]; simpl; [|reflexivity].
  unfold mat_vec. rewrite ncols_speye, Hsize, Hu, Nat.eqb_refl.
  now rewrite <- Hu, matvec_speye.
Qed.

Lemma op_vec_mDT (u : vec) :
  length u = length m ->
  op_vec (op_T (match n with Some k => Mat (speye k) | None => Identity end))
         u
  = Ok u.
Proof.
  intros Hu. destruct n as [k|]; simpl; [|reflexivity].
  rewrite transpose_speye.
  unfold mat_vec. rewrite ncols_speye, Hsize, Hu, Nat.eqb_refl.
  now rewrite <- Hu, matvec_speye.
Qed.

Lemma sub_mref_d : sub_mref m (mref (reg_attrs obj)) = Ok d.
Proof. unfold d. now apply sub_mref_dense. Qed.

Lemma eval_closed_form :
  BaseRegularization_eval obj m = Ok (0.5 * sumsq (matvec Wd d)).
Proof.
  unfold BaseRegularization_eval. rewrite sub_mref_d. simpl.
  rewrite (get_mapping_Some _ Hmapping). simpl.
  rewrite op_vec_W by apply length_d. simpl. now rewrite dot_sumsq.
Qed.

Lemma deriv_closed_form :
  BaseRegularization_deriv obj m
  = Ok (matvec (transpose Wd) (matvec Wd d)).
Proof.
  unfold BaseRegularization_deriv. rewrite sub_mref_d. simpl.
  rewrite (get_mapping_Some _ Hmapping). simpl.
  rewrite op_vec_W by apply length_d. simpl.
  rewrite op_vec_WT by apply length_matvec. simpl.
  apply op_vec_mDT.
  now rewrite length_matvec, nrows_transpose, ncols_Wd.
Qed.

Lemma deriv2_closed_form (v : vec) :
  length v = length m ->
  BaseRegularization_deriv2 obj m (Some v)
  = Ok (inr (matvec (transpose Wd) (matvec Wd v))).
Proof.
  intros Hv. unfold BaseRegularization_deriv2. rewrite sub_mref_d. simpl.
  rewrite (get_mapping_Some _ Hmapping). simpl.
  rewrite op_vec_mD by assumption. simpl.
  rewrite op_vec_W by assumption. simpl.
  rewrite op_vec_WT by apply length_matvec. simpl.
  rewrite op_vec_mDT; [reflexivity|].
  now rewrite length_matvec, nrows_transpose, ncols_Wd.
Qed.

End IdentityMapped.

Section Expansion.

Lemma map2_minus_vadd (a v r : vec) :
  length a = length v -> length a = length r ->
  map2 Rminus (vadd a v) r = vadd (map2 Rminus a r) v.
Proof.
  revert v r. induction a as [|x a IH]; intros [|y v] [|z r] Hv Hr;
    simpl in *; try discriminate; try reflexivity.
  unfold vadd in *. simpl. rewrite IH by lia. f_equal. lra.
Qed.

Lemma sumsq_vadd (a b : vec) :
  length a = length b ->
  sumsq (vadd a b) = sumsq a + 2 * dot a b + sumsq b.
Proof.
  revert b. induction a as [|x a IH]; intros [|y b] H; simpl in *;
    try discriminate; [lra|].
  unfold vadd in *. rewrite IH by lia. lra.
Qed.

Lemma matvec_zeros (M : matrix) (k : nat) :
  matvec M (zeros k) = zeros (nrows M).
Proof.
  unfold matvec, nrows. induction (rows M) as [|r rs IH]; simpl;
    [reflexivity|].
  now rewrite IH, dot_comm, dot_zeros.
Qed.

Lemma sumsq_zeros (k : nat) : sumsq (zeros k) = 0.
Proof. induction k as [|k IH]; simpl; [reflexivity|]. unfold zeros in IH. rewrite IH. lra. Qed.

Lemma map2_minus_self (r : vec) : map2 Rminus r r = zeros (length r).
Proof.
  induction r as [|x r IH]; simpl; [reflexivity|].
  rewrite IH. unfold zeros. simpl. f_equal. lra.
Qed.

End Expansion.

(** For a term with the identity mapping, the gradient and the
    Hessian-vector product are the formulas of the docstrings:
    [deriv(m) = W^T W (m - mref)] and [deriv2(m, v) = W^T W v], whenever the
    model, the reference model and the operator have matching sizes. *)
Theorem gradient_and_hessian_formulas :
  forall (obj : Reg) (n : option nat) (m : vec),
    mapping (reg_attrs obj) = Some (IdentityMap n) ->
    match n with None => True | Some k => k = length m end ->
    match mref (reg_attrs obj) with
    | Zero => True
    | Arr v => length v = length m
    end ->
    match reg_W obj with
    | Identity => True
    | Mat M => ncols M = length m /\ wf_matrix M
    end ->
    let d := map2 Rminus m (mref_dense (length m) (mref (reg_attrs obj))) in
    let Wd := W_dense (length m) (reg_W obj) in
    BaseRegularization_deriv obj m
    = Ok (matvec (transpose Wd) (matvec Wd d))
    /\ forall v, length v = length m ->
         BaseRegularization_deriv2 obj m (Some v)
         = Ok (inr (matvec (transpose Wd) (matvec Wd v))).
Proof.
  intros obj n m H1 H2 H3 H4 d Wd. split.
  - exact (@deriv_closed_form obj n m H1 H2 H3 H4).
  - intros v Hv. exact (@deriv2_closed_form obj n m H1 H2 H3 H4 v Hv).
Qed.

(** The value of a term with the identity mapping is an exact quadratic:
    [value(m + v) = value(m) + deriv(m).v + 0.5 * v.deriv2(m, v)], all four
    evaluations being defined. *)
Theorem value_quadratic_expansion :
  forall (obj : Reg) (n : option nat) (m v : vec),
    mapping (reg_attrs obj) = Some (IdentityMap n) ->
    match n with None => True | Some k => k = length m end ->
    match mref (reg_attrs obj) with
    | Zero => True
    | Arr r => length r = length m
    end ->
    match reg_W obj with
    | Identity => True
    | Mat M => ncols M = length m /\ wf_matrix M
    end ->
    length v = length m ->
    exists val g h val',
      BaseRegularization_eval obj m = Ok val
      /\ BaseRegularization_deriv obj m = Ok g
      /\ BaseRegularization_deriv2 obj m (Some v) = Ok (inr h)
      /\ BaseRegularization_eval obj (vadd m v) = Ok val'
      /\ val' = val + dot g v + 0.5 * dot v h.
Proof.
  intros obj n m v H1 H2 H3 H4 Hv.
  assert (Hlen : length (vadd m v) = length m).
  { unfold vadd. now rewrite length_map2. }
  do 4 eexists.
  split; [exact (@eval_closed_form obj n m H1 H3 H4)|].
  split; [exact (@deriv_closed_form obj n m H1 H2 H3 H4)|].
  split; [exact (@deriv2_closed_form obj n m H1 H2 H3 H4 v Hv)|].
  split.
  - apply (@eval_closed_form obj n (vadd m v) H1); rewrite Hlen; assumption.
  - rewrite Hlen.
    set (mr := mref_dense (length m) (mref (reg_attrs obj))).
    set (Wd := W_dense (length m) (reg_W obj)).
    assert (Hmr : length m = length mr).
    { unfold mr, mref_dense. destruct (mref (reg_attrs obj));
        [now rewrite length_zeros | now rewrite H3]. }
    assert (Hwf : wf_matrix Wd) by exact (@wf_Wd obj m H4).
    rewrite map2_minus_vadd by (first [assumption | symmetry; assumption]).
    assert (Hd : length (map2 Rminus m mr) = length v).
    { rewrite length_map2 by assumption. now symmetry. }
    rewrite matvec_vadd by assumption.
    rewrite sumsq_vadd by now rewrite !length_matvec.
    rewrite !dot_adjoint by assumption.
    rewrite (dot_comm v), dot_adjoint by assumption.
    rewrite dot_sumsq. lra.
Qed.

Lemma value_quadratic_expansion_witness :
  exists obj val g h val',
    BaseRegularization_init BaseRegularization_cls (Some (mesh1d 2)) None
      [kw_W (Mat {| rows := [[1; 2]; [0; 3]]; ncols := 2 |});
       kw_mref (Arr [1; 1])] = Ok obj
    /\ BaseRegularization_eval obj [2; 0] = Ok val
    /\ BaseRegularization_deriv obj [2; 0] = Ok g
    /\ BaseRegularization_deriv2 obj [2; 0] (Some [1; 4]) = Ok (inr h)
    /\ BaseRegularization_eval obj (vadd [2; 0] [1; 4]) = Ok val'
    /\ val' = val + dot g [1; 4] + 0.5 * dot [1; 4] h.
Proof.
  eexists.
  match goal with
  | |- exists val g h val', ?I = Ok ?o /\ _ =>
      assert (Hrun : I = Ok o) by (cbn; reflexivity)
  end.
  assert (HW : ncols {| rows := [[1; 2]; [0; 3]]; ncols := 2 |} = 2%nat
               /\ wf_matrix {| rows := [[1; 2]; [0; 3]]; ncols := 2 |})
    by (split; [reflexivity | repeat constructor]).
  match type of Hrun with
  | _ = Ok ?o =>
      destruct (@value_quadratic_expansion o (Some 2%nat) [2; 0] [1; 4]
                  eq_refl eq_refl eq_refl HW eq_refl)
        as [val [g [h [val' Hall]]]]
  end.
  exists val, g, h, val'. split; [exact Hrun | exact Hall].
Defined.

Lemma gradient_and_hessian_formulas_witness :
  exists obj,
    BaseRegularization_init BaseRegularization_cls (Some (mesh1d 2)) None
      [kw_W (Mat {| rows := [[1; 2]; [0; 3]]; ncols := 2 |});
       kw_mref (Arr [1; 1])] = Ok obj
    /\ BaseRegularization_deriv obj [2; 0]
       = Ok (matvec (transpose {| rows := [[1; 2]; [0; 3]]; ncols := 2 |})
               (matvec {| rows := [[1; 2]; [0; 3]]; ncols := 2 |}
                       (map2 Rminus [2; 0] [1; 1])))
    /\ BaseRegularization_deriv2 obj [2; 0] (Some [1; 4])
       = Ok (inr (matvec
                    (transpose {| rows := [[1; 2]; [0; 3]]; ncols := 2 |})
                    (matvec {| rows := [[1; 2]; [0; 3]]; ncols := 2 |}
                            [1; 4]))).
Proof.
  eexists.
  match goal with
  | |- ?I = Ok ?o /\ _ => assert (Hrun : I = Ok o) by (cbn; reflexivity)
  end.
  assert (HW : ncols {| rows := [[1; 2]; [0; 3]]; ncols := 2 |} = 2%nat
               /\ wf_matrix {| rows := [[1; 2]; [0; 3]]; ncols := 2 |})
    by (split; [reflexivity | repeat constructor]).
  match type of Hrun with
  | _ = Ok ?o =>
      destruct (@gradient_and_hessian_formulas o (Some 2%nat) [2; 0]
                  eq_refl eq_refl eq_refl HW) as [Hg Hh]
  end.
  split; [exact Hrun|]. split; [exact Hg|]. exact (Hh [1; 4] eq_refl).
Defined.

(** The Gauss-Newton Hessian is positive semidefinite: whenever the
    Hessian-vector product [h = deriv2(m, v)] is defined, [v.h >= 0].  The
    operators are matrices whose rows have their declared width. *)
Theorem hessian_product_is_positive_semidefinite :
  forall (obj : Reg) (m v h : vec),
    wf_linop (reg_W obj) ->
    (forall mp d D,
        mapping (reg_attrs obj) = Some mp ->
        map_deriv mp d = Ok D -> wf_linop D) ->
    BaseRegularization_deriv2 obj m (Some v) = Ok (inr h) ->
    0 <= dot v h.
Proof.
  intros obj m v h HW Hderiv.
  unfold BaseRegularization_deriv2.
  destruct (sub_mref m (mref (reg_attrs obj))) as [d|e]; [simpl|discriminate].
  unfold get_mapping.
  destruct (mapping (reg_attrs obj)) as [mp|] eqn:Hmp; [simpl|discriminate].
  destruct (map_deriv mp d) as [mD|e] eqn:HmD; [simpl|discriminate].
  specialize (Hderiv mp d mD eq_refl HmD).
  destruct mD as [|D], (reg_W obj) as [|Wm]; cbn [wf_linop] in *;
    cbn [op_T op_vec bind]; unfold mat_vec;
    repeat match goal with
           | |- context [Nat.eqb ?a ?b] =>
               destruct (Nat.eqb a b); cbn [bind]; [|discriminate]
           end;
    intros H; injection H as <-.
  - rewrite dot_sumsq. apply sumsq_nonneg.
  - rewrite dot_comm, dot_adjoint, dot_sumsq by assumption.
    apply sumsq_nonneg.
  - rewrite dot_comm, dot_adjoint, dot_sumsq by assumption.
    apply sumsq_nonneg.
  - rewrite dot_comm, !dot_adjoint, dot_sumsq by assumption.
    apply sumsq_nonneg.
Qed.

Lemma hessian_product_is_positive_semidefinite_witness :
  exists obj h,
    BaseRegularization_init BaseRegularization_cls (Some (mesh1d 2)) None
      [kw_W (Mat {| rows := [[1; 2]; [0; 3]]; ncols := 2 |})] = Ok obj
    /\ BaseRegularization_deriv2 obj [2; 0] (Some [1; -1]) = Ok (inr h)
    /\ 0 <= dot [1; -1] h.
Proof.
  do 2 eexists.
  match goal with
  | |- ?I = Ok ?o /\ ?J = Ok (inr ?h) /\ _ =>
      assert (Hrun : I = Ok o) by (cbn; reflexivity);
      assert (Hh : J = Ok (inr h)) by (cbn; reflexivity)
  end.
  split; [exact Hrun|]. split; [exact Hh|].
  refine (@hessian_product_is_positive_semidefinite _ _ _ _ _ _ Hh).
  - simpl. repeat constructor.
  - intros mp d D Hmp. injection Hmp as <-. simpl. intros HD.
    injection HD as <-. apply wf_speye.
Defined.

(** The value of a penalty term is never negative; under the identity
    mapping the value is zero, and the gradient the zero vector, at the
    reference model. *)
Theorem value_nonnegative_and_zero_at_reference :
  (forall (obj : Reg) (m : vec) (val : R),
      BaseRegularization_eval obj m = Ok val -> 0 <= val)
  /\ (forall (obj : Reg) (n : option nat) (r : vec),
         mapping (reg_attrs obj) = Some (IdentityMap n) ->
         match n with None => True | Some k => k = length r end ->
         mref (reg_attrs obj) = Arr r ->
         match reg_W obj with
         | Identity => True
         | Mat M => ncols M = length r /\ wf_matrix M
         end ->
         BaseRegularization_eval obj r = Ok 0
         /\ BaseRegularization_deriv obj r = Ok (zeros (length r))).
Proof.
  split.
  - intros obj m val. unfold BaseRegularization_eval.
    destruct (sub_mref m (mref (reg_attrs obj))); simpl; [|discriminate].
    destruct (get_mapping obj) as [mp|]; simpl; [|discriminate].
    destruct (map_apply mp a); simpl; [|discriminate].
    destruct (op_vec (reg_W obj) a0) as [t|]; simpl; [|discriminate].
    intros H. injection H as <-. rewrite dot_sumsq.
    pose proof (sumsq_nonneg t). lra.
  - intros obj n r Hmp Hn Hmref HW.
    assert (Hfit : match mref (reg_attrs obj) with
                   | Zero => True
                   | Arr v => length v = length r
                   end) by now rewrite Hmref.
    rewrite (@eval_closed_form obj n r Hmp Hfit HW).
    rewrite (@deriv_closed_form obj n r Hmp Hn Hfit HW).
    rewrite Hmref. simpl. rewrite map2_minus_self, matvec_zeros, sumsq_zeros.
    rewrite matvec_zeros, nrows_transpose.
    split; [f_equal; lra|].
    do 2 f_equal. unfold W_dense. destruct (reg_W obj); [reflexivity|].
    apply HW.
Qed.

Lemma value_nonnegative_and_zero_at_reference_witness :
  exists obj val,
    BaseRegularization_init BaseRegularization_cls (Some (mesh1d 2)) None
      [kw_W (Mat {| rows := [[1; 2]; [0; 3]]; ncols := 2 |});
       kw_mref (Arr [1; 1])] = Ok obj
    /\ BaseRegularization_eval obj [2; 0] = Ok val /\ 0 <= val
    /\ BaseRegularization_eval obj [1; 1] = Ok 0
    /\ BaseRegularization_deriv obj [1; 1] = Ok (zeros 2).
Proof.
  do 2 eexists.
  match goal with
  | |- ?I = Ok ?o /\ ?J = Ok ?v /\ _ =>
      assert (Hrun : I = Ok o) by (cbn; reflexivity);
      assert (Hv : J = Ok v) by (cbn; reflexivity)
  end.
  assert (HW : ncols {| rows := [[1; 2]; [0; 3]]; ncols := 2 |} = 2%nat
               /\ wf_matrix {| rows := [[1; 2]; [0; 3]]; ncols := 2 |})
    by (split; [reflexivity | repeat constructor]).
  split; [exact Hrun|]. split; [exact Hv|].
  split; [exact (proj1 value_nonnegative_and_zero_at_reference _ _ _ Hv)|].
  match type of Hrun with
  | _ = Ok ?o =>
      exact (proj2 value_nonnegative_and_zero_at_reference o (Some 2%nat)
                   [1; 1] eq_refl eq_refl eq_refl HW)
  end.
Defined.

(** ** The projections of the adapter *)

Section Projections.

Lemma select_map {A B : Type} (f : A -> B) (mask : list bool) (l : list A) :
  select mask (map f l) = map f (select mask l).
Proof.
  revert l. induction mask as [|b mask IH]; intros [|x l]; simpl;
    try reflexivity.
  destruct b; simpl; now rewrite IH.
Qed.

Lemma length_select {A : Type} (mask : list bool) (l : list A) :
  length mask = length l -> length (select mask l) = count_true mask.
Proof.
  unfold count_true. revert l.
  induction mask as [|b mask IH]; intros [|x l] H; simpl in *;
    try discriminate; [reflexivity|].
  destruct b; simpl; now rewrite IH by lia.
Qed.

Lemma select_zeros (mask : list bool) :
  select mask (zeros (length mask)) = zeros (count_true mask).
Proof.
  unfold count_true, zeros.
  induction mask as [|b mask IH]; simpl; [reflexivity|].
  destruct b; simpl; now rewrite IH.
Qed.

Lemma select_vadd (mask : list bool) (a b : vec) :
  select mask (vadd a b) = vadd (select mask a) (select mask b).
Proof.
  unfold vadd. revert a b.
  induction mask as [|c mask IH]; intros [|x a] [|y b]; simpl;
    try reflexivity.
  - now destruct c, (select mask a).
  - destruct c; simpl; now rewrite IH.
Qed.

Lemma select_vscale (mask : list bool) (k : R) (a : vec) :
  select mask (vscale k a) = vscale k (select mask a).
Proof. unfold vscale. apply select_map. Qed.

Lemma select_lincomb (mask : list bool) (v : vec) (rs : list vec) :
  select mask (lincomb v rs (length mask))
  = lincomb v (map (select mask) rs) (count_true mask).
Proof.
  revert v. induction rs as [|row rs IH]; intros [|k v]; simpl;
    try apply select_zeros.
  now rewrite select_vadd, select_vscale, IH.
Qed.

Lemma wf_select_rows (mask : list bool) (rs : list vec) :
  Forall (fun r => length r = length mask) rs ->
  Forall (fun r => length r = count_true mask) (map (select mask) rs).
Proof.
  intros H. apply Forall_forall. intros r Hr.
  apply in_map_iff in Hr. destruct Hr as [r0 [<- Hin]].
  rewrite Forall_forall in H. apply length_select. symmetry. now apply H.
Qed.

Lemma length_true_indices (mask : list bool) :
  forall s, length (true_indices s mask) = count_true mask.
Proof.
  unfold count_true.
  induction mask as [|[|] mask IH]; intros s; simpl; auto.
Qed.

Lemma true_indices_in_range (mask : list bool) :
  forall s n,
    (s + length mask <= n)%nat ->
    forallb (fun j => Nat.ltb j n) (true_indices s mask) = true.
Proof.
  induction mask as [|b mask IH]; intros s n Hn; simpl in *; [reflexivity|].
  assert (Hrest : forallb (fun j => Nat.ltb j n) (true_indices (S s) mask)
                  = true) by (apply IH; lia).
  destruct b; simpl; [|exact Hrest].
  rewrite Hrest, andb_true_r. apply Nat.ltb_lt. lia.
Qed.

(** Taking the entries at the positions of the [True] entries is masking,
    for a mask no longer than the list. *)
Lemma nth_true_indices (mask : list bool) :
  forall (pre r : vec),
    (length mask <= length r)%nat ->
    map (fun j => nth j (pre ++ r) 0) (true_indices (length pre) mask)
    = select mask r.
Proof.
  induction mask as [|b mask IH]; intros pre r Hlen; [reflexivity|].
  destruct r as [|x r]; simpl in Hlen; [lia|].
  assert (Hrest : map (fun j => nth j (pre ++ x :: r) 0)
                      (true_indices (S (length pre)) mask)
                  = select mask r).
  { replace (S (length pre)) with (length (pre ++ [x]))
      by (rewrite length_app; simpl; lia).
    replace (pre ++ x :: r) with ((pre ++ [x]) ++ r)
      by (rewrite <- app_assoc; reflexivity).
    apply IH. lia. }
  destruct b; simpl; [|exact Hrest].
  rewrite Hrest. f_equal.
  rewrite app_nth2 by lia. now rewrite Nat.sub_diag.
Qed.

(** On a matrix whose rows have their declared width, a mask no longer than
    the number of columns selects by masking each row. *)
Lemma select_cols_masks (M : matrix) (mask : list bool) :
  wf_matrix M ->
  (length mask <= ncols M)%nat ->
  select_cols M mask
  = Ok {| rows := map (select mask) (rows M); ncols := count_true mask |}.
Proof.
  intros Hwf Hlen. unfold select_cols. cbv zeta.
  rewrite true_indices_in_range by (simpl; exact Hlen).
  rewrite length_true_indices. do 2 f_equal.
  apply map_ext_in. intros r Hr.
  unfold wf_matrix in Hwf. rewrite Forall_forall in Hwf.
  apply (nth_true_indices mask []). rewrite (Hwf r Hr). exact Hlen.
Qed.

(** The projection of a mask: [Pac.T * v] keeps the entries of the active
    cells. *)
Lemma select_cols_speye (mask : list bool) :
  exists P,
    select_cols (speye (length mask)) mask = Ok P
    /\ wf_matrix P
    /\ nrows P = length mask
    /\ ncols P = count_true mask
    /\ rows P = map (select mask) (rows (speye (length mask)))
    /\ forall v, length v = length mask ->
         matvec (transpose P) v = select mask v.
Proof.
  assert (Hwf : Forall (fun r => length r = length mask)
                       (rows (speye (length mask)))) by apply wf_speye.
  rewrite select_cols_masks;
    [|exact Hwf | rewrite ncols_speye; apply le_n].
  eexists. split; [reflexivity|].
  split; [exact (@wf_select_rows _ _ Hwf)|].
  split; [unfold nrows; simpl; now rewrite !length_map, length_seq|].
  split; [reflexivity|]. split; [reflexivity|].
  intros v Hv.
  rewrite matvec_transpose by exact (@wf_select_rows _ _ Hwf). simpl.
  rewrite <- select_lincomb. f_equal.
  rewrite <- Hv. apply lincomb_speye.
Qed.

(** Scattering a reduced vector to the full mesh and restricting it again
    gives the vector back. *)
Lemma select_scatter (mask : list bool) :
  forall (s : nat) (u : vec),
    length u = count_true mask ->
    select mask
      (map (fun i => dot (select mask
                            (map (fun j => if Nat.eqb i j then 1 else 0)
                                 (seq s (length mask)))) u)
           (seq s (length mask)))
    = u.
Proof.
  unfold count_true.
  induction mask as [|b mask IH]; intros s u Hu; simpl in *.
  - now destruct u.
  - destruct b; simpl in *.
    + destruct u as [|x u]; [discriminate|]. simpl.
      rewrite Nat.eqb_refl. f_equal.
      * assert (Hz : forall w, dot (select mask
                        (map (fun j => if Nat.eqb s j then 1 else 0)
                             (seq (S s) (length mask)))) w = 0).
        { intros w.
          replace (map (fun j => if Nat.eqb s j then 1 else 0)
                       (seq (S s) (length mask)))
            with (map (fun _ : nat => 0) (seq (S s) (length mask))).
          - rewrite map_const_zeros, length_seq, select_zeros.
            apply dot_zeros.
          - apply map_ext_in. intros j Hj. apply in_seq in Hj.
            destruct (Nat.eqb_spec s j); [lia | reflexivity]. }
        rewrite Hz. lra.
      * transitivity
          (select mask
             (map (fun i => dot (select mask
                                   (map (fun j => if Nat.eqb i j
                                                  then 1 else 0)
                                        (seq (S s) (length mask)))) u)
                  (seq (S s) (length mask))));
          [|apply IH; now injection Hu].
        f_equal. apply map_ext_in. intros i Hi. apply in_seq in Hi.
        destruct (Nat.eqb_spec i s); [lia|]. lra.
    + exact (IH (S s) u Hu).
Qed.

End Projections.

(** [Pac] on a well-sized mask, with every fact the later results use. *)
Lemma Pac_selects (rm : RegularizationMesh) (v : vec) :
  mask_ok rm ->
  length v = nC (rm_mesh rm) ->
  exists P,
    Pac rm = Ok P
    /\ nrows P = nC (rm_mesh rm)
    /\ ncols P = regmesh_nC rm
    /\ matvec (transpose P) v
       = match rm_indActive rm with
         | None => v
         | Some mask => select mask v
         end
    /\ length (matvec (transpose P) v) = regmesh_nC rm.
Proof.
  intros Hmask Hv. unfold mask_ok, Pac, regmesh_nC in *.
  destruct (rm_indActive rm) as [mask|].
  - rewrite <- Hmask in *.
    destruct (select_cols_speye mask) as [P [HP [_ [Hr [Hc [_ Hsel]]]]]].
    exists P. repeat (split; [assumption|]).
    split; [now apply Hsel|].
    now rewrite length_matvec, nrows_transpose.
  - exists (speye (nC (rm_mesh rm))).
    split; [reflexivity|]. split; [apply nrows_speye|].
    split; [reflexivity|].
    split; [now rewrite transpose_speye, <- Hv, matvec_speye|].
    now rewrite length_matvec, nrows_transpose.
Qed.

(** [Pac] of an adapter whose mask has one entry per cell: it has one row
    per mesh cell and one column per active cell, and its transpose
    restricts a vector on the mesh to the active cells ([Pac.T * v] is
    [v[indActive]], or [v] itself without a mask). *)
Theorem Pac_restricts_to_active_cells :
  forall (rm : RegularizationMesh) (v : vec),
    mask_ok rm ->
    length v = nC (rm_mesh rm) ->
    exists P,
      Pac rm = Ok P
      /\ nrows P = nC (rm_mesh rm)
      /\ ncols P = regmesh_nC rm
      /\ matvec (transpose P) v
         = match rm_indActive rm with
           | None => v
           | Some mask => select mask v
           end.
Proof.
  intros rm v. unfold mask_ok, Pac, regmesh_nC.
  destruct (rm_indActive rm) as [mask|]; intros Hmask Hv.
  - rewrite <- Hmask in *.
    destruct (select_cols_speye mask) as [P [HP [_ [Hr [Hc [_ Hsel]]]]]].
    exists P. repeat (split; [assumption|]). now apply Hsel.
  - exists (speye (nC (rm_mesh rm))).
    split; [reflexivity|]. split; [apply nrows_speye|].
    split; [reflexivity|].
    now rewrite transpose_speye, <- Hv, matvec_speye.
Qed.

Lemma Pac_restricts_to_active_cells_witness :
  exists P,
    Pac {| rm_mesh := mesh1d 4;
           rm_indActive := Some [true; true; false; true];
           rm_vol := None |} = Ok P
    /\ nrows P = 4%nat /\ ncols P = 3%nat
    /\ matvec (transpose P) [10; 20; 30; 40] = [10; 20; 40].
Proof.
  exact (@Pac_restricts_to_active_cells
           {| rm_mesh := mesh1d 4;
              rm_indActive := Some [true; true; false; true];
              rm_vol := None |} [10; 20; 30; 40] eq_refl eq_refl).
Defined.

(** Scattering and restricting: [Pac.T * (Pac * u) = u] for every vector
    [u] on the active cells, so the columns of [Pac] are distinct unit
    vectors. *)
Theorem Pac_scatter_then_restrict :
  forall (rm : RegularizationMesh) (u : vec),
    mask_ok rm ->
    length u = regmesh_nC rm ->
    exists P,
      Pac rm = Ok P
      /\ mat_vec P u = Ok (matvec P u)
      /\ mat_vec (transpose P) (matvec P u) = Ok u.
Proof.
  intros rm u. unfold mask_ok, Pac, regmesh_nC.
  destruct (rm_indActive rm) as [mask|]; intros Hmask Hu.
  - rewrite <- Hmask.
    destruct (select_cols_speye mask) as [P [HP [_ [Hr [Hc [Hrows Hsel]]]]]].
    exists P. split; [assumption|]. unfold mat_vec.
    rewrite Hc, Hu, Nat.eqb_refl. split; [reflexivity|].
    rewrite ncols_transpose, length_matvec, Nat.eqb_refl. f_equal.
    rewrite Hsel by now rewrite length_matvec.
    unfold matvec. rewrite Hrows. unfold speye. simpl.
    rewrite !map_map.
    exact (@select_scatter mask 0%nat u Hu).
  - exists (speye (nC (rm_mesh rm))). split; [reflexivity|].
    unfold mat_vec. rewrite ncols_speye, Hu, Nat.eqb_refl.
    split; [reflexivity|].
    rewrite ncols_transpose, length_matvec, Nat.eqb_refl. f_equal.
    rewrite transpose_speye, <- Hu. now rewrite !matvec_speye.
Qed.

Lemma Pac_scatter_then_restrict_witness :
  exists P,
    Pac {| rm_mesh := mesh1d 4;
           rm_indActive := Some [true; true; false; true];
           rm_vol := None |} = Ok P
    /\ mat_vec P [7; 8; 9] = Ok (matvec P [7; 8; 9])
    /\ mat_vec (transpose P) (matvec P [7; 8; 9]) = Ok [7; 8; 9].
Proof.
  exact (@Pac_scatter_then_restrict
           {| rm_mesh := mesh1d 4;
              rm_indActive := Some [true; true; false; true];
              rm_vol := None |} [7; 8; 9] eq_refl eq_refl).
Defined.

(** [vol] on an adapter that has not cached it yet: the array it returns
    holds the volumes of the active cells ([mesh.vol[indActive]], or
    [mesh.vol] without a mask); it is cached, and a second read returns the
    same array without touching the store. *)
Theorem vol_is_active_cell_volumes :
  forall (rm : RegularizationMesh) (st : Store),
    mask_ok rm ->
    length (mesh_vol (rm_mesh rm)) = nC (rm_mesh rm) ->
    rm_vol rm = None ->
    exists r rm' st',
      vol rm st = Ok (r, rm', st')
      /\ deref st' r
         = match rm_indActive rm with
           | None => mesh_vol (rm_mesh rm)
           | Some mask => select mask (mesh_vol (rm_mesh rm))
           end
      /\ length (deref st' r) = regmesh_nC rm
      /\ rm_vol rm' = Some r
      /\ vol rm' st' = Ok (r, rm', st').
Proof.
  intros rm st Hmask Hlen Hnone.
  destruct (@Pac_selects rm (mesh_vol (rm_mesh rm)) Hmask Hlen)
    as [P [HP [Hr [Hc [Hsel Hn]]]]].
  unfold vol. rewrite Hnone, HP. simpl.
  unfold mat_vec. rewrite ncols_transpose, Hr, Hlen, Nat.eqb_refl. simpl.
  do 3 eexists. split; [reflexivity|].
  unfold deref. rewrite app_nth2 by lia. rewrite Nat.sub_diag. simpl.
  split; [assumption|]. split; [assumption|].
  split; reflexivity.
Qed.

Lemma vol_is_active_cell_volumes_witness :
  exists r rm' st',
    vol {| rm_mesh := mesh1d 4;
           rm_indActive := Some [true; true; false; true];
           rm_vol := None |} [] = Ok (r, rm', st')
    /\ deref st' r = [1; 1; 1]
    /\ vol rm' st' = Ok (r, rm', st').
Proof.
  destruct (@vol_is_active_cell_volumes
              {| rm_mesh := mesh1d 4;
                 rm_indActive := Some [true; true; false; true];
                 rm_vol := None |} [] eq_refl eq_refl eq_refl)
    as [r [rm' [st' [H1 [H2 [_ [_ H3]]]]]]].
  exists r, rm', st'. split; [exact H1|]. split; [exact H2 | exact H3].
Defined.

(** ** Shapes of the reduced operators *)

Section ReducedShapes.

Lemma mat_mul_ok (A B : matrix) :
  ncols A = nrows B -> mat_mul A B = Ok (mmul A B).
Proof. intros H. unfold mat_mul. now rewrite H, Nat.eqb_refl. Qed.

Lemma mat_vec_ok (A : matrix) (v : vec) :
  ncols A = length v -> mat_vec A v = Ok (matvec A v).
Proof. intros H. unfold mat_vec. now rewrite H, Nat.eqb_refl. Qed.

Lemma select_cols_ok (M : matrix) (mask : list bool) :
  length mask = ncols M ->
  exists P, select_cols M mask = Ok P
            /\ nrows P = nrows M /\ ncols P = count_true mask.
Proof.
  intros H. unfold select_cols. cbv zeta.
  rewrite true_indices_in_range by (rewrite H; apply le_n).
  eexists. split; [reflexivity|].
  split; [unfold nrows; simpl; apply length_map|].
  simpl. apply length_true_indices.
Qed.

Lemma length_mask_to_vec (mask : list bool) :
  length (mask_to_vec mask) = length mask.
Proof. apply length_map. Qed.

Variables (rm : RegularizationMesh) (o : orientation).

Hypothesis Hmask : mask_ok rm.
Hypothesis Hmesh : mesh_shapes_ok (rm_mesh rm) o.

Lemma Pac_shape :
  exists P, Pac rm = Ok P
            /\ nrows P = nC (rm_mesh rm) /\ ncols P = regmesh_nC rm.
Proof.
  unfold Pac, regmesh_nC. unfold mask_ok in Hmask.
  destruct (rm_indActive rm) as [mask|].
  - destruct (@select_cols_ok (speye (nC (rm_mesh rm))) mask Hmask)
      as [P [HP [Hr Hc]]].
    exists P. rewrite nrows_speye in Hr. auto.
  - exists (speye (nC (rm_mesh rm))).
    split; [reflexivity|]. split; [apply nrows_speye | reflexivity].
Qed.

Lemma Paf_shape :
  exists F, Paf o rm = Ok F
            /\ nrows F = nF (rm_mesh rm) o /\ ncols F = regmesh_nF o rm.
Proof.
  destruct Hmesh as [_ [Hr [Hc _]]].
  unfold Paf, regmesh_nF, active_faces. unfold mask_ok in Hmask.
  destruct (rm_indActive rm) as [mask|].
  - rewrite mat_vec_ok
      by now rewrite ncols_transpose, length_mask_to_vec, Hr.
    simpl.
    destruct (@select_cols_ok (speye (nF (rm_mesh rm) o))
                (map (fun u => Reqb u 1)
                     (matvec (transpose (mesh_aveF2CC (rm_mesh rm) o))
                             (mask_to_vec mask))))
      as [F [HF [HFr HFc]]].
    { now rewrite length_map, length_matvec, nrows_transpose, ncols_speye. }
    exists F. rewrite nrows_speye in HFr. auto.
  - exists (speye (nF (rm_mesh rm) o)).
    split; [reflexivity|]. split; [apply nrows_speye | reflexivity].
Qed.

Lemma aveF2CC_shape :
  exists A, aveF2CC o rm = Ok A
            /\ nrows A = regmesh_nC rm /\ ncols A = regmesh_nF o rm.
Proof.
  destruct Pac_shape as [P [HP [HPr HPc]]].
  destruct Paf_shape as [F [HF [HFr HFc]]].
  destruct Hmesh as [_ [Har [Hac _]]].
  unfold aveF2CC. rewrite HP, HF. cbn [bind].
  rewrite mat_mul_ok by now rewrite ncols_transpose, HPr, Har.
  cbn [bind].
  rewrite mat_mul_ok by now rewrite ncols_mmul, Hac, HFr.
  eexists. split; [reflexivity|].
  split; [now rewrite !nrows_mmul, nrows_transpose | exact HFc].
Qed.

Lemma aveCC2F_shape :
  exists C, aveCC2F o rm = Ok C
            /\ nrows C = regmesh_nF o rm /\ ncols C = regmesh_nC rm.
Proof.
  destruct aveF2CC_shape as [A [HA [HAr HAc]]].
  unfold aveCC2F. rewrite HA. cbn [bind]. cbv zeta.
  rewrite mat_mul_ok.
  2:{ unfold sdiag, row_sums, nrows. cbn [ncols].
      now rewrite !length_map. }
  eexists. split; [reflexivity|]. split.
  - rewrite nrows_mmul, nrows_sdiag. unfold row_sums.
    rewrite !length_map. fold (nrows (transpose A)).
    now rewrite nrows_transpose.
  - now rewrite ncols_mmul, ncols_transpose.
Qed.

Lemma cellDiff_shape :
  exists G, cellDiff o rm = Ok G
            /\ nrows G = regmesh_nF o rm /\ ncols G = regmesh_nC rm.
Proof.
  destruct Pac_shape as [P [HP [HPr HPc]]].
  destruct Paf_shape as [F [HF [HFr HFc]]].
  destruct Hmesh as [_ [_ [_ [Hgr [Hgc _]]]]].
  unfold cellDiff. rewrite HP, HF. cbn [bind].
  rewrite mat_mul_ok by now rewrite ncols_transpose, HFr, Hgr.
  cbn [bind].
  rewrite mat_mul_ok by now rewrite ncols_mmul, Hgc, HPr.
  eexists. split; [reflexivity|].
  split; [now rewrite !nrows_mmul, nrows_transpose | exact HPc].
Qed.

Lemma faceDiff_shape :
  exists D, faceDiff o rm = Ok D
            /\ nrows D = regmesh_nC rm /\ ncols D = regmesh_nF o rm.
Proof.
  destruct Pac_shape as [P [HP [HPr HPc]]].
  destruct Paf_shape as [F [HF [HFr HFc]]].
  destruct Hmesh as [_ [_ [_ [_ [_ [Hdr [Hdc _]]]]]]].
  unfold faceDiff. rewrite HP, HF. cbn [bind].
  rewrite mat_mul_ok by now rewrite ncols_transpose, HPr, Hdr.
  cbn [bind].
  rewrite mat_mul_ok by now rewrite ncols_mmul, Hdc, HFr.
  eexists. split; [reflexivity|].
  split; [now rewrite !nrows_mmul, nrows_transpose | exact HFc].
Qed.

(** The stencil exists from the axis's dimensionality on; the x property
    has no dimensionality test. *)
Lemma cellDiffStencil_shape :
  exists S,
    cellDiffStencil o rm
    = match o with
      | Ox => Ok (Some S)
      | _ => if (regmesh_dim rm <? min_dim o)%nat then Ok None
             else Ok (Some S)
      end
    /\ nrows S = regmesh_nF o rm /\ ncols S = regmesh_nC rm.
Proof.
  destruct Pac_shape as [P [HP [HPr HPc]]].
  destruct Paf_shape as [F [HF [HFr HFc]]].
  destruct Hmesh as [_ [_ [_ [_ [_ [_ [_ [Hsr Hsc]]]]]]]].
  unfold cellDiffStencil. rewrite HP, HF. cbn [bind].
  rewrite mat_mul_ok by now rewrite ncols_transpose, HFr, Hsr.
  cbn [bind].
  rewrite mat_mul_ok by now rewrite ncols_mmul, Hsc, HPr.
  cbn [bind].
  eexists. split; [reflexivity|].
  split; [now rewrite !nrows_mmul, nrows_transpose | exact HPc].
Qed.

End ReducedShapes.

(** The reduced operators have the reduced shapes: on an axis where the
    mesh's operators are well-shaped, with a mask of one entry per cell (or
    none), every averaging and differencing operator of the adapter is built
    without error, mapping between the active cells and the active faces.
    The stencil of the y and z axes is absent below their dimensionality. *)
Theorem adapter_operators_have_reduced_shapes :
  forall (rm : RegularizationMesh) (o : orientation),
    mask_ok rm ->
    mesh_shapes_ok (rm_mesh rm) o ->
    exists A C G D S,
      aveF2CC o rm = Ok A
      /\ nrows A = regmesh_nC rm /\ ncols A = regmesh_nF o rm
      /\ aveCC2F o rm = Ok C
      /\ nrows C = regmesh_nF o rm /\ ncols C = regmesh_nC rm
      /\ cellDiff o rm = Ok G
      /\ nrows G = regmesh_nF o rm /\ ncols G = regmesh_nC rm
      /\ faceDiff o rm = Ok D
      /\ nrows D = regmesh_nC rm /\ ncols D = regmesh_nF o rm
      /\ cellDiffStencil o rm
         = match o with
           | Ox => Ok (Some S)
           | _ => if (regmesh_dim rm <? min_dim o)%nat then Ok None
                  else Ok (Some S)
           end
      /\ nrows S = regmesh_nF o rm /\ ncols S = regmesh_nC rm.
Proof.
  intros rm o Hmask Hmesh.
  destruct (@aveF2CC_shape rm o Hmask Hmesh) as [A [HA [HAr HAc]]].
  destruct (@aveCC2F_shape rm o Hmask Hmesh) as [C [HC [HCr HCc]]].
  destruct (@cellDiff_shape rm o Hmask Hmesh) as [G [HG [HGr HGc]]].
  destruct (@faceDiff_shape rm o Hmask Hmesh) as [D [HD [HDr HDc]]].
  destruct (@cellDiffStencil_shape rm o Hmask Hmesh) as [S [HS [HSr HSc]]].
  exists A, C, G, D, S. repeat (split; [assumption|]). assumption.
Qed.

Lemma mesh1d_shapes_ok (n : nat) : mesh_shapes_ok (mesh1d n) Ox.
Proof.
  unfold mesh_shapes_ok, mesh1d, matrix_of, nrows, ones. simpl.
  rewrite repeat_length, !length_map, !length_seq. repeat split.
Qed.

Lemma adapter_operators_have_reduced_shapes_witness :
  exists G S,
    cellDiff Ox {| rm_mesh := mesh1d 4;
                   rm_indActive := Some [true; true; false; true];
                   rm_vol := None |} = Ok G
    /\ ncols G = 3%nat
    /\ cellDiffStencil Ox {| rm_mesh := mesh1d 4;
                             rm_indActive := Some [true; true; false; true];
                             rm_vol := None |} = Ok (Some S)
    /\ ncols S = 3%nat.
Proof.
  destruct (@adapter_operators_have_reduced_shapes
              {| rm_mesh := mesh1d 4;
                 rm_indActive := Some [true; true; false; true];
                 rm_vol := None |} Ox eq_refl (mesh1d_shapes_ok 4))
    as (A & C & G & D & S & _ & _ & _ & _ & _ & _ & HG & _ & HGc
        & _ & _ & _ & HS & _ & HSc).
  exists G, S. repeat (split; [assumption|]). assumption.
Defined.

(** Without an active set the projections are identities, so the reduced
    operators are the mesh's own: the averaging, the cell difference, the
    face difference and (for an axis the mesh has) the stencil are returned
    unchanged.  The mesh's operators have the shapes of the mesh package and
    rows of their declared width. *)
Theorem no_active_set_gives_native_operators :
  forall (rm : RegularizationMesh) (o : orientation),
    rm_indActive rm = None ->
    mesh_shapes_ok (rm_mesh rm) o ->
    wf_matrix (mesh_aveF2CC (rm_mesh rm) o) ->
    wf_matrix (cellGrad (rm_mesh rm) o) ->
    wf_matrix (faceDiv (rm_mesh rm) o) ->
    wf_matrix (cellGradStencil (rm_mesh rm) o) ->
    aveF2CC o rm = Ok (mesh_aveF2CC (rm_mesh rm) o)
    /\ cellDiff o rm = Ok (cellGrad (rm_mesh rm) o)
    /\ faceDiff o rm = Ok (faceDiv (rm_mesh rm) o)
    /\ ((min_dim o <= regmesh_dim rm)%nat ->
        cellDiffStencil o rm = Ok (Some (cellGradStencil (rm_mesh rm) o))).
Proof.
  intros rm o Hnone
         [_ [Har [Hac [Hgr [Hgc [Hdr [Hdc [Hsr Hsc]]]]]]]] Ha Hg Hd Hs.
  assert (Hsandwich : forall M l r,
             wf_matrix M -> nrows M = l -> ncols M = r ->
             (do t <- mat_mul (transpose (speye l)) M; mat_mul t (speye r))
             = Ok M).
  { intros M l r Hwf <- <-. rewrite transpose_speye.
    rewrite mat_mul_ok by apply ncols_speye. cbn [bind].
    rewrite mmul_speye_l by assumption.
    rewrite mat_mul_ok by now rewrite nrows_speye.
    now rewrite mmul_speye_r. }
  unfold aveF2CC, cellDiff, faceDiff, cellDiffStencil, Pac, Paf.
  rewrite Hnone. cbn [bind].
  split; [now apply Hsandwich|]. split; [now apply Hsandwich|].
  split; [now apply Hsandwich|].
  intros Hdim.
  assert (Hbuild :
            (do t <- mat_mul (transpose (speye (nF (rm_mesh rm) o)))
                             (cellGradStencil (rm_mesh rm) o);
             do S <- mat_mul t (speye (nC (rm_mesh rm))); Ok (Some S))
            = Ok (Some (cellGradStencil (rm_mesh rm) o))).
  { pose proof (Hsandwich _ _ _ Hs Hsr Hsc) as H.
    destruct (mat_mul (transpose (speye (nF (rm_mesh rm) o)))
                      (cellGradStencil (rm_mesh rm) o)) as [t|];
      cbn [bind] in *; [|discriminate].
    now rewrite H. }
  destruct o; [exact Hbuild| |];
    (replace (regmesh_dim rm <? _)%nat with false
      by (symmetry; apply Nat.ltb_ge; exact Hdim)); exact Hbuild.
Qed.

Lemma no_active_set_gives_native_operators_witness :
  cellDiff Ox {| rm_mesh := mesh1d 2; rm_indActive := None; rm_vol := None |}
  = Ok (cellGrad (mesh1d 2) Ox)
  /\ cellDiffStencil Ox {| rm_mesh := mesh1d 2; rm_indActive := None;
                           rm_vol := None |}
     = Ok (Some (cellGradStencil (mesh1d 2) Ox)).
Proof.
  assert (Hwf : forall f nr nc, wf_matrix (matrix_of nr nc f)).
  { intros f nr nc. unfold wf_matrix, matrix_of. simpl.
    apply Forall_forall. intros r Hr. apply in_map_iff in Hr.
    destruct Hr as [i [<- _]]. now rewrite length_map, length_seq. }
  destruct (@no_active_set_gives_native_operators
              {| rm_mesh := mesh1d 2; rm_indActive := None; rm_vol := None |}
              Ox eq_refl (mesh1d_shapes_ok 2)
              (Hwf _ _ _) (Hwf _ _ _) (Hwf _ _ _) (Hwf _ _ _))
    as [_ [HG [_ HS]]].
  split; [exact HG|]. apply HS. exact (le_n 1).
Defined.

Section ShortMask.

Lemma true_indices_app_false (mask : list bool) (k : nat) :
  forall s, true_indices s (mask ++ repeat false k) = true_indices s mask.
Proof.
  induction mask as [|b mask IH]; intros s; simpl.
  - revert s. induction k as [|k IHk]; intros s; simpl; auto.
  - now rewrite IH.
Qed.

Lemma count_true_app_false (mask : list bool) (k : nat) :
  count_true (mask ++ repeat false k) = count_true mask.
Proof. now rewrite <- !(length_true_indices _ 0%nat), true_indices_app_false. Qed.

Lemma select_app_false {A : Type} (mask : list bool) (k : nat) :
  forall l : list A, select (mask ++ repeat false k) l = select mask l.
Proof.
  induction mask as [|b mask IH]; intros l; simpl.
  - revert l. induction k as [|k IHk]; intros [|x l]; simpl; auto.
  - destruct l as [|x l]; [reflexivity|]. now rewrite IH.
Qed.

End ShortMask.

(** A mask shorter than the mesh's cell count is accepted, its missing
    entries being read as inactive: [Pac] has one row per mesh cell and one
    column per true entry, [Pac.T * v] keeps the entries of [v] at the true
    positions, and [vol] returns the volumes of those cells. *)
Theorem short_mask_is_read_as_padded :
  forall (rm : RegularizationMesh) (mask : list bool) (st : Store),
    rm_indActive rm = Some mask ->
    (length mask <= nC (rm_mesh rm))%nat ->
    length (mesh_vol (rm_mesh rm)) = nC (rm_mesh rm) ->
    rm_vol rm = None ->
    exists P r rm' st',
      Pac rm = Ok P
      /\ nrows P = nC (rm_mesh rm)
      /\ ncols P = count_true mask
      /\ regmesh_nC rm = count_true mask
      /\ (forall v, length v = nC (rm_mesh rm) ->
            matvec (transpose P) v = select mask v)
      /\ vol rm st = Ok (r, rm', st')
      /\ deref st' r = select mask (mesh_vol (rm_mesh rm)).
Proof.
  intros rm mask st Hmask Hlen Hvol Hnone.
  set (k := (nC (rm_mesh rm) - length mask)%nat).
  assert (Hpad : length (mask ++ repeat false k) = nC (rm_mesh rm)).
  { rewrite length_app, repeat_length. unfold k. lia. }
  destruct (select_cols_speye (mask ++ repeat false k))
    as [P [HP [_ [Hr [Hc [_ Hsel]]]]]].
  rewrite Hpad in HP, Hr, Hsel. rewrite count_true_app_false in Hc.
  assert (HPac : Pac rm = Ok P).
  { unfold Pac. rewrite Hmask. rewrite <- HP. unfold select_cols.
    now rewrite true_indices_app_false. }
  assert (Hv : forall v, length v = nC (rm_mesh rm) ->
                 matvec (transpose P) v = select mask v).
  { intros v Hlv. rewrite (Hsel v Hlv). apply select_app_false. }
  assert (Hprod : mat_vec (transpose P) (mesh_vol (rm_mesh rm))
                  = Ok (select mask (mesh_vol (rm_mesh rm)))).
  { unfold mat_vec. rewrite ncols_transpose, Hr, Hvol, Nat.eqb_refl.
    now rewrite (Hv _ Hvol). }
  exists P. unfold vol. rewrite Hnone, HPac. cbn [bind].
  rewrite Hprod. cbn [bind].
  do 3 eexists. split; [reflexivity|].
  split; [exact Hr|]. split; [exact Hc|].
  split; [unfold regmesh_nC; now rewrite Hmask|].
  split; [exact Hv|]. split; [reflexivity|].
  unfold deref. rewrite app_nth2 by lia. now rewrite Nat.sub_diag.
Qed.

Lemma short_mask_is_read_as_padded_witness :
  exists P r rm' st',
    Pac {| rm_mesh := mesh1d 4; rm_indActive := Some [true; false];
           rm_vol := None |} = Ok P
    /\ rows P = [[1]; [0]; [0]; [0]]
    /\ vol {| rm_mesh := mesh1d 4; rm_indActive := Some [true; false];
              rm_vol := None |} [] = Ok (r, rm', st')
    /\ deref st' r = [1].
Proof.
  destruct (@short_mask_is_read_as_padded
              {| rm_mesh := mesh1d 4; rm_indActive := Some [true; false];
                 rm_vol := None |} [true; false] [] eq_refl
              (le_S _ _ (le_S _ _ (le_n 2))) eq_refl eq_refl)
    as (P & r & rm' & st' & HP & _ & _ & _ & _ & Hvol & Hd).
  exists P, r, rm', st'. split; [exact HP|].
  split; [cbn in HP; injection HP as <-; reflexivity|].
  split; [exact Hvol | exact Hd].
Defined.

(** ** Terms built on a mesh *)

Section OnMesh.

Variables (cls : Attrs) (mesh : Mesh) (kw : list kwarg).

Hypothesis Hactive : active_set_ok mesh (setKwargs cls kw).

(** The object that the base constructor returns on a mesh. *)
Lemma BaseRegularization_init_on_mesh :
  exists obj,
    BaseRegularization_init cls (Some mesh) None kw = Ok obj
    /\ reg_regmesh obj = Some (fresh_adapter mesh (setKwargs cls kw))
    /\ mask_ok (fresh_adapter mesh (setKwargs cls kw))
    /\ keeps_settings (setKwargs cls kw) (reg_attrs obj)
    /\ mapping (reg_attrs obj)
       = Some (mapping_on_mesh mesh (setKwargs cls kw))
    /\ reg_nP obj = map_nP (mapping_on_mesh mesh (setKwargs cls kw))
    /\ reg_W obj = match find_W kw with Some w => w | None => Identity end
    /\ reg_Wz obj = None.
Proof.
  revert Hactive.
  unfold BaseRegularization_init, L2ObjectiveFunction_init, active_set_ok,
    fresh_adapter, mapping_on_mesh, mask_ok, bool_mask, keeps_settings,
    regmesh_nC.
  generalize (setKwargs cls kw) as a0. intros a0.
  destruct a0 as [mp mr ia cw mis als alx aly alz ep eq md ga nm nms ori].
  simpl. destruct ia as [[mask|idx]|]; simpl; intros Hok;
    [| contradiction |];
    destruct mp; simpl; eexists; repeat split; assumption.
Qed.

End OnMesh.

Section SmoothTerms.

Lemma setattr_mref (a : Attrs) (v : mref_t) :
  mref (setattr a (kw_mref v)) = v
  /\ mapping (setattr a (kw_mref v)) = mapping a
  /\ cell_weights (setattr a (kw_mref v)) = cell_weights a.
Proof. destruct a. repeat split. Qed.

Lemma stencil_present (rm : RegularizationMesh) (o : orientation) :
  mask_ok rm ->
  mesh_shapes_ok (rm_mesh rm) o ->
  (min_dim o <= regmesh_dim rm)%nat ->
  exists S, cellDiffStencil o rm = Ok (Some S)
            /\ nrows S = regmesh_nF o rm /\ ncols S = regmesh_nC rm.
Proof.
  intros Hmask Hmesh Hdim.
  destruct (@cellDiffStencil_shape rm o Hmask Hmesh) as [S [HS Hshape]].
  exists S. split; [|exact Hshape]. rewrite HS.
  destruct o; [reflexivity| |];
    (replace (regmesh_dim rm <? _)%nat with false
      by (symmetry; apply Nat.ltb_ge; exact Hdim)); reflexivity.
Qed.

End SmoothTerms.

(** A first-derivative term without length scales, built on a mesh that
    has the axis: construction succeeds; [W] is the adapter's stencil, with
    one column per active cell; the reference model is dropped unless
    [mrefInSmooth] is set; and with the default mapping the term has
    [nP] = number of active cells and its value at every model of that
    length is [0.5 * |W m|^2], whatever reference model was passed. *)
Theorem SimpleSmooth_term_on_mesh :
  forall (cls : Attrs) (mesh : Mesh) (o : orientation) (kw : list kwarg),
    let a0 := setKwargs cls kw in
    let rm := fresh_adapter mesh a0 in
    active_set_ok mesh a0 ->
    mesh_shapes_ok mesh o ->
    (min_dim o <= dim mesh)%nat ->
    exists obj S,
      BaseSimpleSmooth_init cls mesh o kw = Ok obj
      /\ cellDiffStencil o rm = Ok (Some S)
      /\ reg_W obj = Mat S
      /\ ncols S = regmesh_nC rm
      /\ mref (reg_attrs obj) = (if mrefInSmooth a0 then mref a0 else Zero)
      /\ (mapping a0 = None ->
          reg_nP obj = Some (regmesh_nC rm)
          /\ (mrefInSmooth a0 = false ->
              forall m, length m = regmesh_nC rm ->
                BaseRegularization_eval obj m
                = Ok (0.5 * sumsq (matvec S m)))).
Proof.
  intros cls mesh o kw a0 rm Hactive Hmesh Hdim.
  destruct (@BaseRegularization_init_on_mesh cls mesh kw Hactive)
    as (obj0 & Hinit & Hrm & Hmask & Hkeep & Hmap & HnP & _).
  fold a0 in Hrm, Hmask, Hkeep, Hmap, HnP. fold rm in Hrm, Hmask.
  destruct (@stencil_present rm o Hmask Hmesh Hdim) as [S [HS [_ HSc]]].
  destruct Hkeep as [Hmref [Hmis _]].
  unfold BaseSimpleSmooth_init. rewrite Hinit. cbn [bind].
  unfold get_regmesh. rewrite Hrm. cbn [bind]. rewrite HS. cbn [bind].
  cbn [set_W reg_attrs linop_of_option]. rewrite Hmis.
  destruct (mrefInSmooth a0) eqn:Emis.
  - eexists. exists S. split; [reflexivity|].
    cbn. repeat (split; [first [reflexivity | assumption]|]).
    intros Hnone. unfold mapping_on_mesh in HnP. rewrite Hnone in HnP.
    split; [exact HnP | discriminate].
  - eexists. exists S. split; [reflexivity|].
    destruct (setattr_mref (reg_attrs obj0) Zero) as [Hz [Hmp' _]].
    cbn [set_attrs reg_attrs reg_W reg_nP].
    repeat (split; [first [reflexivity | assumption]|]).
    intros Hnone. unfold mapping_on_mesh in HnP, Hmap.
    rewrite Hnone in HnP, Hmap.
    split; [exact HnP|]. intros _ m Hm.
    unfold BaseRegularization_eval, get_mapping.
    cbn [set_attrs reg_attrs reg_W].
    rewrite Hz, Hmp', Hmap. cbn.
    unfold mat_vec. rewrite HSc, Hm, Nat.eqb_refl. cbn.
    now rewrite dot_sumsq.
Qed.

Lemma SimpleSmooth_term_on_mesh_witness :
  exists obj S,
    BaseSimpleSmooth_init SimpleSmooth_cls (mesh1d 4) Ox
      [kw_indActive (BoolArr [true; true; false; true]);
       kw_mref (Arr [5; 5; 5])] = Ok obj
    /\ reg_W obj = Mat S
    /\ ncols S = 3%nat
    /\ mref (reg_attrs obj) = Zero
    /\ reg_nP obj = Some 3%nat
    /\ BaseRegularization_eval obj [1; 2; 4]
       = Ok (0.5 * sumsq (matvec S [1; 2; 4])).
Proof.
  destruct (@SimpleSmooth_term_on_mesh SimpleSmooth_cls (mesh1d 4) Ox
              [kw_indActive (BoolArr [true; true; false; true]);
               kw_mref (Arr [5; 5; 5])]
              eq_refl (mesh1d_shapes_ok 4) (le_n 1))
    as (obj & S & Hrun & _ & HW & HSc & Hmref & Hrest).
  destruct (Hrest eq_refl) as [HnP Heval].
  exists obj, S. repeat (split; [assumption|]).
  exact (Heval eq_refl [1; 2; 4] eq_refl).
Defined.

(** ** Terms that read the cached volume *)

Section VolumeTerms.

Lemma deref_alloc (st : Store) (v : vec) : deref (st ++ [v]) (length st) = v.
Proof.
  unfold deref. rewrite app_nth2 by lia. now rewrite Nat.sub_diag.
Qed.

Lemma deref_store_set (st : Store) (r : ref) (v : vec) :
  (r < length st)%nat -> deref (store_set st r v) r = v.
Proof.
  unfold deref. revert r. induction st as [|u st IH]; intros [|r] H;
    simpl in *; try lia; [reflexivity|]. apply IH. lia.
Qed.

Lemma elementwise_mismatch (f : R -> R -> R) (a b : vec) :
  length a <> length b -> length a <> 1%nat -> length b <> 1%nat ->
  elementwise f a b = Raise ValueError.
Proof.
  intros Hab Ha Hb. unfold elementwise.
  destruct (Nat.eqb_spec (length a) (length b)) as [E|_]; [contradiction|].
  destruct a as [|x [|y a]], b as [|z [|w b]]; simpl in *;
    try reflexivity; try contradiction.
Qed.

Variable rm : RegularizationMesh.

Hypothesis Hmask : mask_ok rm.
Hypothesis Hvol : length (mesh_vol (rm_mesh rm)) = nC (rm_mesh rm).
Hypothesis Hnone : rm_vol rm = None.

Lemma length_reduced_vol : length (reduced_vol rm) = regmesh_nC rm.
Proof.
  destruct (@Pac_selects rm (mesh_vol (rm_mesh rm)) Hmask Hvol)
    as [P [_ [_ [_ [Hsel Hn]]]]].
  unfold reduced_vol. now rewrite <- Hsel.
Qed.

(** The first read of [vol] allocates the reduced volumes and caches the
    reference. *)
Lemma vol_fresh (st : Store) :
  vol rm st
  = Ok (length st, with_vol rm (length st), st ++ [reduced_vol rm]).
Proof.
  destruct (@Pac_selects rm (mesh_vol (rm_mesh rm)) Hmask Hvol)
    as [P [HP [Hr [_ [Hsel _]]]]].
  unfold vol. rewrite Hnone, HP. cbn [bind].
  rewrite mat_vec_ok by now rewrite ncols_transpose, Hr.
  cbn [bind alloc]. unfold reduced_vol, with_vol. now rewrite Hsel.
Qed.

End VolumeTerms.

(** A first-derivative term with length scales and cell weights: the
    weights averaged to the faces are multiplied element by element with the
    cell volumes, so on every axis whose numbers of active faces and active
    cells differ (and neither is one) construction raises. *)
Theorem Smooth_with_cell_weights_raises :
  forall (cls : Attrs) (mesh : Mesh) (o : orientation) (kw : list kwarg)
         (st : Store) (cw : vec),
    let a0 := setKwargs cls kw in
    let rm := fresh_adapter mesh a0 in
    active_set_ok mesh a0 ->
    mesh_shapes_ok mesh o ->
    cell_weights a0 = Some cw ->
    regmesh_nF o rm <> regmesh_nC rm ->
    regmesh_nF o rm <> 1%nat ->
    regmesh_nC rm <> 1%nat ->
    BaseSmooth_init cls mesh o kw st = Raise ValueError.
Proof.
  intros cls mesh o kw st cw a0 rm Hactive Hmesh Hcw Hne HF1 HC1.
  destruct (@BaseRegularization_init_on_mesh cls mesh kw Hactive)
    as (obj0 & Hinit & Hrm & Hmask & Hkeep & _).
  fold a0 in Hrm, Hmask, Hkeep. fold rm in Hrm, Hmask.
  destruct Hkeep as [_ [_ [Hcw' _]]]. rewrite Hcw in Hcw'.
  destruct (@aveCC2F_shape rm o Hmask Hmesh) as [ave [Have [Hr Hc]]].
  unfold BaseSmooth_init. rewrite Hinit. cbn [bind].
  unfold get_regmesh. rewrite Hrm. cbn [bind]. rewrite Have. cbn [bind].
  rewrite Hcw'. unfold mat_vec.
  destruct (Nat.eqb_spec (ncols ave) (length cw)) as [E|E]; [|reflexivity].
  cbn [bind].
  rewrite (@vol_fresh rm Hmask (proj1 Hmesh) eq_refl st). cbn [bind].
  rewrite deref_alloc.
  rewrite elementwise_mismatch; [reflexivity| | |].
  - now rewrite length_matvec, Hr, (@length_reduced_vol rm Hmask (proj1 Hmesh)).
  - now rewrite length_matvec, Hr.
  - now rewrite (@length_reduced_vol rm Hmask (proj1 Hmesh)).
Qed.

Lemma Smooth_with_cell_weights_raises_witness :
  Smooth_x_init Smooth_cls (mesh1d 2) [kw_cell_weights [2; 3]] []
  = Raise ValueError.
Proof.
  apply (@Smooth_with_cell_weights_raises Smooth_cls (mesh1d 2) Ox
           [kw_cell_weights [2; 3]] [] [2; 3] I (mesh1d_shapes_ok 2)
           eq_refl);
    simpl; discriminate.
Defined.

(** A first-derivative term with length scales and no cell weights:
    construction succeeds, [W = diag(sqrt(ave * vol)) * cellDiff] with [vol]
    the volumes of the active cells, and the adapter's cached volume is left
    as it was computed. *)
Theorem Smooth_term_on_mesh :
  forall (cls : Attrs) (mesh : Mesh) (o : orientation) (kw : list kwarg)
         (st : Store),
    let a0 := setKwargs cls kw in
    let rm := fresh_adapter mesh a0 in
    active_set_ok mesh a0 ->
    mesh_shapes_ok mesh o ->
    cell_weights a0 = None ->
    exists obj st' ave G r,
      BaseSmooth_init cls mesh o kw st = Ok (obj, st')
      /\ aveCC2F o rm = Ok ave
      /\ cellDiff o rm = Ok G
      /\ reg_W obj
         = Mat (mmul (sdiag (map sqrt (matvec ave (reduced_vol rm)))) G)
      /\ reg_regmesh obj = Some (with_vol rm r)
      /\ deref st' r = reduced_vol rm
      /\ mref (reg_attrs obj) = (if mrefInSmooth a0 then mref a0 else Zero).
Proof.
  intros cls mesh o kw st a0 rm Hactive Hmesh Hcw.
  destruct (@BaseRegularization_init_on_mesh cls mesh kw Hactive)
    as (obj0 & Hinit & Hrm & Hmask & Hkeep & _).
  fold a0 in Hrm, Hmask, Hkeep. fold rm in Hrm, Hmask.
  destruct Hkeep as [Hmref [Hmis [Hcw' _]]]. rewrite Hcw in Hcw'.
  destruct (@aveCC2F_shape rm o Hmask Hmesh) as [ave [Have [Hr Hc]]].
  destruct (@cellDiff_shape rm o Hmask Hmesh) as [G [HG [HGr HGc]]].
  unfold BaseSmooth_init. rewrite Hinit. cbn [bind].
  unfold get_regmesh. rewrite Hrm. cbn [bind]. rewrite Have. cbn [bind].
  rewrite Hcw'.
  rewrite (@vol_fresh rm Hmask (proj1 Hmesh) eq_refl st). cbn [bind].
  rewrite deref_alloc.
  rewrite mat_vec_ok
    by now rewrite Hc, (@length_reduced_vol rm Hmask (proj1 Hmesh)).
  cbn [bind].
  change (cellDiff o (with_vol rm (length st))) with (cellDiff o rm).
  rewrite HG. cbn [bind].
  rewrite mat_mul_ok.
  2:{ unfold sdiag. cbn [ncols].
      now rewrite !length_map, length_matvec, Hr, HGr. }
  cbn [bind set_W set_regmesh reg_attrs]. rewrite Hmis, map_fpow_half.
  destruct (mrefInSmooth a0);
    do 2 eexists; exists ave, G, (length st);
    (split; [reflexivity|]); (split; [reflexivity|]);
    (split; [reflexivity|]); (split; [reflexivity|]);
    (split; [reflexivity|]); (split; [apply deref_alloc|]).
  - exact Hmref.
  - apply setattr_mref.
Qed.

Lemma Smooth_term_on_mesh_witness :
  exists obj st' r,
    Smooth_x_init Smooth_cls (mesh1d 2) [kw_mref (Arr [1; 1])] []
    = Ok (obj, st')
    /\ reg_regmesh obj = Some (with_vol (fresh_adapter (mesh1d 2) Smooth_cls)
                                        r)
    /\ deref st' r = [1; 1]
    /\ mref (reg_attrs obj) = Zero.
Proof.
  destruct (@Smooth_term_on_mesh Smooth_cls (mesh1d 2) Ox
              [kw_mref (Arr [1; 1])] [] I (mesh1d_shapes_ok 2) eq_refl)
    as (obj & st' & ave & G & r & Hrun & _ & _ & _ & Hrm & Hst & Hmref).
  exists obj, st', r. split; [exact Hrun|]. split; [exact Hrm|].
  split; [exact Hst | exact Hmref].
Defined.

(** A second-derivative term: construction succeeds;
    [W = diag(sqrt(vol * cell_weights)) * faceDiff * cellDiff], square of the
    size of the active cells; the reference model is kept as passed; and
    with cell weights the adapter's cached volume holds the product
    [vol * cell_weights] afterwards. *)
Theorem Smooth2_term_on_mesh :
  forall (cls : Attrs) (mesh : Mesh) (o : orientation) (kw : list kwarg)
         (st : Store),
    let a0 := setKwargs cls kw in
    let rm := fresh_adapter mesh a0 in
    let scaled := match cell_weights a0 with
                  | Some cw => map2 Rmult (reduced_vol rm) cw
                  | None => reduced_vol rm
                  end in
    active_set_ok mesh a0 ->
    mesh_shapes_ok mesh o ->
    match cell_weights a0 with
    | Some cw => length cw = regmesh_nC rm
    | None => True
    end ->
    exists obj st' D G r Wm,
      BaseSmooth2_init cls mesh o kw st = Ok (obj, st')
      /\ faceDiff o rm = Ok D
      /\ cellDiff o rm = Ok G
      /\ Wm = mmul (mmul (sdiag (map sqrt scaled)) D) G
      /\ reg_W obj = Mat Wm
      /\ nrows Wm = regmesh_nC rm /\ ncols Wm = regmesh_nC rm
      /\ mref (reg_attrs obj) = mref a0
      /\ reg_regmesh obj = Some (with_vol rm r)
      /\ deref st' r = scaled.
Proof.
  intros cls mesh o kw st a0 rm scaled Hactive Hmesh Hcw.
  destruct (@BaseRegularization_init_on_mesh cls mesh kw Hactive)
    as (obj0 & Hinit & Hrm & Hmask & Hkeep & _).
  fold a0 in Hrm, Hmask, Hkeep. fold rm in Hrm, Hmask.
  destruct Hkeep as [Hmref [_ [Hcw' _]]].
  destruct (@faceDiff_shape rm o Hmask Hmesh) as [D [HD [HDr HDc]]].
  destruct (@cellDiff_shape rm o Hmask Hmesh) as [G [HG [HGr HGc]]].
  pose proof (@length_reduced_vol rm Hmask (proj1 Hmesh)) as Hlen.
  unfold BaseSmooth2_init. rewrite Hinit. cbn [bind].
  unfold get_regmesh. rewrite Hrm. cbn [bind].
  rewrite (@vol_fresh rm Hmask (proj1 Hmesh) eq_refl st). cbn [bind].
  rewrite Hcw'.
  change (faceDiff o (with_vol rm (length st))) with (faceDiff o rm).
  change (cellDiff o (with_vol rm (length st))) with (cellDiff o rm).
  assert (Hfinish : forall st2,
             deref st2 (length st) = scaled ->
             length scaled = regmesh_nC rm ->
             exists obj st' D0 G0 r Wm,
               (do F <- faceDiff o rm;
                do DF <- mat_mul (sdiag (map (fun u => fpow u 0.5)
                                             (deref st2 (length st)))) F;
                do G1 <- cellDiff o rm;
                do Wm0 <- mat_mul DF G1;
                Ok (set_W (set_regmesh obj0 (with_vol rm (length st)))
                          (Mat Wm0), st2)) = Ok (obj, st')
               /\ faceDiff o rm = Ok D0
               /\ cellDiff o rm = Ok G0
               /\ Wm = mmul (mmul (sdiag (map sqrt scaled)) D0) G0
               /\ reg_W obj = Mat Wm
               /\ nrows Wm = regmesh_nC rm /\ ncols Wm = regmesh_nC rm
               /\ mref (reg_attrs obj) = mref a0
               /\ reg_regmesh obj = Some (with_vol rm r)
               /\ deref st' r = scaled).
  { intros st2 Hderef Hscaled.
    rewrite HD. cbn [bind]. rewrite Hderef, map_fpow_half.
    rewrite mat_mul_ok.
    2:{ unfold sdiag. cbn [ncols]. now rewrite length_map, Hscaled, HDr. }
    cbn [bind]. rewrite HG. cbn [bind].
    rewrite mat_mul_ok by now rewrite ncols_mmul, HDc, HGr.
    cbn [bind].
    do 2 eexists. exists D, G, (length st). eexists.
    split; [reflexivity|]. split; [reflexivity|]. split; [reflexivity|].
    split; [reflexivity|]. split; [reflexivity|].
    split; [now rewrite !nrows_mmul, nrows_sdiag, length_map|].
    split; [exact HGc|].
    split; [exact Hmref|]. split; [reflexivity | exact Hderef]. }
  unfold scaled in *. destruct (cell_weights a0) as [cw|].
  - unfold imul. rewrite deref_alloc, Hlen, Hcw, Nat.eqb_refl. cbn [bind].
    apply Hfinish.
    + apply deref_store_set. rewrite length_app. simpl. lia.
    + rewrite length_map2; [assumption | now rewrite Hlen, Hcw].
  - cbn [bind]. apply Hfinish; [apply deref_alloc | exact Hlen].
Qed.

Lemma Smooth2_term_on_mesh_witness :
  exists obj st' r,
    Smooth_xx_init Smooth_cls (mesh1d 3)
      [kw_cell_weights [2; 3; 4]; kw_mref (Arr [1; 1; 1])] []
    = Ok (obj, st')
    /\ mref (reg_attrs obj) = Arr [1; 1; 1]
    /\ reg_regmesh obj
       = Some (with_vol (fresh_adapter (mesh1d 3) Smooth_cls) r)
    /\ deref st' r = map2 Rmult [1; 1; 1] [2; 3; 4].
Proof.
  destruct (@Smooth2_term_on_mesh Smooth_cls (mesh1d 3) Ox
              [kw_cell_weights [2; 3; 4]; kw_mref (Arr [1; 1; 1])] []
              I (mesh1d_shapes_ok 3) eq_refl)
    as (obj & st' & D & G & r & Wm & Hrun & _ & _ & _ & _ & _ & _ & Hmref
        & Hrm & Hst).
  exists obj, st', r. split; [exact Hrun|]. split; [exact Hmref|].
  split; [exact Hrm | exact Hst].
Defined.

(** ** Sparse terms on a mesh *)

Section SparseOnMesh.

Lemma wf_sdiag (v : vec) : wf_matrix (sdiag v).
Proof.
  unfold wf_matrix, sdiag. simpl. apply Forall_forall.
  intros r Hr. apply in_map_iff in Hr. destruct Hr as [iu [<- _]].
  now rewrite length_map, length_seq.
Qed.

Lemma map_sqrt_unit_weights (n : nat) :
  map sqrt (vscale 1 (ones n)) = ones n.
Proof.
  unfold vscale, ones. induction n as [|k IH]; simpl; [reflexivity|].
  rewrite IH. f_equal. rewrite Rmult_1_r. apply sqrt_1.
Qed.

Lemma setattr_cell_weights (a : Attrs) (w : vec) :
  cell_weights (setattr a (kw_cell_weights w)) = Some w
  /\ mapping (setattr a (kw_cell_weights w)) = mapping a
  /\ mref (setattr a (kw_cell_weights w)) = mref a
  /\ model (setattr a (kw_cell_weights w)) = model a
  /\ gamma (setattr a (kw_cell_weights w)) = gamma a
  /\ eps_q (setattr a (kw_cell_weights w)) = eps_q a
  /\ norm (setattr a (kw_cell_weights w)) = norm a.
Proof. destruct a. repeat split. Qed.

Variables (cls : Attrs) (mesh : Mesh) (kw : list kwarg).

Hypothesis Hactive : active_set_ok mesh (setKwargs cls kw).

(** The object that [BaseSparse] returns: the base object, with unit cell
    weights filled in when none were given. *)
Lemma BaseSparse_init_on_mesh :
  exists obj,
    BaseSparse_init cls mesh kw = Ok obj
    /\ reg_regmesh obj = Some (fresh_adapter mesh (setKwargs cls kw))
    /\ mask_ok (fresh_adapter mesh (setKwargs cls kw))
    /\ cell_weights (reg_attrs obj)
       = Some (match cell_weights (setKwargs cls kw) with
               | Some cw => cw
               | None => ones (regmesh_nC
                                 (fresh_adapter mesh (setKwargs cls kw)))
               end)
    /\ mapping (reg_attrs obj)
       = Some (mapping_on_mesh mesh (setKwargs cls kw))
    /\ mref (reg_attrs obj) = mref (setKwargs cls kw)
    /\ model (reg_attrs obj) = model (setKwargs cls kw)
    /\ gamma (reg_attrs obj) = gamma (setKwargs cls kw)
    /\ eps_q (reg_attrs obj) = eps_q (setKwargs cls kw)
    /\ norm (reg_attrs obj) = norm (setKwargs cls kw)
    /\ reg_nP obj = map_nP (mapping_on_mesh mesh (setKwargs cls kw))
    /\ reg_W obj = match find_W kw with Some w => w | None => Identity end.
Proof.
  destruct (@BaseRegularization_init_on_mesh cls mesh kw Hactive)
    as (obj0 & Hinit & Hrm & Hmask & Hkeep & Hmap & HnP & HW & _).
  destruct Hkeep as (Hmref & _ & Hcw & Hmodel & Hgamma & _ & Heq & Hnorm & _).
  unfold BaseSparse_init. rewrite Hinit. cbn [bind]. rewrite Hcw.
  destruct (cell_weights (setKwargs cls kw)) as [cw|].
  - exists obj0. repeat (split; [first [reflexivity | assumption]|]).
    assumption.
  - unfold get_regmesh. rewrite Hrm. cbn [bind].
    destruct (setattr_cell_weights (reg_attrs obj0)
                (ones (regmesh_nC (fresh_adapter mesh (setKwargs cls kw)))))
      as (H1 & H2 & H3 & H4 & H5 & H6 & H7).
    eexists. split; [reflexivity|]. cbn [set_attrs reg_attrs reg_regmesh
                                          reg_nP reg_W].
    rewrite H1, H2, H3, H4, H5, H6, H7.
    repeat (split; [first [reflexivity | assumption]|]). assumption.
Qed.

End SparseOnMesh.

(** The sparse smallness term before any model is set: construction
    succeeds whenever the cell weights, if given, have one entry per active
    cell, and [W = diag(sqrt(gamma * cell_weights))] with unit weights by
    default.  With the defaults ([gamma = 1], no weights) [W] is the identity
    matrix, and the term has the value of the plain [Smallness] term
    built from the same arguments (which must not carry a [W], a keyword
    that [Smallness] passes itself) at every model of length [nP]. *)
Theorem SparseSmallness_without_model_on_mesh :
  forall (cls : Attrs) (mesh : Mesh) (kw : list kwarg),
    let a0 := setKwargs cls kw in
    let rm := fresh_adapter mesh a0 in
    let cw := match cell_weights a0 with
              | Some cw => cw
              | None => ones (regmesh_nC rm)
              end in
    active_set_ok mesh a0 ->
    model a0 = None ->
    length cw = regmesh_nC rm ->
    exists obj,
      SparseSmallness_init cls mesh kw = Ok obj
      /\ reg_W obj = Mat (sdiag (map sqrt (vscale (gamma a0) cw)))
      /\ (cell_weights a0 = None -> gamma a0 = 1 ->
          reg_W obj = Mat (speye (regmesh_nC rm))
          /\ (cell_weights cls = None -> find_W kw = None ->
              mapping a0 = None ->
              match mref a0 with
              | Zero => True
              | Arr r => length r = regmesh_nC rm
              end ->
              exists s,
                Smallness_init cls (Some mesh) kw = Ok s
                /\ forall m, length m = regmesh_nC rm ->
                     BaseRegularization_eval obj m
                     = BaseRegularization_eval s m)).
Proof.
  intros cls mesh kw a0 rm cw Hactive Hmodel Hlen.
  destruct (@BaseSparse_init_on_mesh cls mesh kw Hactive)
    as (obj0 & Hinit & Hrm & Hmask & Hcw & Hmap & Hmref & Hmdl & Hgamma & _).
  fold a0 in Hrm, Hmask, Hcw, Hmap, Hmref, Hmdl, Hgamma.
  fold rm in Hrm, Hmask, Hcw. fold cw in Hcw.
  unfold SparseSmallness_init. rewrite Hinit. cbn [bind].
  unfold get_regmesh, get_cell_weights. rewrite Hrm. cbn [bind].
  rewrite Hmdl, Hmodel. cbn [bind]. rewrite Hcw. cbn [bind].
  rewrite Hgamma, map_fpow_half.
  assert (HD : ncols (sdiag (map sqrt (vscale (gamma a0) cw)))
               = regmesh_nC rm).
  { unfold sdiag, vscale. cbn [ncols]. now rewrite !length_map. }
  rewrite mat_mul_ok by now rewrite HD, nrows_speye.
  cbn [bind].
  pose proof (mmul_speye_r (wf_sdiag (map sqrt (vscale (gamma a0) cw))))
    as Hmm.
  rewrite HD in Hmm. rewrite Hmm.
  eexists. split; [reflexivity|]. cbn [set_W reg_W].
  split; [reflexivity|].
  intros Hnone Hone.
  assert (Heye : sdiag (map sqrt (vscale (gamma a0) cw))
                 = speye (regmesh_nC rm)).
  { unfold cw. rewrite Hnone, Hone, map_sqrt_unit_weights.
    apply sdiag_ones. }
  split; [now rewrite Heye|].
  intros Hcls HnoW Hmapnone Hfit.
  destruct (@BaseRegularization_init_on_mesh cls mesh
              (kw_W Identity :: kw)) as (s & Hs & _ & _ & Hkeep & Hmaps & _
                                         & HWs & _).
  { now rewrite setKwargs_W. }
  rewrite setKwargs_W in Hkeep, Hmaps. fold a0 in Hkeep, Hmaps.
  destruct Hkeep as [Hmrefs _].
  exists s. split.
  { unfold Smallness_init. now rewrite Hcls, HnoW. }
  intros m Hm.
  unfold BaseRegularization_eval, get_mapping.
  cbn [set_W reg_attrs reg_W].
  rewrite Hmref, Hmrefs, Hmap, Hmaps, HWs. cbn [find_W].
  unfold mapping_on_mesh. rewrite Hmapnone. cbn [bind].
  assert (Hsub : exists d, sub_mref m (mref a0) = Ok d
                           /\ length d = regmesh_nC rm).
  { destruct (mref a0) as [|r]; simpl.
    - exists m. auto.
    - unfold elementwise. rewrite Hm, Hfit, Nat.eqb_refl.
      eexists. split; [reflexivity|].
      now rewrite length_map2 by now rewrite Hm, Hfit. }
  destruct Hsub as [d [-> Hd]]. cbn [bind IdentityMap map_apply op_vec].
  rewrite Heye, mat_vec_ok by now rewrite ncols_speye.
  cbn [bind]. now rewrite <- Hd, matvec_speye.
Qed.

Lemma SparseSmallness_without_model_on_mesh_witness :
  exists obj s,
    SparseSmallness_init SparseSmallness_cls (mesh1d 3)
      [kw_mref (Arr [1; 1; 1])] = Ok obj
    /\ reg_W obj = Mat (speye 3)
    /\ Smallness_init SparseSmallness_cls (Some (mesh1d 3))
         [kw_mref (Arr [1; 1; 1])] = Ok s
    /\ BaseRegularization_eval obj [2; 3; 4]
       = BaseRegularization_eval s [2; 3; 4].
Proof.
  destruct (@SparseSmallness_without_model_on_mesh SparseSmallness_cls
              (mesh1d 3) [kw_mref (Arr [1; 1; 1])] I eq_refl eq_refl)
    as (obj & Hrun & _ & Hdefault).
  destruct (Hdefault eq_refl eq_refl) as [HW Hsame].
  destruct (Hsame eq_refl eq_refl eq_refl eq_refl) as [s [Hs Heval]].
  exists obj, s. split; [exact Hrun|]. split; [exact HW|].
  split; [exact Hs|]. exact (Heval [2; 3; 4] eq_refl).
Defined.

Section SparseAxis.

Lemma length_BaseSparse_R (f_m : vec) (eps p : R) :
  length (BaseSparse_R f_m eps p) = length f_m.
Proof. unfold BaseSparse_R. apply length_map. Qed.

Variables (obj : Reg) (rm : RegularizationMesh) (o : orientation) (cw : vec).

Hypothesis Hrm : reg_regmesh obj = Some rm.
Hypothesis Hmask : mask_ok rm.
Hypothesis Hmesh : mesh_shapes_ok (rm_mesh rm) o.
Hypothesis Hdim : (min_dim o <= regmesh_dim rm)%nat.
Hypothesis Hcw : cell_weights (reg_attrs obj) = Some cw.
Hypothesis Hlen : length cw = regmesh_nC rm.

(** The reweighting factors that the axis constructors use. *)
Let factors (S : matrix) : vec :=
  match model (reg_attrs obj) with
  | None => ones (nrows S)
  | Some mdl => BaseSparse_R (matvec S mdl) (eps_q (reg_attrs obj))
                             (norm (reg_attrs obj))
  end.

Lemma Sparse_axis_operator_ok :
  match model (reg_attrs obj) with
  | None => True
  | Some mdl =>
      length mdl = regmesh_nC rm
      /\ exists n, mapping (reg_attrs obj) = Some (IdentityMap n)
  end ->
  exists S ave,
    cellDiffStencil o rm = Ok (Some S)
    /\ aveCC2F o rm = Ok ave
    /\ Sparse_axis_operator obj o
       = Ok (spec_sparse_axis_W (gamma (reg_attrs obj)) (matvec ave cw)
                                (factors S) S)
    /\ nrows (spec_sparse_axis_W (gamma (reg_attrs obj)) (matvec ave cw)
                                 (factors S) S) = regmesh_nF o rm
    /\ ncols S = regmesh_nC rm.
Proof.
  intros Hmodel.
  destruct (@stencil_present rm o Hmask Hmesh Hdim) as [S [HS [HSr HSc]]].
  destruct (@aveCC2F_shape rm o Hmask Hmesh) as [ave [Have [Har Hac]]].
  exists S, ave. split; [exact HS|]. split; [exact Have|].
  assert (Hfac : length (factors S) = regmesh_nF o rm).
  { unfold factors. destruct (model (reg_attrs obj)).
    - now rewrite length_BaseSparse_R, length_matvec.
    - unfold ones. now rewrite repeat_length. }
  assert (HD : forall t, length t = regmesh_nF o rm ->
               ncols (sdiag (map sqrt (vscale (gamma (reg_attrs obj)) t)))
               = regmesh_nF o rm).
  { intros t Ht. unfold sdiag, vscale. cbn [ncols].
    now rewrite !length_map. }
  assert (Ht : length (matvec ave cw) = regmesh_nF o rm)
    by now rewrite length_matvec.
  split.
  - unfold Sparse_axis_operator, get_regmesh, get_stencil, get_cell_weights,
      get_mapping, spec_sparse_axis_W.
    rewrite Hrm. cbn [bind]. rewrite HS. cbn [bind].
    assert (Hfinish : forall Rm,
               Rm = sdiag (factors S) ->
               (do ave0 <- aveCC2F o rm;
                do cw0 <- match cell_weights (reg_attrs obj) with
                          | Some c => Ok c
                          | None => Raise TypeError
                          end;
                do t <- mat_vec ave0 cw0;
                do DR <- mat_mul
                           (sdiag (map (fun u => fpow u 0.5)
                                       (vscale (gamma (reg_attrs obj)) t)))
                           Rm;
                do S0 <- Ok S; mat_mul DR S0)
               = Ok (mmul (mmul (sdiag (map sqrt
                                            (vscale (gamma (reg_attrs obj))
                                                    (matvec ave cw))))
                                (sdiag (factors S))) S)).
    { intros Rm ->. rewrite Have, Hcw. cbn [bind].
      rewrite mat_vec_ok by now rewrite Hac, Hlen.
      cbn [bind]. rewrite map_fpow_half.
      rewrite mat_mul_ok by now rewrite (HD _ Ht), nrows_sdiag.
      cbn [bind].
      rewrite mat_mul_ok; [reflexivity|].
      rewrite ncols_mmul. unfold sdiag at 1. cbn [ncols].
      now rewrite Hfac, HSr. }
    unfold factors in *.
    destruct (model (reg_attrs obj)) as [mdl|].
    + destruct Hmodel as [Hm [n Hn]]. rewrite Hn. cbn [bind].
      unfold IdentityMap at 1. cbn [map_apply bind].
      rewrite mat_vec_ok by now rewrite HSc, Hm.
      cbn [bind]. now apply Hfinish.
    + cbn [bind]. apply Hfinish. symmetry. apply sdiag_ones.
  - split; [|exact HSc].
    unfold spec_sparse_axis_W. rewrite !nrows_mmul, nrows_sdiag.
    unfold vscale. now rewrite !length_map.
Qed.

End SparseAxis.

(** The sparse derivative terms on a mesh that has the axis: construction
    succeeds whenever the cell weights (unit by default) have one entry per
    active cell and the model, if set, has one entry per active cell (with
    the default mapping); the operator is the formula of the class,
    [diag(sqrt(gamma * ave * cell_weights)) * diag(R) * stencil], with unit
    factors [R] before a model is set.  [Sparse_x] and [Sparse_y] store it
    in [W]; [Sparse_z] stores it in [Wz] and leaves [W] as the base
    constructor set it. *)
Theorem Sparse_axis_terms_on_mesh :
  forall (cls : Attrs) (mesh : Mesh) (o : orientation) (kw : list kwarg),
    let a0 := setKwargs cls kw in
    let rm := fresh_adapter mesh a0 in
    let cw := match cell_weights a0 with
              | Some cw => cw
              | None => ones (regmesh_nC rm)
              end in
    active_set_ok mesh a0 ->
    mesh_shapes_ok mesh o ->
    (min_dim o <= dim mesh)%nat ->
    length cw = regmesh_nC rm ->
    match model a0 with
    | None => True
    | Some mdl => length mdl = regmesh_nC rm /\ mapping a0 = None
    end ->
    exists S ave Wm,
      cellDiffStencil o rm = Ok (Some S)
      /\ aveCC2F o rm = Ok ave
      /\ Wm = spec_sparse_axis_W (gamma a0) (matvec ave cw)
                (match model a0 with
                 | None => ones (nrows S)
                 | Some mdl => BaseSparse_R (matvec S mdl) (eps_q a0)
                                            (norm a0)
                 end) S
      /\ nrows Wm = regmesh_nF o rm /\ ncols Wm = regmesh_nC rm
      /\ exists obj,
           match o with
           | Ox => Sparse_x_init cls mesh kw = Ok obj /\ reg_W obj = Mat Wm
           | Oy => Sparse_y_init cls mesh kw = Ok obj /\ reg_W obj = Mat Wm
           | Oz => Sparse_z_init cls mesh kw = Ok obj
                   /\ reg_Wz obj = Some (Mat Wm)
                   /\ reg_W obj = match find_W kw with
                                  | Some w => w
                                  | None => Identity
                                  end
           end.
Proof.
  intros cls mesh o kw a0 rm cw Hactive Hmesh Hdim Hlen Hmodel.
  destruct (@BaseSparse_init_on_mesh cls mesh kw Hactive)
    as (obj0 & Hinit & Hrm & Hmask & Hcw & Hmap & _ & Hmdl & Hgamma & Heq
        & Hnorm & _ & HW).
  fold a0 in Hrm, Hmask, Hcw, Hmap, Hmdl, Hgamma, Heq, Hnorm.
  fold rm in Hrm, Hmask, Hcw. fold cw in Hcw.
  destruct (@Sparse_axis_operator_ok obj0 rm o cw Hrm Hmask Hmesh Hdim Hcw
              Hlen)
    as (S & ave & HS & Have & Hop & Hrows & HSc).
  { rewrite Hmdl. destruct (model a0) as [mdl|]; [|exact I].
    destruct Hmodel as [Hm Hnone]. split; [exact Hm|].
    unfold mapping_on_mesh in Hmap. rewrite Hnone in Hmap. eauto. }
  rewrite Hmdl, Hgamma, Heq, Hnorm in Hop, Hrows.
  exists S, ave. eexists.
  split; [exact HS|]. split; [exact Have|]. split; [reflexivity|].
  split; [exact Hrows|]. split; [exact HSc|].
  destruct o.
  - unfold Sparse_x_init. rewrite Hinit. cbn [bind]. rewrite Hop.
    eexists. split; reflexivity.
  - unfold Sparse_y_init.
    replace (1 <? dim mesh)%nat with true
      by (symmetry; apply Nat.ltb_lt; exact Hdim).
    cbn [assert_ bind]. rewrite Hinit. cbn [bind]. rewrite Hop.
    eexists. split; reflexivity.
  - unfold Sparse_z_init.
    replace (2 <? dim mesh)%nat with true
      by (symmetry; apply Nat.ltb_lt; exact Hdim).
    cbn [assert_ bind]. rewrite Hinit. cbn [bind]. rewrite Hop.
    eexists. split; [reflexivity|]. split; [reflexivity | exact HW].
Qed.

Lemma Sparse_axis_terms_on_mesh_witness :
  exists S ave obj,
    cellDiffStencil Ox (fresh_adapter (mesh1d 3) Sparse_x_cls) = Ok (Some S)
    /\ aveCC2F Ox (fresh_adapter (mesh1d 3) Sparse_x_cls) = Ok ave
    /\ Sparse_x_init Sparse_x_cls (mesh1d 3) [kw_model [1; 2; 4]] = Ok obj
    /\ reg_W obj
       = Mat (spec_sparse_axis_W 1 (matvec ave (ones 3))
                (BaseSparse_R (matvec S [1; 2; 4]) (1 / 10) 2) S).
Proof.
  destruct (@Sparse_axis_terms_on_mesh Sparse_x_cls (mesh1d 3) Ox
              [kw_model [1; 2; 4]] I (mesh1d_shapes_ok 3) (le_n 1)
              eq_refl (conj eq_refl eq_refl))
    as (S & ave & Wm & HS & Have & HWm & _ & _ & obj & Hrun & HW).
  exists S, ave, obj. split; [exact HS|]. split; [exact Have|].
  split; [exact Hrun|]. rewrite HW, HWm. reflexivity.
Defined.

Section SparseFactors.

Lemma fpow_pos (u p : R) : 0 < u -> 0 < fpow u p.
Proof.
  intros Hu. unfold fpow.
  destruct (Req_dec_T p 0); [lra|].
  destruct (Req_dec_T p 2); [nra|].
  destruct (Req_dec_T p 0.5); [now apply sqrt_lt_R0|].
  destruct (Rlt_dec 0 u); [|contradiction].
  unfold Rpower. apply exp_pos.
Qed.

End SparseFactors.

(** [BaseSparse.R] with a positive threshold [eps]: one reweighting factor
    per entry of [f_m], each of them strictly positive, whatever the model
    values and the norm exponent; the factor does not depend on the sign of
    the entry. *)
Theorem BaseSparse_R_factors_positive :
  forall (f_m : vec) (eps p : R),
    0 < eps ->
    length (BaseSparse_R f_m eps p) = length f_m
    /\ Forall (fun r => 0 < r) (BaseSparse_R f_m eps p)
    /\ BaseSparse_R (map Ropp f_m) eps p = BaseSparse_R f_m eps p.
Proof.
  intros f_m eps p Heps.
  split; [apply length_BaseSparse_R|].
  assert (Hsq : forall f, fpow (- f) 2 = fpow f 2).
  { intros f. unfold fpow.
    destruct (Req_dec_T 2 0); [lra|].
    destruct (Req_dec_T 2 2); [lra | contradiction]. }
  split.
  - unfold BaseSparse_R. apply Forall_forall. intros r Hr.
    apply in_map_iff in Hr. destruct Hr as [f [<- _]].
    apply Rdiv_lt_0_compat.
    + apply fpow_pos, fpow_pos, Heps.
    + apply fpow_pos. rewrite !fpow_two. nra.
  - unfold BaseSparse_R. rewrite map_map. apply map_ext.
    intros f. now rewrite Hsq.
Qed.

Lemma BaseSparse_R_factors_positive_witness :
  0 < 1 / 10
  /\ Forall (fun r => 0 < r) (BaseSparse_R [0; -3; 5] (1 / 10) 0).
Proof.
  assert (H : 0 < 1 / 10) by lra.
  split; [exact H|].
  exact (proj1 (proj2 (@BaseSparse_R_factors_positive [0; -3; 5] (1 / 10) 0
                         H))).
Defined.

(** With [norm = 2] the sparse derivative operator does not depend on the
    model: the reweighting factors are all 1 and the operator is the
    ordinary least-squares one, [diag(sqrt(gamma * ave * cell_weights)) *
    stencil], whatever model is set. *)
Theorem Sparse_axis_norm_2_is_least_squares :
  forall (obj : Reg) (rm : RegularizationMesh) (o : orientation)
         (cw mdl : vec) (n : option nat),
    reg_regmesh obj = Some rm ->
    mask_ok rm ->
    mesh_shapes_ok (rm_mesh rm) o ->
    (min_dim o <= regmesh_dim rm)%nat ->
    cell_weights (reg_attrs obj) = Some cw ->
    length cw = regmesh_nC rm ->
    model (reg_attrs obj) = Some mdl ->
    length mdl = regmesh_nC rm ->
    mapping (reg_attrs obj) = Some (IdentityMap n) ->
    norm (reg_attrs obj) = 2 ->
    exists S ave,
      cellDiffStencil o rm = Ok (Some S)
      /\ aveCC2F o rm = Ok ave
      /\ Sparse_axis_operator obj o
         = Ok (mmul (sdiag (map sqrt (vscale (gamma (reg_attrs obj))
                                             (matvec ave cw)))) S).
Proof.
  intros obj rm o cw mdl n Hrm Hmask Hmesh Hdim Hcw Hlen Hmdl Hm Hmap Hnorm.
  destruct (@stencil_present rm o Hmask Hmesh Hdim) as [S [HS [HSr HSc]]].
  destruct (@aveCC2F_shape rm o Hmask Hmesh) as [ave [Have [Har Hac]]].
  destruct (@Sparse_axis_operator_ok obj rm o cw Hrm Hmask Hmesh Hdim Hcw
              Hlen)
    as (S' & ave' & HS' & Have' & Hop & _ & _).
  { rewrite Hmdl. split; [exact Hm | eauto]. }
  rewrite HS in HS'. injection HS' as <-.
  rewrite Have in Have'. injection Have' as <-.
  exists S, ave. split; [exact HS|]. split; [exact Have|].
  rewrite Hop, Hmdl, Hnorm. unfold spec_sparse_axis_W.
  rewrite BaseSparse_R_norm_2, length_matvec, HSr, sdiag_ones.
  set (D := sdiag _).
  assert (HD : ncols D = regmesh_nF o rm).
  { unfold D, sdiag, vscale. cbn [ncols].
    now rewrite !length_map, length_matvec. }
  rewrite <- HD, mmul_speye_r by apply wf_sdiag. reflexivity.
Qed.

Lemma Sparse_axis_norm_2_is_least_squares_witness :
  exists obj S ave,
    Sparse_x_init Sparse_x_cls (mesh1d 3) [kw_model [1; 2; 4]] = Ok obj
    /\ Sparse_axis_operator obj Ox
       = Ok (mmul (sdiag (map sqrt (vscale (gamma (reg_attrs obj))
                                           (matvec ave (ones 3))))) S).
Proof.
  destruct (Sparse_x_init Sparse_x_cls (mesh1d 3) [kw_model [1; 2; 4]])
    as [obj|e] eqn:Hrun;
    [|cbn -[fpow BaseSparse_R] in Hrun; discriminate].
  assert (Hattrs : reg_regmesh obj
                   = Some (fresh_adapter (mesh1d 3) Sparse_x_cls)
                   /\ cell_weights (reg_attrs obj) = Some (ones 3)
                   /\ model (reg_attrs obj) = Some [1; 2; 4]
                   /\ mapping (reg_attrs obj) = Some (IdentityMap (Some 3%nat))
                   /\ norm (reg_attrs obj) = 2).
  { cbn -[fpow BaseSparse_R] in Hrun. injection Hrun as <-.
    repeat split. }
  destruct Hattrs as (Hrm & Hcw & Hmdl & Hmap & Hnorm).
  destruct (@Sparse_axis_norm_2_is_least_squares obj
              (fresh_adapter (mesh1d 3) Sparse_x_cls) Ox (ones 3) [1; 2; 4]
              (Some 3%nat) Hrm I (mesh1d_shapes_ok 3) (le_n 1) Hcw eq_refl
              Hmdl eq_refl Hmap Hnorm)
    as (S & ave & _ & _ & Hop).
  exists obj, S, ave. split; [reflexivity | exact Hop].
Defined.

Section IntegerActiveSet.

Lemma normalize_index_out_of_range (n : nat) (i : Z) :
  ~ index_in_range n i -> normalize_index n i = Raise IndexError.
Proof.
  unfold normalize_index, index_in_range. intros H.
  destruct ((0 <=? i)%Z && (i <? Z.of_nat n)%Z) eqn:H1.
  { apply andb_true_iff in H1. lia. }
  destruct ((- Z.of_nat n <=? i)%Z && (i <? 0)%Z) eqn:H2; [|reflexivity].
  apply andb_true_iff in H2. lia.
Qed.

Lemma normalize_index_raises (n : nat) (i : Z) (e : exn) :
  normalize_index n i = Raise e -> e = IndexError.
Proof.
  unfold normalize_index.
  destruct ((0 <=? i)%Z && (i <? Z.of_nat n)%Z); [discriminate|].
  destruct ((- Z.of_nat n <=? i)%Z && (i <? 0)%Z); [discriminate|].
  intros H. now injection H as <-.
Qed.

(** One index outside the array makes the whole assignment raise, wherever
    it stands in the list. *)
Lemma assign_true_out_of_range (tmp : list Z) :
  forall a : list bool,
    Exists (fun i => ~ index_in_range (length a) i) tmp ->
    assign_true a tmp = Raise IndexError.
Proof.
  induction tmp as [|i tmp IH]; intros a Hex; [inversion Hex|].
  simpl. destruct (normalize_index (length a) i) as [j|e] eqn:Hi; simpl.
  - apply IH. rewrite length_set_nth_true.
    inversion Hex as [? ? Hout | ? ? Hrest]; subst; [|exact Hrest].
    rewrite (normalize_index_out_of_range Hout) in Hi. discriminate.
  - now rewrite (normalize_index_raises _ _ Hi).
Qed.

End IntegerActiveSet.

(** An integer active set is checked against the mesh: in
    [BaseRegularization(mesh, nP, indActive=idx)] one index outside
    [-nC, nC) makes the constructor raise [IndexError], whatever the other
    indices, the class's mapping and [nP] are; and without a mesh to size
    the mask the constructor raises [AttributeError]. *)
Theorem integer_indActive_out_of_range_raises :
  forall (cls : Attrs) (mesh : option Mesh) (nP : option nat)
         (idx : list Z),
    match mesh with
    | Some ms => Exists (fun i => ~ index_in_range (nC ms) i) idx
    | None => True
    end ->
    BaseRegularization_init cls mesh nP [kw_indActive (IntArr idx)]
    = Raise match mesh with
            | Some _ => IndexError
            | None => AttributeError
            end.
Proof.
  intros cls mesh nP idx.
  unfold BaseRegularization_init, L2ObjectiveFunction_init.
  destruct cls as [mp mr ia cw mis als alx aly alz ep eq md ga nm nms ori].
  cbn [setKwargs fold_left setattr indActive]. intros Hex.
  destruct mesh as [ms|]; [|reflexivity].
  rewrite assign_true_out_of_range
    by (rewrite repeat_length; exact Hex).
  reflexivity.
Qed.

Lemma integer_indActive_out_of_range_raises_witness :
  Exists (fun i => ~ index_in_range 3 i) [0; 3; 1]%Z
  /\ BaseRegularization_init BaseRegularization_cls (Some (mesh1d 3)) None
       [kw_indActive (IntArr [0; 3; 1]%Z)] = Raise IndexError.
Proof.
  assert (Hex : Exists (fun i => ~ index_in_range 3 i) [0; 3; 1]%Z).
  { apply Exists_cons_tl, Exists_cons_hd. unfold index_in_range. lia. }
  split; [exact Hex|].
  exact (@integer_indActive_out_of_range_raises BaseRegularization_cls
           (Some (mesh1d 3)) None [0; 3; 1]%Z Hex).
Defined.
